(** * A shallow embedding of the search server of [main.cpp]

    The C++ class [SearchServer] keeps three containers: the stop words
    ([std::set<string>]), the inverted index
    ([std::map<string, std::map<int, double>>]) and the document store
    ([std::map<int, DocumentData>]).  They are modelled by stdpp's [gset]
    and [gmap]; wherever the source walks a container with a range-[for],
    the model walks the list of its bindings sorted by key, which is the
    iteration order of the ordered C++ containers.

    [int] is a 32-bit two's complement integer carried by [Z] with its
    wrap-around written out, [double] is the IEEE-754 binary64 type of
    Rocq's primitive floats, [std::string] is a [string] of 8-bit
    characters.  [std::log] and [std::sort] belong to the C++ standard
    library and are parameters of the model.

    The first part of the file is the model, the second part its
    properties.  Where a property speaks of the numbers that the doubles
    denote, these are real numbers ([real_of]), obtained through the
    specification of the primitive floats ([SpecFloat]). *)

From Stdlib Require Import ZArith Floats Uint63 String Ascii Lia Reals Lra.
From stdpp Require Import gmap strings list sorting.

#[local] Set Warnings "-clear-no-such-hyp".

Local Open Scope Z_scope.

(** ** Machine integers *)

Definition INT_MIN : Z := - 2 ^ 31.
Definition INT_MAX : Z := 2 ^ 31 - 1.

Definition is_int (z : Z) : Prop := INT_MIN ≤ z ≤ INT_MAX.

(** Conversion of a mathematical integer to [int], modulo [2 ^ 32]. *)
Definition wrap_int (z : Z) : Z := (z + 2 ^ 31) `mod` 2 ^ 32 - 2 ^ 31.

(** ** Doubles *)

(** [const double DELTA = 1e-6;] the literal denotes the binary64 number
    closest to one millionth. *)
Definition DELTA : float := 0x1.0c6f7a0b5ed8dp-20%float.

Definition MAX_RESULT_DOCUMENT_COUNT : Z := 5.

(** [static_cast<double>] of a [size_t]. *)
Definition double_of_size (n : nat) : float :=
  PrimFloat.of_uint63 (Uint63.of_Z (Z.of_nat n)).

(** The implicit conversion of an [int] to [double]. *)
Definition double_of_int (z : Z) : float :=
  if z <? 0 then (- PrimFloat.of_uint63 (Uint63.of_Z (- z)))%float
  else PrimFloat.of_uint63 (Uint63.of_Z z).

(** ** Exceptions

    [std::map::at] throws [std::out_of_range] on a missing key; no other
    exception is raised by the class. *)

Inductive result (A : Type) : Type :=
| Ok (a : A)
| OutOfRange.

Arguments Ok {A} a.
Arguments OutOfRange {A}.

Definition result_bind {A B} (r : result A) (k : A → result B) : result B :=
  match r with
  | Ok a => k a
  | OutOfRange => OutOfRange
  end.

Notation "x ←! r ; k" := (result_bind r (λ x, k))
  (at level 20, r at level 100, k at level 200, right associativity,
   format "x  ←!  r ; '/' k").

(** [m.at(k)] *)
Definition map_at `{Countable K} {V} (m : gmap K V) (k : K) : result V :=
  match m !! k with
  | Some v => Ok v
  | None => OutOfRange
  end.

(** A range-[for] whose body may throw. *)
Fixpoint for_each {A S} (body : S → A → result S) (l : list A) (s : S)
  : result S :=
  match l with
  | [] => Ok s
  | x :: l' => s' ←! body s x; for_each body l' s'
  end.

(** ** Iteration order of the ordered containers *)

Definition key_le {V} (a b : Z * V) : Prop := a.1 ≤ b.1.

#[global] Instance key_le_dec {V} (a b : Z * V) : Decision (key_le a b).
Proof. unfold key_le. apply _. Defined.

(** The bindings of a [std::map<int, V>] in iteration order. *)
Definition map_items {V} (m : gmap Z V) : list (Z * V) :=
  merge_sort key_le (map_to_list m).

(** [std::string::operator<]: lexicographic on the characters taken as
    [unsigned char]. *)
Definition string_le (a b : string) : Prop := String.leb a b = true.

#[global] Instance string_le_dec (a b : string) : Decision (string_le a b).
Proof. unfold string_le. apply _. Defined.

(** The elements of a [std::set<string>] in iteration order. *)
Definition set_items (s : gset string) : list string :=
  merge_sort string_le (elements s).

(** ** Tokenizer *)

(** The loop of [SplitIntoWords]: [word] is the token under construction,
    [words] the tokens already pushed. *)
Fixpoint SplitIntoWords_loop (text word : string) (words : list string)
  : list string :=
  match text with
  | EmptyString =>
      if decide (word = EmptyString) then words else words ++ [word]
  | String c rest =>
      if decide (c = " "%char) then
        if decide (word = EmptyString) then SplitIntoWords_loop rest word words
        else SplitIntoWords_loop rest EmptyString (words ++ [word])
      else SplitIntoWords_loop rest (word +:+ String c EmptyString) words
  end.

Definition SplitIntoWords (text : string) : list string :=
  SplitIntoWords_loop text EmptyString [].

(** The lambda of [IsValidWord]: [c >= '\0' && c < ' '].  Whether [char]
    is signed or not, it holds exactly of the bytes 0 to 31. *)
Definition is_control (c : ascii) : bool := (N_of_ascii c <? 32)%N.

Fixpoint any_of (p : ascii → bool) (s : string) : bool :=
  match s with
  | EmptyString => false
  | String c rest => p c || any_of p rest
  end.

Definition IsValidWord (word : string) : bool :=
  if decide (word = "-"%string) then false
  else negb (any_of is_control word).

(** ** Data *)

Inductive DocumentStatus : Type :=
| ACTUAL
| IRRELEVANT
| BANNED
| REMOVED.

#[global] Instance DocumentStatus_eq_dec : EqDecision DocumentStatus.
Proof. solve_decision. Defined.

Record Document : Type := mkDocument {
  doc_id : Z;
  doc_relevance : float;
  doc_rating : Z;
}.

Record DocumentData : Type := mkDocumentData {
  rating : Z;
  status : DocumentStatus;
}.

Record SearchServer : Type := mkSearchServer {
  stop_words_ : gset string;
  word_to_document_freqs_ : gmap string (gmap Z float);
  documents_ : gmap Z DocumentData;
}.

Record QueryWord : Type := mkQueryWord {
  data : string;
  is_minus : bool;
  is_stop : bool;
}.

Record Query : Type := mkQuery {
  plus_words : gset string;
  minus_words : gset string;
}.

Definition INVALID_DOCUMENT_ID : Z := -1.

(** ** Construction and stop words *)

(** [SearchServer() = default] *)
Definition SearchServer_default : SearchServer :=
  mkSearchServer ∅ ∅ ∅.

(** The constructor from a collection of strings: empty strings are
    skipped. *)
Definition SearchServer_of_collection (stop_words : list string) : SearchServer :=
  mkSearchServer
    (foldl (λ acc word, if decide (word = EmptyString) then acc else {[word]} ∪ acc)
           ∅ stop_words)
    ∅ ∅.

Definition SearchServer_of_text (stop_words_text : string) : SearchServer :=
  SearchServer_of_collection (SplitIntoWords stop_words_text).

Definition SetStopWords (s : SearchServer) (text : string) : SearchServer :=
  mkSearchServer
    (foldl (λ acc word, {[word]} ∪ acc) (stop_words_ s) (SplitIntoWords text))
    (word_to_document_freqs_ s) (documents_ s).

Definition IsStopWord (s : SearchServer) (word : string) : bool :=
  bool_decide (word ∈ stop_words_ s).

Definition SplitIntoWordsNoStop (s : SearchServer) (text : string) : list string :=
  foldl (λ words word, if IsStopWord s word then words else words ++ [word])
        [] (SplitIntoWords text).

(** ** Ratings *)

(** [rating_sum += rating] on [int]; [static_cast<int>(ratings.size())];
    [/] on [int] truncates toward zero. *)
Definition ComputeAverageRating (ratings : list Z) : Z :=
  match ratings with
  | [] => 0
  | _ =>
      let rating_sum := foldl (λ acc r, wrap_int (acc + r)) 0 ratings in
      wrap_int (rating_sum ÷ wrap_int (Z.of_nat (length ratings)))
  end.

(** ** Ingestion *)

(** [documents_.emplace(id, d)]: no effect when the key is present. *)
Definition emplace {V} (m : gmap Z V) (k : Z) (v : V) : gmap Z V :=
  match m !! k with
  | Some _ => m
  | None => <[k := v]> m
  end.

(** [word_to_document_freqs_[word][document_id] += inv_word_count]: both
    [operator[]] insert a value-initialised entry when the key is new. *)
Definition add_freq (index : gmap string (gmap Z float)) (word : string)
    (document_id : Z) (inv_word_count : float) : gmap string (gmap Z float) :=
  let postings := default ∅ (index !! word) in
  let freq := default 0%float (postings !! document_id) in
  <[word := <[document_id := (freq + inv_word_count)%float]> postings]> index.

Definition AddDocument (s : SearchServer) (document_id : Z) (document : string)
    (st : DocumentStatus) (ratings : list Z) : bool * SearchServer :=
  if (document_id <? 0)
     || bool_decide (is_Some (documents_ s !! document_id))
     || negb (IsValidWord document)
  then (false, s)
  else
    let words := SplitIntoWordsNoStop s document in
    match words with
    | [] =>
        (true,
         mkSearchServer (stop_words_ s) (word_to_document_freqs_ s)
           (emplace (documents_ s) document_id
              (mkDocumentData (ComputeAverageRating ratings) st)))
    | _ =>
        let inv_word_count := (1 / double_of_size (length words))%float in
        (true,
         mkSearchServer (stop_words_ s)
           (foldl (λ index word, add_freq index word document_id inv_word_count)
                  (word_to_document_freqs_ s) words)
           (emplace (documents_ s) document_id
              (mkDocumentData (ComputeAverageRating ratings) st)))
    end.

Definition GetDocumentCount (s : SearchServer) : Z :=
  wrap_int (Z.of_nat (size (documents_ s))).

Fixpoint GetDocumentId_loop {V} (docs : list (Z * V)) (doc_index index : Z) : Z :=
  match docs with
  | [] => INVALID_DOCUMENT_ID
  | doc :: rest =>
      if doc_index =? index then doc.1
      else GetDocumentId_loop rest (doc_index + 1) index
  end.

Definition GetDocumentId (s : SearchServer) (index : Z) : Z :=
  if (index <? 0) || (Z.of_nat (size (documents_ s)) <=? index)
  then INVALID_DOCUMENT_ID
  else GetDocumentId_loop (map_items (documents_ s)) 0 index.

(** ** Query parsing *)

(** [text[0]] and [text[1]]: reading at [size()] yields the null
    character. *)
Definition ParseQueryWord (s : SearchServer) (text : string) : option QueryWord :=
  if negb (IsValidWord text) then None
  else
    match text with
    | String "-"%char rest =>
        match rest with
        | String "-"%char _ => None
        | _ => Some (mkQueryWord rest true (IsStopWord s rest))
        end
    | _ => Some (mkQueryWord text false (IsStopWord s text))
    end.

Fixpoint ParseQuery_loop (s : SearchServer) (words : list string) (result : Query)
  : option Query :=
  match words with
  | [] => Some result
  | word :: rest =>
      match ParseQueryWord s word with
      | None => None
      | Some query_word =>
          if is_stop query_word then ParseQuery_loop s rest result
          else if is_minus query_word then
            ParseQuery_loop s rest
              (mkQuery (plus_words result) ({[data query_word]} ∪ minus_words result))
          else
            ParseQuery_loop s rest
              (mkQuery ({[data query_word]} ∪ plus_words result) (minus_words result))
      end
  end.

Definition ParseQuery (s : SearchServer) (text : string) : option Query :=
  ParseQuery_loop s (SplitIntoWords text) (mkQuery ∅ ∅).

(** ** Ranking and matching *)

(** The comparator handed to [std::sort] by [FindTopDocuments]. *)
Definition by_relevance (lhs rhs : Document) : bool :=
  if (PrimFloat.abs (doc_relevance lhs - doc_relevance rhs) <? DELTA)%float
  then doc_rating rhs <? doc_rating lhs
  else (doc_relevance rhs <? doc_relevance lhs)%float.

(** The predicate of the overload that takes a status. *)
Definition status_is (st : DocumentStatus) (document_id : Z)
    (doc_status : DocumentStatus) (doc_rating : Z) : bool :=
  bool_decide (doc_status = st).

Section Engine.

(** [std::log] on [double]. *)
Variable log : float → float.

(** [std::sort(first, last, comp)] on a vector of documents. *)
Variable sort : (Document → Document → bool) → list Document → list Document.

Definition ComputeWordInverseDocumentFreq (s : SearchServer) (word : string)
  : result float :=
  postings ←! map_at (word_to_document_freqs_ s) word;
  Ok (log (double_of_int (GetDocumentCount s) * 1 / double_of_size (size postings))%float).

(** The body of the inner loop over the postings of a plus word. *)
Definition accumulate (s : SearchServer)
    (key_mapper : Z → DocumentStatus → Z → bool) (inverse_document_freq : float)
    (document_to_relevance : gmap Z float) (posting : Z * float)
  : result (gmap Z float) :=
  let '(document_id, term_freq) := posting in
  d ←! map_at (documents_ s) document_id;
  if key_mapper document_id (status d) (rating d) then
    Ok (<[document_id :=
            (default 0%float (document_to_relevance !! document_id)
             + term_freq * inverse_document_freq)%float]> document_to_relevance)
  else Ok document_to_relevance.

(** The body of the loop over the plus words. *)
Definition add_plus_word (s : SearchServer)
    (key_mapper : Z → DocumentStatus → Z → bool)
    (document_to_relevance : gmap Z float) (word : string)
  : result (gmap Z float) :=
  match word_to_document_freqs_ s !! word with
  | None => Ok document_to_relevance
  | Some postings =>
      inverse_document_freq ←! ComputeWordInverseDocumentFreq s word;
      for_each (accumulate s key_mapper inverse_document_freq)
               (map_items postings) document_to_relevance
  end.

(** The body of the loop over the minus words. *)
Definition erase_minus_word (s : SearchServer)
    (document_to_relevance : gmap Z float) (word : string) : gmap Z float :=
  match word_to_document_freqs_ s !! word with
  | None => document_to_relevance
  | Some postings =>
      foldl (λ m posting, delete posting.1 m) document_to_relevance
            (map_items postings)
  end.

Definition FindAllDocuments (s : SearchServer) (query : Query)
    (key_mapper : Z → DocumentStatus → Z → bool) : result (list Document) :=
  document_to_relevance ←!
    for_each (add_plus_word s key_mapper) (set_items (plus_words query)) ∅;
  let document_to_relevance :=
    foldl (erase_minus_word s) document_to_relevance
          (set_items (minus_words query)) in
  for_each
    (λ matched_documents entry,
       d ←! map_at (documents_ s) entry.1;
       Ok (matched_documents ++ [mkDocument entry.1 entry.2 (rating d)]))
    (map_items document_to_relevance) [].

(** [result.resize(MAX_RESULT_DOCUMENT_COUNT)] when the vector is longer. *)
Definition truncate (l : list Document) : list Document :=
  if MAX_RESULT_DOCUMENT_COUNT <? Z.of_nat (length l)
  then take (Z.to_nat MAX_RESULT_DOCUMENT_COUNT) l
  else l.

Definition FindTopDocuments (s : SearchServer) (raw_query : string)
    (document_predicate : Z → DocumentStatus → Z → bool)
  : result (option (list Document)) :=
  let query := ParseQuery s raw_query in
  if negb (IsValidWord raw_query) then Ok None
  else
    match query with
    | None => Ok None
    | Some q =>
        found ←! FindAllDocuments s q document_predicate;
        Ok (Some (truncate (sort by_relevance found)))
    end.

Definition FindTopDocuments_status (s : SearchServer) (raw_query : string)
    (st : DocumentStatus) : result (option (list Document)) :=
  FindTopDocuments s raw_query (status_is st).

Definition FindTopDocuments_actual (s : SearchServer) (raw_query : string)
  : result (option (list Document)) :=
  FindTopDocuments_status s raw_query ACTUAL.

End Engine.

(** Whether [document_id] has a posting under [word]. *)
Definition has_posting (s : SearchServer) (word : string) (document_id : Z) : bool :=
  match word_to_document_freqs_ s !! word with
  | None => false
  | Some postings => bool_decide (is_Some (postings !! document_id))
  end.

(** The second loop of [MatchDocument]: the first minus word found in the
    document clears the matches and leaves the loop. *)
Fixpoint clear_on_minus (s : SearchServer) (document_id : Z)
    (words : list string) (matched_words : list string) : list string :=
  match words with
  | [] => matched_words
  | word :: rest =>
      if has_posting s word document_id then []
      else clear_on_minus s document_id rest matched_words
  end.

Definition MatchDocument (s : SearchServer) (raw_query : string) (document_id : Z)
  : result (option (list string * DocumentStatus)) :=
  let query := ParseQuery s raw_query in
  if negb (IsValidWord raw_query) then Ok None
  else
    match query with
    | None => Ok None
    | Some q =>
        let matched_words :=
          foldl (λ matched word,
                   if has_posting s word document_id then matched ++ [word]
                   else matched)
                [] (set_items (plus_words q)) in
        let matched_words :=
          clear_on_minus s document_id (set_items (minus_words q)) matched_words in
        d ←! map_at (documents_ s) document_id;
        Ok (Some (matched_words, status d))
    end.

(** ** Notions used by the statements *)

(** The sum of a list of ratings over the mathematical integers. *)
Definition rating_total (ratings : list Z) : Z := foldr Z.add 0 ratings.

(** No partial sum of the ratings leaves the range of [int]: the loop of
    [ComputeAverageRating] never overflows. *)
Definition no_overflow (ratings : list Z) : Prop :=
  ∀ k : nat, is_int (rating_total (take k ratings)).

(** Every document id of the inverted index is a key of the document
    store.  [AddDocument] keeps it so; under it no [at] of the class
    throws. *)
Definition consistent (s : SearchServer) : Prop :=
  ∀ word postings document_id,
    word_to_document_freqs_ s !! word = Some postings →
    is_Some (postings !! document_id) →
    is_Some (documents_ s !! document_id).

(** The states that the public interface can build. *)
Inductive reachable : SearchServer → Prop :=
| reachable_default : reachable SearchServer_default
| reachable_of_collection stop_words :
    reachable (SearchServer_of_collection stop_words)
| reachable_of_text stop_words_text :
    reachable (SearchServer_of_text stop_words_text)
| reachable_SetStopWords s text :
    reachable s → reachable (SetStopWords s text)
| reachable_AddDocument s document_id document st ratings :
    reachable s → reachable (AddDocument s document_id document st ratings).2.

(** The caller's predicate holds of the stored document. *)
Definition accepts (s : SearchServer) (key_mapper : Z → DocumentStatus → Z → bool)
    (document_id : Z) : Prop :=
  ∃ d, documents_ s !! document_id = Some d
       ∧ key_mapper document_id (status d) (rating d) = true.

(** The document has a plus word of the query, passes the predicate and
    has no minus word of the query. *)
Definition matches (s : SearchServer) (q : Query)
    (key_mapper : Z → DocumentStatus → Z → bool) (document_id : Z) : Prop :=
  (∃ w, w ∈ plus_words q ∧ has_posting s w document_id = true)
  ∧ accepts s key_mapper document_id
  ∧ (∀ w, w ∈ minus_words q → has_posting s w document_id = false).

(** A result item built from an entry of [document_to_relevance]. *)
Definition item_of (s : SearchServer) (entry : Z * float) (doc : Document) : Prop :=
  doc_id doc = entry.1 ∧ doc_relevance doc = entry.2
  ∧ rating <$> documents_ s !! entry.1 = Some (doc_rating doc).

(** The raw query has a token ["-"], a token that starts with ["--"], or a
    control character. *)
Definition malformed (raw_query : string) : Prop :=
  (∃ w, w ∈ SplitIntoWords raw_query
        ∧ (w = "-"%string ∨ ∃ x, w = String "-" (String "-" x)))
  ∨ any_of is_control raw_query = true.

(** The requirement of [std::sort] on its comparator, over the elements
    being sorted: [comp] is irreflexive and transitive, and so is the
    equivalence "neither before the other". *)
Definition strict_weak_order_on (comp : Document → Document → bool)
    (l : list Document) : Prop :=
  (∀ x, x ∈ l → comp x x = false)
  ∧ (∀ x y z, x ∈ l → y ∈ l → z ∈ l →
       comp x y = true → comp y z = true → comp x z = true)
  ∧ (∀ x y z, x ∈ l → y ∈ l → z ∈ l →
       comp x y = false → comp y x = false →
       comp y z = false → comp z y = false →
       comp x z = false ∧ comp z x = false).

(** No element of [l] should come before an element that precedes it. *)
Definition ordered_by (comp : Document → Document → bool) (l : list Document) : Prop :=
  StronglySorted (λ x y, comp y x = false) l.

(** What is known of [std::sort]: it only moves the elements of the range,
    so the result is a rearrangement of it, and the C++ standard promises
    the order of the result when the comparator is a strict weak ordering.
    With any other comparator the standard promises nothing; the model
    still takes the result to be a rearrangement. *)
Record sort_contract
    (sort : (Document → Document → bool) → list Document → list Document) : Prop := {
  sort_permutation : ∀ comp l, sort comp l ≡ₚ l;
  sort_ordered : ∀ comp l, strict_weak_order_on comp l → ordered_by comp (sort comp l);
}.

(** [abs(lhs.relevance - rhs.relevance) < DELTA] *)
Definition tied (lhs rhs : Document) : bool :=
  (PrimFloat.abs (doc_relevance lhs - doc_relevance rhs) <? DELTA)%float.

(** The relevance of every document of the list is a number: neither an
    infinity nor NaN. *)
Definition finite_scores (l : list Document) : Prop :=
  ∀ x, x ∈ l → PrimFloat.is_finite (doc_relevance x) = true.

(** "Less than [DELTA] apart" is transitive among the documents of the
    list. *)
Definition ties_transitive (l : list Document) : Prop :=
  ∀ x y z, x ∈ l → y ∈ l → z ∈ l →
    tied x y = true → tied y z = true → tied x z = true.

(** [lhs] may stand before [rhs] in a result: with relevances less than
    [DELTA] apart its rating is not smaller, otherwise its relevance is
    greater. *)
Definition descending (lhs rhs : Document) : Prop :=
  if tied lhs rhs then doc_rating rhs ≤ doc_rating lhs
  else (doc_relevance rhs <? doc_relevance lhs)%float = true.

(** [word] has a posting in every stored document. *)
Definition in_every_document (s : SearchServer) (word : string) : Prop :=
  ∀ d, is_Some (documents_ s !! d) → has_posting s word d = true.

(** The value found for [document_id] is absent or is [+0.0]. *)
Definition zero_or_absent (m : gmap Z float) (document_id : Z) : Prop :=
  m !! document_id = None ∨ m !! document_id = Some 0%float.

(** ** Real values of binary64 numbers *)

(** The real number that a binary64 value denotes (0 for the infinities
    and NaN). *)
Definition SF2R (x : spec_float) : R :=
  match x with
  | S754_finite s m e => (IZR (cond_Zopp s (Z.pos m)) * powerRZ 2 e)%R
  | _ => 0%R
  end.

Definition real_of (x : float) : R := SF2R (Prim2SF x).

Definition positive_finite (x : float) : Prop :=
  ∃ m e, Prim2SF x = S754_finite false m e.

(** [2 ^ -53], the unit roundoff of binary64. *)
Definition roundoff : R := powerRZ 2 (-53).

(** The location of [R / D], for [0 ≤ R < D], within the unit interval. *)
Definition loc_of (R D : Z) : location :=
  if R =? 0 then loc_Exact else loc_Inexact (2 * R ?= D).

(** The value of a finite binary64 number in units of [2 ^ -1074], the
    smallest positive number of the format: an integer. *)
Definition scaled (x : spec_float) : Z :=
  match x with
  | S754_finite s m e => cond_Zopp s (Z.pos m) * 2 ^ (e + 1074)
  | _ => 0
  end.

(** The mantissa of [DELTA], which is [DELTA_mantissa * 2 ^ -72]. *)
Definition DELTA_mantissa : positive := 4722366482869645.

(** The midpoint, in units of [2 ^ -1074], between [DELTA] and the double
    just below it: a difference rounds to less than [DELTA] exactly when
    it does not exceed this bound. *)
Definition tie_bound : Z := (2 * Z.pos DELTA_mantissa - 1) * 2 ^ 1001.

(** The relevance of a document in units of [2 ^ -1074]. *)
Definition score (x : Document) : Z := scaled (Prim2SF (doc_relevance x)).

(** ** The sum of the term frequencies of a document *)

Definition sum_R (l : list R) : R := foldr Rplus 0%R l.

(** The term frequency that an entry of the index records for a document,
    with 0 when it records none. *)
Definition posting_freq (document_id : Z) (entry : string * gmap Z float) : float :=
  default 0%float (entry.2 !! document_id).

(** The sum, over the terms of the index, of the real numbers denoted by
    the term frequencies recorded for a document. *)
Definition freq_total (index : gmap string (gmap Z float)) (document_id : Z) : R :=
  sum_R ((λ entry, real_of (posting_freq document_id entry)) <$> map_to_list index).

Definition term_freq_sum (s : SearchServer) (document_id : Z) : R :=
  freq_total (word_to_document_freqs_ s) document_id.

(** The term frequency recorded for a document under a word, if any. *)
Definition lookup_freq (index : gmap string (gmap Z float)) (word : string)
    (document_id : Z) : option float :=
  index !! word ≫= (λ postings, postings !! document_id).

(** The document has at least one token in the index. *)
Definition indexed (s : SearchServer) (document_id : Z) : Prop :=
  ∃ w, has_posting s w document_id = true.

(** A bound on the number of tokens of a document: [2 ^ 32] tokens take
    at least 8 GiB of text. *)
Definition token_bound : Z := 2 ^ 32.

(** The states built from documents of at most [token_bound] tokens. *)
Inductive reachable_bounded : SearchServer → Prop :=
| bounded_default : reachable_bounded SearchServer_default
| bounded_of_collection stop_words :
    reachable_bounded (SearchServer_of_collection stop_words)
| bounded_of_text stop_words_text :
    reachable_bounded (SearchServer_of_text stop_words_text)
| bounded_SetStopWords s text :
    reachable_bounded s → reachable_bounded (SetStopWords s text)
| bounded_AddDocument s document_id document st ratings :
    reachable_bounded s →
    Z.of_nat (length (SplitIntoWordsNoStop s document)) ≤ token_bound →
    reachable_bounded (AddDocument s document_id document st ratings).2.

(** The invariant of the index behind the sum of the term frequencies. *)
Definition normalized (s : SearchServer) : Prop :=
  consistent s
  ∧ (∀ w d tf, lookup_freq (word_to_document_freqs_ s) w d = Some tf →
               positive_finite tf)
  ∧ (∀ d, indexed s d → (Rabs (term_freq_sum s d - 1) <= 1 / 1000000)%R).

(** [inv_word_count] for a document of [n] tokens. *)
Definition inv_word_count_of (n : Z) : float := (1 / of_uint63 (of_Z n))%float.

(** The index after [j] tokens of a new document [d] were counted, each
    with the increment [q]: the postings of [d] are positive numbers, and
    their total is [j * q] up to [roundoff * j * j * q]. *)
Definition after_tokens (d : Z) (q : float) (j : Z)
    (index : gmap string (gmap Z float)) : Prop :=
  (∀ w p tf, index !! w = Some p → p !! d = Some tf → positive_finite tf)
  ∧ (Rabs (freq_total index d - IZR j * real_of q)
     <= roundoff * (IZR j * IZR j) * real_of q)%R.

(** ** Tokens, occurrences and scores *)

(** [c == ' '] *)
Definition is_space (c : ascii) : bool := bool_decide (c = " "%char).

(** The words separated by single spaces. *)
Fixpoint join_words (words : list string) : string :=
  match words with
  | [] => EmptyString
  | [w] => w
  | w :: rest => w +:+ String " " (join_words rest)
  end.

(** The text with its spaces deleted. *)
Fixpoint without_spaces (text : string) : string :=
  match text with
  | EmptyString => EmptyString
  | String c rest =>
      if is_space c then without_spaces rest else String c (without_spaces rest)
  end.

(** The number of times [w] occurs among [words]. *)
Definition occurrences (w : string) (words : list string) : nat :=
  length (filter (λ x, x = w) words).

(** [freq += inv_word_count], [n] times from a value-initialised [freq]. *)
Definition counted (inv_word_count : float) (n : nat) : float :=
  Nat.iter n (λ freq, (freq + inv_word_count)%float) 0%float.

(** The inverse document frequency of a word of the index. *)
Definition inverse_document_freq (log : float → float) (s : SearchServer)
    (word : string) : float :=
  log (double_of_int (GetDocumentCount s) * 1
       / double_of_size (size (default ∅ (word_to_document_freqs_ s !! word))))%float.

(** [relevance += term_freq * inverse_document_freq], for a word under
    which the document has a posting. *)
Definition add_term (log : float → float) (s : SearchServer) (document_id : Z)
    (relevance : float) (word : string) : float :=
  match lookup_freq (word_to_document_freqs_ s) word document_id with
  | Some term_freq =>
      (relevance + term_freq * inverse_document_freq log s word)%float
  | None => relevance
  end.

(** The TF-IDF score of a document: the terms of the plus words of the
    query, added to [0.0] in ascending order of the words. *)
Definition tf_idf (log : float → float) (s : SearchServer) (q : Query)
    (document_id : Z) : float :=
  foldl (add_term log s document_id) 0%float (set_items (plus_words q)).

(** ** Decision procedures *)

(** Boolean tests for [strict_weak_order_on], [ordered_by], [no_overflow],
    [in_every_document], [finite_scores] and [ties_transitive], to settle
    them on concrete inputs. *)

Definition strict_weak_order_check (comp : Document → Document → bool)
    (l : list Document) : bool :=
  forallb (λ x, negb (comp x x)) l
  && forallb (λ x, forallb (λ y, forallb (λ z,
       implb (comp x y && comp y z) (comp x z)) l) l) l
  && forallb (λ x, forallb (λ y, forallb (λ z,
       implb (negb (comp x y) && negb (comp y x)
              && negb (comp y z) && negb (comp z y))
             (negb (comp x z) && negb (comp z x))) l) l) l.

Fixpoint ordered_check (comp : Document → Document → bool) (l : list Document) : bool :=
  match l with
  | [] => true
  | x :: l' => forallb (λ y, negb (comp y x)) l' && ordered_check comp l'
  end.

Definition no_overflow_check (ratings : list Z) : bool :=
  forallb (λ k, let t := rating_total (take k ratings) in
                (INT_MIN <=? t) && (t <=? INT_MAX))
          (seq 0 (S (length ratings))).

Definition in_every_document_check (s : SearchServer) (word : string) : bool :=
  forallb (has_posting s word) (map_items (documents_ s)).*1.

Definition finite_scores_check (l : list Document) : bool :=
  forallb (λ x, PrimFloat.is_finite (doc_relevance x)) l.

Definition ties_transitive_check (l : list Document) : bool :=
  forallb (λ x, forallb (λ y, forallb (λ z,
    implb (tied x y && tied y z) (tied x z)) l) l) l.

(** ** Concrete inputs *)

(** Insertion sort, one of the algorithms that meet the contract of
    [std::sort]; it serves to run the model on concrete inputs. *)
Fixpoint insert_sorted (comp : Document → Document → bool) (x : Document)
    (l : list Document) : list Document :=
  match l with
  | [] => [x]
  | y :: l' => if comp y x then y :: insert_sorted comp x l' else x :: l
  end.

Definition insertion_sort (comp : Document → Document → bool)
    (l : list Document) : list Document :=
  foldr (insert_sorted comp) [] l.

(** The values of [std::log] at 1 and at 2: the binary64 numbers nearest
    to ln 1 and ln 2.  The examples below call [log] at no other
    argument; everywhere else the table answers NaN. *)
Definition log_table (x : float) : float :=
  if (x =? 1)%float then 0%float
  else if (x =? 2)%float then 0x1.62e42fefa39efp-1%float
  else nan.

Definition main_server_0 : SearchServer := SearchServer_of_text "и в на".

Definition main_server_1 : SearchServer :=
  (AddDocument main_server_0 1 "пушистый кот пушистый хвост" ACTUAL [7; 2; 7]).2.

Definition main_server_2 : SearchServer :=
  (AddDocument main_server_1 3 "пушистый пёс и модный ошейник" ACTUAL [1; 2]).2.

Fixpoint add_documents (s : SearchServer)
    (docs : list (Z * string * list Z)) : SearchServer :=
  match docs with
  | [] => s
  | (document_id, document, ratings) :: rest =>
      add_documents (AddDocument s document_id document ACTUAL ratings).2 rest
  end.

(** Six documents that all consist of the word ["cat"]. *)
Definition six_cats : SearchServer :=
  add_documents SearchServer_default
    [(1, "cat", [6]); (2, "cat", [5]); (3, "cat", [4]);
     (4, "cat", [3]); (5, "cat", [2]); (6, "cat", [1])]%string.

(** ["cat"] followed by [n] times the word ["x"]. *)
Definition cat_and_filler (n : nat) : string :=
  foldr (λ w text, text +:+ w) "cat"%string (replicate n " x"%string).

(** Three documents of 1100, 1101 and 1102 words with one ["cat"] each,
    and three documents without it. *)
Definition long_cats : SearchServer :=
  add_documents SearchServer_default
    [(1, cat_and_filler 1099, [1]); (2, cat_and_filler 1100, [2]);
     (3, cat_and_filler 1101, [3]);
     (4, "dog"%string, [0]); (5, "dog"%string, [0]); (6, "dog"%string, [0])].

(** Two documents with ["cat"] as one word of two, one that is ["cat"]
    alone, and three documents without it. *)
Definition tied_cats : SearchServer :=
  add_documents SearchServer_default
    [(1, "cat x", [1]); (2, "cat y", [5]); (3, "cat", [2]);
     (4, "dog", [0]); (5, "dog", [0]); (6, "dog", [0])]%string.

(** * Properties *)

(** ** Machine integers *)

Lemma wrap_int_id (z : Z) : is_int z → wrap_int z = z.
Proof.
  unfold is_int, INT_MIN, INT_MAX, wrap_int. intros Hz.
  rewrite Z.mod_small; lia.
Qed.

Lemma rating_total_snoc (l : list Z) (x : Z) :
  rating_total (l ++ [x]) = rating_total l + x.
Proof.
  unfold rating_total. induction l as [|y l IH]; simpl; [lia|].
  rewrite IH. lia.
Qed.

Lemma rating_sum_exact (ratings : list Z) :
  no_overflow ratings →
  foldl (λ acc r, wrap_int (acc + r)) 0 ratings = rating_total ratings.
Proof.
  induction ratings as [|x l IH] using rev_ind; intros Hno; [done|].
  rewrite foldl_app. simpl. rewrite IH.
  - rewrite rating_total_snoc. apply wrap_int_id.
    specialize (Hno (length (l ++ [x]))). rewrite firstn_all in Hno.
    by rewrite rating_total_snoc in Hno.
  - intros k. destruct (decide (k ≤ length l)%nat) as [Hk|Hk].
    + specialize (Hno k). by rewrite take_app_le in Hno.
    + specialize (Hno (length l)). rewrite take_app_le in Hno by lia.
      rewrite take_ge by lia. by rewrite firstn_all in Hno.
Qed.

Lemma quot_is_int (a n : Z) : is_int a → 0 < n → is_int (a ÷ n).
Proof.
  unfold is_int, INT_MIN, INT_MAX. intros Ha Hn.
  destruct (Z.le_gt_cases 0 a) as [H0|H0].
  - pose proof (Z.quot_pos a n H0 Hn).
    assert (a ÷ n ≤ a); [|lia].
    apply Z.quot_le_upper_bound; [lia|]. nia.
  - assert (a ≤ a ÷ n ≤ 0); [|lia].
    rewrite <- (Z.opp_involutive a) at 2 3.
    rewrite Z.quot_opp_l by lia.
    pose proof (Z.quot_pos (- a) n ltac:(lia) Hn).
    assert (- a ÷ n ≤ - a); [|lia].
    apply Z.quot_le_upper_bound; [lia|]. nia.
Qed.

Lemma ComputeAverageRating_exact (ratings : list Z) :
  ratings ≠ [] →
  no_overflow ratings →
  Z.of_nat (length ratings) ≤ INT_MAX →
  ComputeAverageRating ratings = rating_total ratings ÷ Z.of_nat (length ratings).
Proof.
  intros Hne Hno Hlen. unfold ComputeAverageRating.
  destruct ratings as [|r l]; [done|].
  rewrite rating_sum_exact by done.
  assert (0 < Z.of_nat (length (r :: l))) as Hpos by (simpl; lia).
  rewrite (wrap_int_id (Z.of_nat _)).
  - apply wrap_int_id, quot_is_int; [|done].
    specialize (Hno (length (r :: l))). by rewrite firstn_all in Hno.
  - unfold is_int, INT_MIN, INT_MAX in *. lia.
Qed.

(** ** Ingestion: the document store *)

Lemma AddDocument_rejects (s : SearchServer) (document_id : Z) (document : string)
    (st : DocumentStatus) (ratings : list Z) :
  (document_id <? 0)
  || bool_decide (is_Some (documents_ s !! document_id))
  || negb (IsValidWord document) = true →
  AddDocument s document_id document st ratings = (false, s).
Proof. intros H. unfold AddDocument. by rewrite H. Qed.

Lemma AddDocument_accepts (s : SearchServer) (document_id : Z) (document : string)
    (st : DocumentStatus) (ratings : list Z) (s' : SearchServer) :
  AddDocument s document_id document st ratings = (true, s') →
  0 ≤ document_id ∧ documents_ s !! document_id = None
  ∧ IsValidWord document = true
  ∧ stop_words_ s' = stop_words_ s
  ∧ documents_ s' =
      <[document_id := mkDocumentData (ComputeAverageRating ratings) st]> (documents_ s).
Proof.
  unfold AddDocument. intros H.
  destruct (document_id <? 0) eqn:Hneg; [done|].
  destruct (bool_decide _) eqn:Hdup; [done|].
  destruct (IsValidWord document) eqn:Hvalid; [|done]. simpl in H.
  apply Z.ltb_ge in Hneg. apply bool_decide_eq_false in Hdup.
  assert (documents_ s !! document_id = None) as Hnone.
  { destruct (documents_ s !! document_id) eqn:E; [|done]. destruct Hdup; eauto. }
  split_and!; try done;
    destruct (SplitIntoWordsNoStop s document); injection H as <-; simpl;
    try done; unfold emplace; by rewrite Hnone.
Qed.

Lemma any_of_control_invalid (text : string) :
  any_of is_control text = true → IsValidWord text = false.
Proof. intros H. unfold IsValidWord. case_decide; [done|]. by rewrite H. Qed.

(** C6: a negative id, an id already in the store, or a text with a
    control character makes [AddDocument] return [false] and hand back the
    very state it was given, so that neither the document store nor the
    inverted index nor the document count changes. *)
Theorem AddDocument_failure_leaves_state (s : SearchServer) (document_id : Z)
    (document : string) (st : DocumentStatus) (ratings : list Z) :
  document_id < 0
  ∨ is_Some (documents_ s !! document_id)
  ∨ any_of is_control document = true →
  AddDocument s document_id document st ratings = (false, s)
  ∧ documents_ (AddDocument s document_id document st ratings).2 = documents_ s
  ∧ word_to_document_freqs_ (AddDocument s document_id document st ratings).2
    = word_to_document_freqs_ s
  ∧ GetDocumentCount (AddDocument s document_id document st ratings).2
    = GetDocumentCount s.
Proof.
  intros H.
  assert (AddDocument s document_id document st ratings = (false, s)) as ->; [|done].
  apply AddDocument_rejects.
  destruct H as [H | [H | H]].
  - apply Z.ltb_lt in H. by rewrite H.
  - rewrite (bool_decide_eq_true_2 _ H). by rewrite orb_true_r.
  - rewrite (any_of_control_invalid _ H). by rewrite orb_true_r.
Qed.

(** C4, as the code has it: the validity check is made on the raw text as
    a whole, so it is the text equal to ["-"] that is refused, for every
    id, status and ratings, with the state and the count unchanged. *)
Theorem AddDocument_bare_minus_text (s : SearchServer) (document_id : Z)
    (st : DocumentStatus) (ratings : list Z) :
  AddDocument s document_id "-" st ratings = (false, s)
  ∧ GetDocumentCount (AddDocument s document_id "-" st ratings).2
    = GetDocumentCount s.
Proof.
  assert (AddDocument s document_id "-" st ratings = (false, s)) as ->; [|done].
  apply AddDocument_rejects. by rewrite orb_true_r.
Qed.

(** C4 as stated fails: a text with a token ["-"] between other tokens is
    accepted and the count grows from 0 to 1. *)
Lemma AddDocument_minus_token_accepted :
  "-"%string ∈ SplitIntoWords "cat - dog"
  ∧ (AddDocument SearchServer_default 1 "cat - dog" ACTUAL [1]).1 = true
  ∧ GetDocumentCount SearchServer_default = 0
  ∧ GetDocumentCount (AddDocument SearchServer_default 1 "cat - dog" ACTUAL [1]).2 = 1.
Proof. split; [|by vm_compute]. vm_compute. set_solver. Qed.

(** C8, as the code has it: when no partial sum of the ratings overflows
    [int], the rating stored by a successful [AddDocument] is the sum of
    the ratings divided by their number, truncated toward zero; it is 0
    for the empty list. *)
Theorem AddDocument_stores_average (s s' : SearchServer) (document_id : Z)
    (document : string) (st : DocumentStatus) (ratings : list Z) :
  AddDocument s document_id document st ratings = (true, s') →
  no_overflow ratings →
  Z.of_nat (length ratings) ≤ INT_MAX →
  ∃ d, documents_ s' !! document_id = Some d
       ∧ status d = st
       ∧ rating d =
           match ratings with
           | [] => 0
           | _ => rating_total ratings ÷ Z.of_nat (length ratings)
           end.
Proof.
  intros Hadd Hno Hlen.
  apply AddDocument_accepts in Hadd as (_ & _ & _ & _ & ->).
  eexists. rewrite lookup_insert_eq. split; [done|]. split; [done|]. simpl.
  destruct ratings as [|r l]; [done|].
  by apply ComputeAverageRating_exact.
Qed.

(** C8 as stated fails: the sum of [[2147483647; 1]] does not fit in an
    [int], and the stored rating is not their mean. *)
Lemma AddDocument_average_overflow :
  rating <$> documents_ (AddDocument SearchServer_default 1 "cat" ACTUAL
                           [2147483647; 1]).2 !! 1
  = Some (-1073741824)
  ∧ (2147483647 + 1) ÷ 2 = 1073741824.
Proof. by vm_compute. Qed.

(** ** Query parsing *)

Lemma ParseQueryWord_bare_minus (s : SearchServer) : ParseQueryWord s "-" = None.
Proof. done. Qed.

Lemma ParseQueryWord_double_minus (s : SearchServer) (x : string) :
  ParseQueryWord s (String "-" (String "-" x)) = None.
Proof. unfold ParseQueryWord. simpl. by destruct (negb _). Qed.

Lemma ParseQueryWord_Some (s : SearchServer) (text : string) (qw : QueryWord) :
  ParseQueryWord s text = Some qw →
  is_stop qw = IsStopWord s (data qw)
  ∧ ((is_minus qw = true ∧ text = String "-" (data qw))
     ∨ (is_minus qw = false ∧ text = data qw ∧ ∀ r, text ≠ String "-" r)).
Proof.
  unfold ParseQueryWord. destruct (negb (IsValidWord text)); [done|].
  destruct text as [|c rest].
  { intros [= <-]. simpl. split; [done|]. right. by split_and!. }
  destruct (decide (c = "-"%char)) as [->|Hc].
  - destruct rest as [|c' rest'].
    { intros [= <-]. simpl. split; [done|]. by left. }
    destruct (decide (c' = "-"%char)) as [->|Hc']; [done|].
    assert (∀ X (a b : X), (match c' with
              | "-"%char => a | _ => b end) = b) as Hm.
    { intros X a b.
      destruct c' as [[] [] [] [] [] [] [] []]; try done. }
    rewrite Hm. intros [= <-]. simpl. split; [done|]. by left.
  - assert (∀ X (a b : X), (match c with
              | "-"%char => a | _ => b end) = b) as Hm.
    { intros X a b.
      destruct c as [[] [] [] [] [] [] [] []]; try done. }
    rewrite Hm. intros [= <-]. simpl. split; [done|]. right.
    split_and!; [done..|]. intros r [= ? ?]. done.
Qed.

Lemma ParseQuery_loop_words (s : SearchServer) (words : list string) (q q' : Query) :
  ParseQuery_loop s words q = Some q' →
  ∀ w, w ∈ words → is_Some (ParseQueryWord s w).
Proof.
  revert q. induction words as [|w ws IH]; intros q Hloop w' Hin.
  { by apply elem_of_nil in Hin. }
  simpl in Hloop. destruct (ParseQueryWord s w) as [qw|] eqn:Hqw; [|done].
  apply elem_of_cons in Hin as [->|Hin]; [by rewrite Hqw|].
  destruct (is_stop qw); [by eapply IH|].
  destruct (is_minus qw); by eapply IH.
Qed.

Lemma ParseQuery_loop_sets (s : SearchServer) (words : list string) (q q' : Query) :
  ParseQuery_loop s words q = Some q' →
  (∀ t, t ∈ plus_words q' ↔
        t ∈ plus_words q
        ∨ (t ∈ words ∧ (∀ r, t ≠ String "-" r) ∧ IsStopWord s t = false))
  ∧ (∀ t, t ∈ minus_words q' ↔
          t ∈ minus_words q
          ∨ (String "-" t ∈ words ∧ IsStopWord s t = false)).
Proof.
  revert q. induction words as [|w ws IH]; intros q Hloop.
  { injection Hloop as <-. split; intros t; rewrite elem_of_nil; tauto. }
  simpl in Hloop. destruct (ParseQueryWord s w) as [qw|] eqn:Hqw; [|done].
  apply ParseQueryWord_Some in Hqw as [Hstop Hshape].
  destruct (is_stop qw) eqn:Hs.
  - apply IH in Hloop as [Hp Hm].
    split; intros t; [rewrite Hp|rewrite Hm]; rewrite elem_of_cons;
      destruct Hshape as [[_ ->]|(_ & -> & Hnm)]; split;
      naive_solver congruence.
  - destruct Hshape as [[Hmin ->]|(Hmin & -> & Hnm)]; rewrite Hmin in Hloop;
      apply IH in Hloop as [Hp Hm]; simpl in *;
      symmetry in Hstop;
      split; intros t; [rewrite Hp|rewrite Hm|rewrite Hp|rewrite Hm];
      rewrite ?elem_of_union, ?elem_of_singleton, elem_of_cons.
    + split; [naive_solver|]. intros [?|[[->|?] [Hr ?]]]; [tauto| |tauto].
      exfalso. by eapply Hr.
    + split; [naive_solver congruence|].
      intros [?|[[[= ->]|?] ?]]; tauto.
    + split; [naive_solver congruence|].
      intros [?|[[->|?] ?]]; tauto.
    + split; [naive_solver|].
      intros [?|[[?|?] ?]]; [tauto| |tauto].
      exfalso. by eapply Hnm.
Qed.

(** C7, as the code has it: a term belongs to both sets of an accepted
    query exactly when the raw query has it as a token of its own and as a
    token with a leading ["-"], and it is not a stop word; hence the sets
    are disjoint as soon as no term is written both ways. *)
Theorem ParseQuery_sets_overlap (s : SearchServer) (raw_query : string) (q : Query) :
  ParseQuery s raw_query = Some q →
  (∀ t, t ∈ plus_words q ∧ t ∈ minus_words q ↔
        t ∈ SplitIntoWords raw_query
        ∧ String "-" t ∈ SplitIntoWords raw_query
        ∧ IsStopWord s t = false)
  ∧ ((∀ t, t ∈ SplitIntoWords raw_query →
           String "-" t ∉ SplitIntoWords raw_query) →
     plus_words q ## minus_words q).
Proof.
  intros Hparse. unfold ParseQuery in Hparse.
  pose proof (ParseQuery_loop_words _ _ _ _ Hparse) as Hwords.
  apply ParseQuery_loop_sets in Hparse as [Hp Hm]. simpl in *.
  assert (∀ t, t ∈ plus_words q ∧ t ∈ minus_words q ↔
               t ∈ SplitIntoWords raw_query
               ∧ String "-" t ∈ SplitIntoWords raw_query
               ∧ IsStopWord s t = false) as Hboth.
  { intros t. rewrite Hp, Hm. split.
    - intros [[?|(? & ? & ?)] [?|[? ?]]]; set_solver.
    - intros (Ht & Hmt & Hstop). split; right; [|done].
      split_and!; [done| |done]. intros r ->.
      destruct (Hwords _ Hmt) as [qw Hqw].
      by rewrite (ParseQueryWord_double_minus s r) in Hqw. }
  split; [done|]. intros Hdisj. apply elem_of_disjoint. intros t Htp Htm.
  destruct (proj1 (Hboth t)) as (Ht & Hmt & _); [done|]. exact (Hdisj t Ht Hmt).
Qed.

(** C7 as stated fails: the query ["cat -cat"] is accepted and puts
    ["cat"] in both sets. *)
Lemma ParseQuery_sets_not_disjoint :
  ∃ q, ParseQuery SearchServer_default "cat -cat" = Some q
       ∧ "cat"%string ∈ plus_words q ∧ "cat"%string ∈ minus_words q.
Proof. eexists. split; [by vm_compute|]. split; by vm_compute. Qed.

(** ** Iteration order *)

#[local] Instance key_le_trans {V} : Transitive (@key_le V).
Proof. intros a b c. unfold key_le. lia. Qed.

#[local] Instance key_le_total {V} : Total (@key_le V).
Proof. intros a b. unfold key_le. lia. Qed.

Lemma elem_of_map_items {V} (m : gmap Z V) (k : Z) (v : V) :
  (k, v) ∈ map_items m ↔ m !! k = Some v.
Proof.
  unfold map_items. rewrite merge_sort_Permutation. apply elem_of_map_to_list.
Qed.

Lemma elem_of_map_items_1 {V} (m : gmap Z V) (x : Z * V) :
  x ∈ map_items m → m !! x.1 = Some x.2.
Proof. destruct x. apply elem_of_map_items. Qed.

Lemma length_map_items {V} (m : gmap Z V) : length (map_items m) = size m.
Proof.
  unfold map_items. rewrite merge_sort_Permutation. apply length_map_to_list.
Qed.

Lemma NoDup_map_items {V} (m : gmap Z V) : NoDup (map_items m).*1.
Proof.
  unfold map_items. rewrite merge_sort_Permutation. apply NoDup_fst_map_to_list.
Qed.

Lemma sorted_keys_strict {V} (l : list (Z * V)) :
  StronglySorted key_le l → NoDup l.*1 → StronglySorted Z.lt l.*1.
Proof.
  induction 1 as [|x l Hl IH Hx]; intros Hnd; simpl; [constructor|].
  apply NoDup_cons in Hnd as [Hnotin Hnd].
  constructor; [by apply IH|].
  apply Forall_forall. intros k Hk.
  apply list_elem_of_fmap in Hk as (y & -> & Hy).
  rewrite Forall_forall in Hx. specialize (Hx y Hy). unfold key_le in Hx.
  assert (x.1 ≠ y.1); [|lia].
  intros Heq. apply Hnotin. rewrite Heq. apply list_elem_of_fmap. eauto.
Qed.

Lemma map_items_ascending {V} (m : gmap Z V) : StronglySorted Z.lt (map_items m).*1.
Proof.
  apply sorted_keys_strict; [|apply NoDup_map_items].
  unfold map_items. apply StronglySorted_merge_sort; apply _.
Qed.

Lemma elem_of_map_items_keys {V} (m : gmap Z V) (k : Z) :
  k ∈ (map_items m).*1 ↔ is_Some (m !! k).
Proof.
  rewrite list_elem_of_fmap. split.
  - intros ([k' v] & -> & Hin). apply elem_of_map_items in Hin. eauto.
  - intros [v Hv]. exists (k, v). split; [done|]. by apply elem_of_map_items.
Qed.

Lemma elem_of_set_items (X : gset string) (w : string) : w ∈ set_items X ↔ w ∈ X.
Proof.
  unfold set_items. rewrite merge_sort_Permutation. apply elem_of_elements.
Qed.

(** ** Enumeration of the document ids *)

Lemma GetDocumentId_loop_lookup {V} (docs : list (Z * V)) (doc_index index : Z) :
  doc_index ≤ index →
  GetDocumentId_loop docs doc_index index
  = default INVALID_DOCUMENT_ID (docs.*1 !! Z.to_nat (index - doc_index)).
Proof.
  revert doc_index. induction docs as [|doc rest IH]; intros i Hle; [done|].
  simpl. destruct (i =? index) eqn:E.
  - apply Z.eqb_eq in E as ->. by rewrite Z.sub_diag.
  - apply Z.eqb_neq in E. rewrite IH by lia.
    replace (Z.to_nat (index - i)) with (S (Z.to_nat (index - (i + 1)))) by lia.
    done.
Qed.

(** C9: the ids of the stored documents, listed in ascending order, are
    what [GetDocumentId] indexes from zero; outside that list, for a
    negative index or one not below the number of documents, it returns
    the sentinel -1. *)
Theorem GetDocumentId_ascending (s : SearchServer) (index : Z) :
  ∃ ids : list Z,
    StronglySorted Z.lt ids
    ∧ (∀ d, d ∈ ids ↔ is_Some (documents_ s !! d))
    ∧ length ids = size (documents_ s)
    ∧ (0 ≤ index < Z.of_nat (length ids) →
       ids !! Z.to_nat index = Some (GetDocumentId s index))
    ∧ (index < 0 ∨ Z.of_nat (length ids) ≤ index →
       GetDocumentId s index = -1).
Proof.
  exists (map_items (documents_ s)).*1.
  split; [apply map_items_ascending|].
  split; [apply elem_of_map_items_keys|].
  rewrite length_fmap, length_map_items.
  split; [done|]. unfold GetDocumentId. split.
  - intros [H0 Hlt].
    assert ((index <? 0) = false) as -> by (apply Z.ltb_ge; lia).
    assert ((Z.of_nat (size (documents_ s)) <=? index) = false) as ->
      by (apply Z.leb_gt; lia).
    cbn [orb].
    rewrite GetDocumentId_loop_lookup by lia. rewrite Z.sub_0_r.
    destruct (lookup_lt_is_Some_2 (map_items (documents_ s)).*1 (Z.to_nat index))
      as [d Hd].
    { rewrite length_fmap, length_map_items. lia. }
    by rewrite Hd.
  - intros [Hneg|Hge].
    + apply Z.ltb_lt in Hneg. by rewrite Hneg.
    + apply Z.leb_le in Hge. rewrite Hge. by rewrite orb_true_r.
Qed.

(** ** Loops *)

(** An invariant [I] that holds of the elements visited so far and of the
    state is kept by a range-[for] whose body keeps it and does not
    throw. *)
Lemma for_each_invariant {A S} (I : list A → S → Prop)
    (body : S → A → result S) (l : list A) (s : S) :
  I [] s →
  (∀ pre x s, x ∈ l → I pre s → ∃ s', body s x = Ok s' ∧ I (pre ++ [x]) s') →
  ∃ s', for_each body l s = Ok s' ∧ I l s'.
Proof.
  intros Hinit Hstep.
  cut (∀ todo visited s, (∀ x, x ∈ todo → x ∈ l) → I visited s →
         ∃ s', for_each body todo s = Ok s' ∧ I (visited ++ todo) s').
  { intros Hcut. apply (Hcut l [] s); auto. }
  clear s Hinit. induction todo as [|x todo IH]; intros visited s Hsub HI.
  - exists s. by rewrite app_nil_r.
  - destruct (Hstep visited x s) as (s1 & Hbody & HI1); [apply Hsub; left|done|].
    destruct (IH (visited ++ [x]) s1) as (s' & Hrest & HI'); [|done|].
    { intros y Hy. apply Hsub. by right. }
    exists s'. simpl. rewrite Hbody. simpl. rewrite <- app_assoc in HI'. done.
Qed.

Lemma foldl_invariant {A S} (I : list A → S → Prop)
    (body : S → A → S) (l : list A) (s : S) :
  I [] s →
  (∀ pre x s, x ∈ l → I pre s → I (pre ++ [x]) (body s x)) →
  I l (foldl body s l).
Proof.
  intros Hinit Hstep.
  cut (∀ todo visited s, (∀ x, x ∈ todo → x ∈ l) → I visited s →
         I (visited ++ todo) (foldl body s todo)).
  { intros Hcut. apply (Hcut l [] s); auto. }
  clear s Hinit. induction todo as [|x todo IH]; intros visited s Hsub HI.
  - by rewrite app_nil_r.
  - simpl. rewrite (cons_middle x), app_assoc. apply IH.
    + intros y Hy. apply Hsub. by right.
    + apply Hstep; [apply Hsub; left|done].
Qed.

(** ** Postings *)

Lemma has_posting_true (s : SearchServer) (word : string) (document_id : Z) :
  has_posting s word document_id = true ↔
  ∃ postings, word_to_document_freqs_ s !! word = Some postings
              ∧ is_Some (postings !! document_id).
Proof.
  unfold has_posting. destruct (word_to_document_freqs_ s !! word) as [p|].
  - rewrite bool_decide_eq_true. naive_solver.
  - naive_solver.
Qed.

Lemma has_posting_stored (s : SearchServer) (word : string) (document_id : Z) :
  consistent s → has_posting s word document_id = true →
  is_Some (documents_ s !! document_id).
Proof.
  intros Hc Hp. apply has_posting_true in Hp as (p & Hw & Hd). by eapply Hc.
Qed.

(** ** The three loops of [FindAllDocuments] *)

Section FindAllDocuments_loops.

Variable log : float → float.
Variable s : SearchServer.
Variable key_mapper : Z → DocumentStatus → Z → bool.
Hypothesis Hconsistent : consistent s.

Lemma accumulate_keys (idf : float) (postings : gmap Z float) (m : gmap Z float) :
  (∀ d, is_Some (postings !! d) → is_Some (documents_ s !! d)) →
  ∃ m', for_each (accumulate s key_mapper idf) (map_items postings) m = Ok m'
        ∧ ∀ d, is_Some (m' !! d) ↔
               is_Some (m !! d)
               ∨ (is_Some (postings !! d) ∧ accepts s key_mapper d).
Proof.
  intros Hstored.
  destruct (for_each_invariant
    (λ visited m', ∀ d, is_Some (m' !! d) ↔
       is_Some (m !! d) ∨ (d ∈ visited.*1 ∧ accepts s key_mapper d))
    (accumulate s key_mapper idf) (map_items postings) m) as (m' & Hrun & Hinv).
  - intros d. rewrite fmap_nil, elem_of_nil. tauto.
  - intros visited [d tf] m1 Hin Hinv. apply elem_of_map_items in Hin.
    destruct (Hstored d) as [dd Hdd]; [by eauto|].
    unfold accumulate, map_at. rewrite Hdd. simpl.
    destruct (key_mapper d (status dd) (rating dd)) eqn:Hkey.
    + eexists. split; [done|]. intros d'.
      rewrite fmap_app, elem_of_app. simpl. rewrite list_elem_of_singleton.
      destruct (decide (d' = d)) as [->|Hne].
      * rewrite lookup_insert_eq. split; [|by eauto].
        intros _. right. split; [by right|]. exists dd. done.
      * rewrite lookup_insert_ne by done. rewrite Hinv. naive_solver.
    + eexists. split; [done|]. intros d'.
      rewrite fmap_app, elem_of_app. simpl. rewrite list_elem_of_singleton.
      rewrite Hinv. split; [naive_solver|].
      intros [?|[[?| ->] Hacc]]; [tauto|tauto|].
      destruct Hacc as (dd' & Hdd' & Hk). congruence.
  - exists m'. split; [done|]. intros d. rewrite Hinv.
    by rewrite elem_of_map_items_keys.
Qed.

Lemma add_plus_word_keys (m : gmap Z float) (word : string) :
  ∃ m', add_plus_word log s key_mapper m word = Ok m'
        ∧ ∀ d, is_Some (m' !! d) ↔
               is_Some (m !! d)
               ∨ (has_posting s word d = true ∧ accepts s key_mapper d).
Proof.
  unfold add_plus_word, ComputeWordInverseDocumentFreq, map_at.
  destruct (word_to_document_freqs_ s !! word) as [postings|] eqn:Hw; simpl.
  - destruct (accumulate_keys
      (log (double_of_int (GetDocumentCount s) * 1
            / double_of_size (size postings))%float) postings m)
      as (m' & Hrun & Hkeys).
    { intros d Hd. by eapply Hconsistent. }
    exists m'. split; [done|]. intros d. rewrite Hkeys.
    rewrite has_posting_true, Hw. naive_solver.
  - exists m. split; [done|]. intros d.
    rewrite has_posting_true, Hw. naive_solver.
Qed.

Lemma plus_words_keys (words : gset string) :
  ∃ m, for_each (add_plus_word log s key_mapper) (set_items words) ∅ = Ok m
       ∧ ∀ d, is_Some (m !! d) ↔
              (∃ w, w ∈ words ∧ has_posting s w d = true)
              ∧ accepts s key_mapper d.
Proof.
  destruct (for_each_invariant
    (λ visited m, ∀ d, is_Some (m !! d) ↔
       (∃ w, w ∈ visited ∧ has_posting s w d = true) ∧ accepts s key_mapper d)
    (add_plus_word log s key_mapper) (set_items words) ∅) as (m & Hrun & Hinv).
  - intros d. rewrite lookup_empty. split; [by intros []|].
    intros [(w & Hw & _) _]. by apply elem_of_nil in Hw.
  - intros visited w m1 _ Hinv.
    destruct (add_plus_word_keys m1 w) as (m' & Hrun & Hkeys).
    exists m'. split; [done|]. intros d. rewrite Hkeys, Hinv.
    setoid_rewrite elem_of_app. setoid_rewrite list_elem_of_singleton.
    naive_solver.
  - exists m. split; [done|]. intros d. rewrite Hinv.
    by setoid_rewrite elem_of_set_items.
Qed.

Lemma erase_minus_word_lookup (m : gmap Z float) (word : string) (d : Z) :
  erase_minus_word s m word !! d
  = if has_posting s word d then None else m !! d.
Proof.
  unfold erase_minus_word, has_posting.
  destruct (word_to_document_freqs_ s !! word) as [postings|]; [|done].
  pose proof (foldl_invariant
    (λ visited m', m' !! d = if bool_decide (d ∈ visited.*1) then None else m !! d)
    (λ m' (posting : Z * float), delete posting.1 m') (map_items postings) m)
    as Hinv.
  simpl in Hinv. rewrite Hinv.
  - apply (f_equal (λ b : bool, if b then None else m !! d)).
    apply bool_decide_ext. apply elem_of_map_items_keys.
  - done.
  - intros visited [d' tf] m1 _ Hm1. simpl.
    rewrite fmap_app. simpl.
    destruct (decide (d = d')) as [->|Hne].
    + rewrite lookup_delete_eq. rewrite bool_decide_eq_true_2; [done|].
      apply elem_of_app. right. by left.
    + rewrite lookup_delete_ne by done. rewrite Hm1.
      apply (f_equal (λ b : bool, if b then None else m !! d)).
      apply bool_decide_ext. rewrite elem_of_app, list_elem_of_singleton.
      naive_solver.
Qed.

Lemma minus_words_lookup (m : gmap Z float) (words : gset string) (d : Z) :
  (∀ w, w ∈ words → has_posting s w d = false) →
  foldl (erase_minus_word s) m (set_items words) !! d = m !! d.
Proof.
  intros Hnone.
  apply (foldl_invariant (λ _ m', m' !! d = m !! d)); [done|].
  intros _ w m1 Hw Hm1. rewrite erase_minus_word_lookup.
  rewrite Hnone; [done|]. by apply elem_of_set_items.
Qed.

Lemma minus_words_erased (m : gmap Z float) (words : gset string) (d : Z) (w : string) :
  w ∈ words → has_posting s w d = true →
  foldl (erase_minus_word s) m (set_items words) !! d = None.
Proof.
  intros Hw Hp.
  pose proof (foldl_invariant
    (λ visited m', w ∈ visited → m' !! d = None)
    (erase_minus_word s) (set_items words) m) as Hinv.
  simpl in Hinv. apply Hinv.
  - intros H. by apply elem_of_nil in H.
  - intros visited w' m1 _ Hm1 Hin. rewrite erase_minus_word_lookup.
    destruct (has_posting s w' d) eqn:E; [done|].
    apply Hm1. apply elem_of_app in Hin as [?|Hin]; [done|].
    apply list_elem_of_singleton in Hin as ->. congruence.
  - by apply elem_of_set_items.
Qed.

Lemma materialize_items (m : gmap Z float) :
  (∀ d, is_Some (m !! d) → is_Some (documents_ s !! d)) →
  ∃ l, for_each
         (λ matched_documents (entry : Z * float),
            d ←! map_at (documents_ s) entry.1;
            Ok (matched_documents ++ [mkDocument entry.1 entry.2 (rating d)]))
         (map_items m) [] = Ok l
       ∧ Forall2 (item_of s) (map_items m) l.
Proof.
  intros Hstored.
  apply (for_each_invariant (λ visited l, Forall2 (item_of s) visited l)).
  - constructor.
  - intros visited entry l Hin Hl.
    apply elem_of_map_items_1 in Hin.
    destruct (Hstored entry.1) as [dd Hdd]; [by eauto|].
    eexists. unfold map_at. rewrite Hdd. simpl. split; [done|].
    apply Forall2_app; [done|]. constructor; [|constructor].
    unfold item_of. simpl. by rewrite Hdd.
Qed.

(** [FindAllDocuments] returns, without throwing, one item for each
    document that matches, in ascending order of id. *)
Lemma FindAllDocuments_matches (q : Query) :
  ∃ m1 l,
    for_each (add_plus_word log s key_mapper) (set_items (plus_words q)) ∅ = Ok m1
    ∧ FindAllDocuments log s q key_mapper = Ok l
    ∧ Forall2 (item_of s)
        (map_items (foldl (erase_minus_word s) m1 (set_items (minus_words q)))) l
    ∧ (∀ d, d ∈ doc_id <$> l ↔ matches s q key_mapper d)
    ∧ (∀ d, matches s q key_mapper d →
            foldl (erase_minus_word s) m1 (set_items (minus_words q)) !! d
            = m1 !! d).
Proof.
  destruct (plus_words_keys (plus_words q)) as (m1 & Hrun1 & Hkeys1).
  set (m2 := foldl (erase_minus_word s) m1 (set_items (minus_words q))).
  assert (∀ d, is_Some (m2 !! d) ↔ matches s q key_mapper d) as Hkeys2.
  { intros d. unfold matches. split.
    - intros Hd. assert (∀ w, w ∈ minus_words q → has_posting s w d = false) as Hno.
      { intros w Hw. destruct (has_posting s w d) eqn:E; [|done].
        unfold m2 in Hd. rewrite (minus_words_erased _ _ _ w) in Hd by done.
        by destruct Hd. }
      unfold m2 in Hd. rewrite minus_words_lookup in Hd by done.
      apply Hkeys1 in Hd as [? ?]. done.
    - intros (Hp & Ha & Hno). unfold m2. rewrite minus_words_lookup by done.
      by apply Hkeys1. }
  destruct (materialize_items m2) as (l & Hrun3 & Hitems).
  { intros d Hd. apply Hkeys2 in Hd as (_ & (dd & Hdd & _) & _). eauto. }
  exists m1, l. split; [done|].
  split. { unfold FindAllDocuments. rewrite Hrun1. simpl. exact Hrun3. }
  split; [done|]. split.
  - assert (doc_id <$> l = (map_items m2).*1) as Hids.
    { clear -Hitems. induction Hitems as [|e doc es l [He _] _ IH]; [done|].
      by rewrite !fmap_cons, He, IH. }
    intros d. rewrite Hids, elem_of_map_items_keys. apply Hkeys2.
  - intros d (_ & _ & Hno). by apply minus_words_lookup.
Qed.

End FindAllDocuments_loops.

(** ** The reference sort meets the contract *)

Lemma insert_sorted_permutation (comp : Document → Document → bool) (x : Document)
    (l : list Document) :
  insert_sorted comp x l ≡ₚ x :: l.
Proof.
  induction l as [|y l IH]; simpl; [done|].
  destruct (comp y x); [|done]. rewrite IH. apply Permutation_swap.
Qed.

Lemma insertion_sort_permutation (comp : Document → Document → bool) (l : list Document) :
  insertion_sort comp l ≡ₚ l.
Proof.
  unfold insertion_sort. induction l as [|x l IH]; simpl; [done|].
  by rewrite insert_sorted_permutation, IH.
Qed.

Lemma strict_weak_order_negative (comp : Document → Document → bool)
    (l : list Document) (x y z : Document) :
  strict_weak_order_on comp l → x ∈ l → y ∈ l → z ∈ l →
  comp z y = false → comp y x = false → comp z x = false.
Proof.
  intros (Hirr & Htrans & Hequiv) Hx Hy Hz Hzy Hyx.
  destruct (comp z x) eqn:Hzx; [|done].
  destruct (comp y z) eqn:Hyz.
  { rewrite (Htrans y z x) in Hyx; done. }
  destruct (comp x y) eqn:Hxy.
  { rewrite (Htrans z x y) in Hzy; done. }
  destruct (Hequiv z y x) as [Hzx' _]; try done. congruence.
Qed.

Lemma strict_weak_order_asymmetric (comp : Document → Document → bool)
    (l : list Document) (x y : Document) :
  strict_weak_order_on comp l → x ∈ l → y ∈ l →
  comp x y = true → comp y x = false.
Proof.
  intros (Hirr & Htrans & _) Hx Hy Hxy.
  destruct (comp y x) eqn:Hyx; [|done].
  rewrite <- (Hirr x Hx). symmetry. by apply (Htrans x y x).
Qed.

Lemma insert_sorted_ordered (comp : Document → Document → bool)
    (all : list Document) (x : Document) (l : list Document) :
  strict_weak_order_on comp all → x ∈ all → (∀ y, y ∈ l → y ∈ all) →
  ordered_by comp l → ordered_by comp (insert_sorted comp x l).
Proof.
  intros Hswo Hx Hsub Hl. unfold ordered_by in *.
  induction Hl as [|y l Hl IH Hy]; simpl.
  { repeat constructor. }
  destruct (comp y x) eqn:Hyx.
  - constructor.
    + apply IH. intros z Hz. apply Hsub. by right.
    + rewrite insert_sorted_permutation. constructor; [|done].
      eapply strict_weak_order_asymmetric; eauto. apply Hsub. by left.
  - constructor; [by constructor|].
    constructor; [done|].
    rewrite Forall_forall in Hy |- *. intros z Hz.
    eapply (strict_weak_order_negative comp all x y z); eauto.
    + apply Hsub. by left.
    + apply Hsub. by right.
Qed.

Lemma insertion_sort_contract : sort_contract insertion_sort.
Proof.
  split; [apply insertion_sort_permutation|].
  intros comp l Hswo. unfold insertion_sort.
  cut (∀ l', (∀ y, y ∈ l' → y ∈ l) → ordered_by comp (foldr (insert_sorted comp) [] l')).
  { intros Hcut. by apply Hcut. }
  induction l' as [|x l' IH]; intros Hsub; simpl; [constructor|].
  apply (insert_sorted_ordered comp l); [done|apply Hsub; by left| |].
  - intros y Hy. apply Hsub. right.
    change (y ∈ insertion_sort comp l') in Hy.
    by rewrite insertion_sort_permutation in Hy.
  - apply IH. intros y Hy. apply Hsub. by right.
Qed.

(** ** Truncation *)

Lemma truncate_length (l : list Document) : (length (truncate l) ≤ 5)%nat.
Proof.
  unfold truncate, MAX_RESULT_DOCUMENT_COUNT.
  destruct (5 <? Z.of_nat (length l)) eqn:E.
  - rewrite length_take. lia.
  - apply Z.ltb_ge in E. lia.
Qed.

Lemma truncate_prefix (l : list Document) : truncate l `prefix_of` l.
Proof.
  unfold truncate. destruct (_ <? _); [|done].
  exists (drop (Z.to_nat MAX_RESULT_DOCUMENT_COUNT) l). by rewrite take_drop.
Qed.

Lemma truncate_short (l : list Document) : (length l ≤ 5)%nat → truncate l = l.
Proof.
  intros Hlen. unfold truncate, MAX_RESULT_DOCUMENT_COUNT.
  destruct (5 <? Z.of_nat (length l)) eqn:E; [|done].
  apply Z.ltb_lt in E. lia.
Qed.

Lemma elem_of_truncate (l : list Document) (doc : Document) :
  doc ∈ truncate l → doc ∈ l.
Proof.
  destruct (truncate_prefix l) as [k Hk]. rewrite Hk at 2.
  intros H. apply elem_of_app. by left.
Qed.

(** ** Ranking and matching *)

Lemma malformed_rejected (s : SearchServer) (raw_query : string) :
  malformed raw_query →
  IsValidWord raw_query = false ∨ ParseQuery s raw_query = None.
Proof.
  intros [(w & Hw & Hshape)|Hctl]; [|left; by apply any_of_control_invalid].
  right. destruct (ParseQuery s raw_query) as [q|] eqn:Hq; [|done].
  destruct (ParseQuery_loop_words _ _ _ _ Hq w Hw) as [qw Hqw].
  destruct Hshape as [->|[x ->]].
  - by rewrite ParseQueryWord_bare_minus in Hqw.
  - by rewrite ParseQueryWord_double_minus in Hqw.
Qed.

Lemma clear_on_minus_found (s : SearchServer) (document_id : Z)
    (words matched : list string) (w : string) :
  w ∈ words → has_posting s w document_id = true →
  clear_on_minus s document_id words matched = [].
Proof.
  intros Hw Hp. induction words as [|w' ws IH]; [by apply elem_of_nil in Hw|].
  simpl. destruct (has_posting s w' document_id) eqn:E; [done|].
  apply elem_of_cons in Hw as [->|Hw]; [congruence|by apply IH].
Qed.

Section Ranking.

Variable log : float → float.
Variable sort : (Document → Document → bool) → list Document → list Document.
Hypothesis Hsort : sort_contract sort.

Lemma FindTopDocuments_invalid (s : SearchServer) (raw_query : string)
    (document_predicate : Z → DocumentStatus → Z → bool) (document_id : Z) :
  IsValidWord raw_query = false ∨ ParseQuery s raw_query = None →
  FindTopDocuments log sort s raw_query document_predicate = Ok None
  ∧ MatchDocument s raw_query document_id = Ok None.
Proof.
  unfold FindTopDocuments, MatchDocument.
  intros [->| ->]; [done|]. by destruct (negb _).
Qed.

Lemma FindTopDocuments_valid (s : SearchServer) (raw_query : string) (q : Query)
    (document_predicate : Z → DocumentStatus → Z → bool) :
  consistent s → IsValidWord raw_query = true → ParseQuery s raw_query = Some q →
  ∃ found,
    FindAllDocuments log s q document_predicate = Ok found
    ∧ (∀ d, d ∈ doc_id <$> found ↔ matches s q document_predicate d)
    ∧ FindTopDocuments log sort s raw_query document_predicate
      = Ok (Some (truncate (sort by_relevance found))).
Proof.
  intros Hc Hvalid Hq.
  destruct (FindAllDocuments_matches log s document_predicate Hc q)
    as (m1 & found & _ & Hfound & _ & Hids & _).
  exists found. split; [done|]. split; [done|].
  unfold FindTopDocuments. rewrite Hvalid, Hq. simpl. by rewrite Hfound.
Qed.

(** C3: a document with a posting under a minus word of a valid query is
    in no result of [FindTopDocuments], whatever the predicate, and
    [MatchDocument] reports no matched word for it (with its status),
    whether or not it has plus words. *)
Theorem minus_word_excludes_document (s : SearchServer) (raw_query : string)
    (q : Query) (document_predicate : Z → DocumentStatus → Z → bool)
    (w : string) (document_id : Z) :
  consistent s →
  IsValidWord raw_query = true →
  ParseQuery s raw_query = Some q →
  w ∈ minus_words q →
  has_posting s w document_id = true →
  (∃ l, FindTopDocuments log sort s raw_query document_predicate = Ok (Some l)
        ∧ ∀ doc, doc ∈ l → doc_id doc ≠ document_id)
  ∧ (∃ d, documents_ s !! document_id = Some d
          ∧ MatchDocument s raw_query document_id = Ok (Some ([], status d))).
Proof.
  intros Hc Hvalid Hq Hw Hp. split.
  - destruct (FindTopDocuments_valid s raw_query q document_predicate)
      as (found & _ & Hids & Htop); [done..|].
    eexists. split; [done|]. intros doc Hdoc Hid.
    apply elem_of_truncate in Hdoc.
    rewrite (sort_permutation _ Hsort) in Hdoc.
    assert (matches s q document_predicate document_id) as (_ & _ & Hno).
    { apply Hids. apply list_elem_of_fmap. eauto. }
    rewrite (Hno w Hw) in Hp. done.
  - destruct (has_posting_stored s w document_id Hc Hp) as [d Hd].
    exists d. split; [done|].
    unfold MatchDocument. rewrite Hvalid, Hq. simpl.
    rewrite (clear_on_minus_found s document_id _ _ w); [|by apply elem_of_set_items|done].
    unfold map_at. by rewrite Hd.
Qed.

(** C5: a query with a token ["-"], a token that starts with ["--"] or a
    control character gets the absent result from [FindTopDocuments] and
    from [MatchDocument], in every state; a valid query that no document
    matches gets the present, empty list, which is not the absent
    result. *)
Theorem invalid_query_is_absent (s : SearchServer) (raw_query : string)
    (document_predicate : Z → DocumentStatus → Z → bool) (document_id : Z) :
  (malformed raw_query →
   FindTopDocuments log sort s raw_query document_predicate = Ok None
   ∧ MatchDocument s raw_query document_id = Ok None)
  ∧ (∀ q, consistent s →
          IsValidWord raw_query = true →
          ParseQuery s raw_query = Some q →
          (∀ d, ¬ matches s q document_predicate d) →
          FindTopDocuments log sort s raw_query document_predicate = Ok (Some [])
          ∧ Ok (Some []) ≠ (Ok None : result (option (list Document)))).
Proof.
  split.
  - intros Hbad. apply FindTopDocuments_invalid. by apply malformed_rejected.
  - intros q Hc Hvalid Hq Hnone. split; [|done].
    destruct (FindTopDocuments_valid s raw_query q document_predicate)
      as (found & _ & Hids & ->); [done..|].
    destruct found as [|doc found].
    + pose proof (sort_permutation _ Hsort by_relevance []) as Hperm.
      apply Permutation_nil_r in Hperm. by rewrite Hperm.
    + destruct (Hnone (doc_id doc)). apply Hids. rewrite fmap_cons. by left.
Qed.

End Ranking.

(** ** The states of the interface are consistent *)

Lemma add_freq_postings (index : gmap string (gmap Z float)) (word w : string)
    (document_id d : Z) (inv_word_count : float) (postings : gmap Z float) :
  add_freq index word document_id inv_word_count !! w = Some postings →
  is_Some (postings !! d) →
  d = document_id
  ∨ ∃ postings0, index !! w = Some postings0 ∧ is_Some (postings0 !! d).
Proof.
  unfold add_freq. destruct (decide (w = word)) as [->|Hne].
  - rewrite lookup_insert_eq. intros [= <-].
    destruct (decide (d = document_id)) as [->|Hd]; [by left|].
    rewrite lookup_insert_ne by done. intros Hsome. right.
    destruct (index !! word) as [p0|]; simpl in *; [by eauto|].
    rewrite lookup_empty in Hsome. by destruct Hsome.
  - rewrite lookup_insert_ne by done. eauto.
Qed.

Lemma emplace_is_Some {V} (m : gmap Z V) (k k' : Z) (v : V) :
  is_Some (emplace m k v !! k') ↔ k' = k ∨ is_Some (m !! k').
Proof.
  unfold emplace. destruct (m !! k) eqn:Hk.
  - split; [by right|]. intros [->|?]; [by rewrite Hk|done].
  - rewrite lookup_insert_is_Some. destruct (decide (k = k')); naive_solver.
Qed.

Lemma add_freqs_postings (index : gmap string (gmap Z float)) (words : list string)
    (document_id : Z) (inv_word_count : float) (w : string) (postings : gmap Z float)
    (d : Z) :
  foldl (λ index word, add_freq index word document_id inv_word_count) index words
    !! w = Some postings →
  is_Some (postings !! d) →
  d = document_id
  ∨ ∃ postings0, index !! w = Some postings0 ∧ is_Some (postings0 !! d).
Proof.
  revert postings.
  apply (foldl_invariant (λ _ index', ∀ postings,
    index' !! w = Some postings → is_Some (postings !! d) →
    d = document_id
    ∨ ∃ postings0, index !! w = Some postings0 ∧ is_Some (postings0 !! d))).
  - eauto.
  - intros _ word index' _ IH postings Hw Hd.
    destruct (add_freq_postings _ _ _ _ _ _ _ Hw Hd) as [?|(p0 & Hp0 & Hd0)];
      [by left|by eapply IH].
Qed.

Lemma AddDocument_consistent (s : SearchServer) (document_id : Z) (document : string)
    (st : DocumentStatus) (ratings : list Z) :
  consistent s → consistent (AddDocument s document_id document st ratings).2.
Proof.
  intros Hc. unfold AddDocument.
  destruct (_ || _ || _); [done|].
  destruct (SplitIntoWordsNoStop s document) as [|word words] eqn:Hwords;
    intros w p d Hw Hd; simpl in *; apply emplace_is_Some.
  - right. by eapply Hc.
  - destruct (add_freqs_postings _ (word :: words) _ _ _ _ _ Hw Hd)
      as [?|(p0 & Hp0 & Hd0)]; [by left|right; by eapply Hc].
Qed.

(** Every state of the interface is consistent. *)
Lemma reachable_consistent (s : SearchServer) : reachable s → consistent s.
Proof.
  induction 1 as [| | |s text _ IH|s document_id document st ratings _ IH].
  - intros w p d Hw. simpl in Hw. by rewrite lookup_empty in Hw.
  - intros w p d Hw. simpl in Hw. by rewrite lookup_empty in Hw.
  - intros w p d Hw. simpl in Hw. by rewrite lookup_empty in Hw.
  - exact IH.
  - by apply AddDocument_consistent.
Qed.

Lemma add_documents_reachable (s : SearchServer) (docs : list (Z * string * list Z)) :
  reachable s → reachable (add_documents s docs).
Proof.
  revert s. induction docs as [|[[document_id document] ratings] docs IH];
    intros s Hs; [done|].
  simpl. apply IH. by constructor.
Qed.

(** ** Binary64 arithmetic

    The facts below are derived from the specification of the primitive
    operations ([SpecFloat]). *)

Lemma new_location_loc_of (D R : Z) :
  0 < D → 0 ≤ R < D → new_location D R = loc_of R D.
Proof.
  intros HD HR. unfold new_location, new_location_even, new_location_odd, loc_of.
  change IntDef.Z.even with Z.even.
  destruct (Z.even D) eqn:Hev; [done|].
  destruct (R =? 0); [done|]. f_equal.
  assert (Z.odd D = true) as Hodd by (by rewrite <- Z.negb_even, Hev).
  apply Z.odd_spec in Hodd as [c Hc].
  destruct (2 * R + 1 ?= D) eqn:E1; destruct (2 * R ?= D) eqn:E2; try done;
    rewrite ?Z.compare_eq_iff, ?Z.compare_lt_iff, ?Z.compare_gt_iff in *; lia.
Qed.

Lemma loc_of_shr_record_of_loc (m : Z) (l : location) :
  loc_of_shr_record (shr_record_of_loc m l) = l.
Proof. by destruct l as [|[]]. Qed.

Lemma shr_m_record_of_loc (m : Z) (l : location) :
  shr_m (shr_record_of_loc m l) = m.
Proof. by destruct l as [|[]]. Qed.

Lemma shr_1_loc_of (M R D : Z) :
  0 ≤ M → 0 < D → 0 ≤ R < D →
  shr_1 (shr_record_of_loc M (loc_of R D))
  = shr_record_of_loc (M / 2) (loc_of (M `mod` 2 * D + R) (2 * D)).
Proof.
  intros HM HD HR.
  assert (M = 2 * (M / 2) + M `mod` 2) as HMeq by (apply Z.div_mod; lia).
  pose proof (Z.mod_pos_bound M 2 ltac:(lia)) as Hb.
  unfold loc_of.
  destruct (R =? 0) eqn:ER; [apply Z.eqb_eq in ER|apply Z.eqb_neq in ER].
  - subst R. rewrite Z.add_0_r.
    destruct M as [|[p|p|]|p]; try lia; cbn [shr_1 shr_record_of_loc orb].
    + done.
    + replace (Z.pos p~1 / 2) with (Z.pos p) by lia.
      replace (Z.pos p~1 `mod` 2) with 1 by lia.
      rewrite Z.mul_1_l. assert ((D =? 0) = false) as -> by lia.
      assert ((2 * D ?= 2 * D) = Eq) as -> by (apply Z.compare_eq_iff; lia).
      done.
    + replace (Z.pos p~0 / 2) with (Z.pos p) by lia.
      replace (Z.pos p~0 `mod` 2) with 0 by lia. done.
    + change (1 / 2) with 0. change (1 `mod` 2) with 1.
      rewrite Z.mul_1_l. assert ((D =? 0) = false) as -> by lia.
      assert ((2 * D ?= 2 * D) = Eq) as -> by (apply Z.compare_eq_iff; lia).
      done.
  - assert ((M `mod` 2 * D + R =? 0) = false) as -> by nia.
    assert (∀ r s, orb r s = true →
      shr_1 {| shr_m := M; shr_r := r; shr_s := s |}
      = shr_record_of_loc (M / 2)
          (loc_Inexact (if M `mod` 2 =? 0 then Lt else Gt))) as Hstep.
    { intros r s Hrs.
      destruct M as [|[p|p|]|p]; try lia; cbn [shr_1]; rewrite Hrs.
      - done.
      - replace (Z.pos p~1 / 2) with (Z.pos p) by lia.
        replace (Z.pos p~1 `mod` 2) with 1 by lia. done.
      - replace (Z.pos p~0 / 2) with (Z.pos p) by lia.
        replace (Z.pos p~0 `mod` 2) with 0 by lia. done.
      - done. }
    assert ((2 * (M `mod` 2 * D + R) ?= 2 * D)
            = (if M `mod` 2 =? 0 then Lt else Gt)) as ->.
    { destruct (M `mod` 2 =? 0) eqn:E0.
      - apply Z.eqb_eq in E0. apply Z.compare_lt_iff. nia.
      - apply Z.eqb_neq in E0. apply Z.compare_gt_iff. nia. }
    destruct (2 * R ?= D); cbn [shr_record_of_loc]; by apply Hstep.
Qed.

Lemma iter_pos_nat {A} (f : A → A) (p : positive) (x : A) :
  SpecFloat.iter_pos f p x = Nat.iter (Pos.to_nat p) f x.
Proof.
  revert x. induction p as [p IH|p IH|]; intros x; cbn [SpecFloat.iter_pos].
  - rewrite !IH, Pos2Nat.inj_xI.
    replace (S (2 * Pos.to_nat p)) with (Pos.to_nat p + (Pos.to_nat p + 1))%nat by lia.
    rewrite !Nat.iter_add. done.
  - rewrite !IH, Pos2Nat.inj_xO.
    replace (2 * Pos.to_nat p)%nat with (Pos.to_nat p + Pos.to_nat p)%nat by lia.
    by rewrite Nat.iter_add.
  - done.
Qed.

Lemma shr_iter_loc_of (k : nat) (M R D : Z) :
  0 ≤ M → 0 < D → 0 ≤ R < D →
  Nat.iter k shr_1 (shr_record_of_loc M (loc_of R D))
  = shr_record_of_loc (M / 2 ^ Z.of_nat k)
      (loc_of (M `mod` 2 ^ Z.of_nat k * D + R) (2 ^ Z.of_nat k * D))
    ∧ 0 ≤ M `mod` 2 ^ Z.of_nat k * D + R < 2 ^ Z.of_nat k * D.
Proof.
  intros HM HD HR. induction k as [|k [IH Hk]].
  - unfold Nat.iter; cbn [nat_rect]. change (2 ^ Z.of_nat 0) with 1.
    rewrite Z.div_1_r, Z.mod_1_r, Z.mul_1_l. simpl. split; [done|lia].
  - rewrite Nat.iter_succ, IH.
    assert (0 < 2 ^ Z.of_nat k) as Hpow by (apply Z.pow_pos_nonneg; lia).
    rewrite shr_1_loc_of; [| |lia|done].
    2:{ apply Z.div_pos; lia. }
    rewrite Nat2Z.inj_succ, Z.pow_succ_r by lia.
    rewrite Z.div_div by lia.
    replace (2 ^ Z.of_nat k * 2) with (2 * 2 ^ Z.of_nat k) by lia.
    assert (M `mod` (2 * 2 ^ Z.of_nat k)
            = (M / 2 ^ Z.of_nat k) `mod` 2 * 2 ^ Z.of_nat k + M `mod` 2 ^ Z.of_nat k)
      as Hmod.
    { rewrite (Z.mul_comm 2). rewrite Z.rem_mul_r by lia. lia. }
    pose proof (Z.mod_pos_bound (M / 2 ^ Z.of_nat k) 2 ltac:(lia)) as Hb.
    pose proof (Z.mod_pos_bound M (2 ^ Z.of_nat k) ltac:(lia)) as Hb'.
    split.
    + f_equal. f_equal; rewrite ?Hmod; lia.
    + rewrite Hmod. nia.
Qed.

Lemma digits2_pos_bounds (p : positive) :
  2 ^ (Z.pos (digits2_pos p) - 1) ≤ Z.pos p < 2 ^ Z.pos (digits2_pos p).
Proof.
  induction p as [p IH|p IH|]; cbn [digits2_pos]; [| |by compute].
  all: rewrite Pos2Z.inj_succ.
  all: replace (Z.succ (Z.pos (digits2_pos p)) - 1)
         with (Z.succ (Z.pos (digits2_pos p) - 1)) by lia.
  all: rewrite !Z.pow_succ_r by lia; lia.
Qed.

Lemma Zdigits2_bounds (M : Z) :
  0 < M → 2 ^ (Zdigits2 M - 1) ≤ M < 2 ^ Zdigits2 M.
Proof. destruct M as [|p|p]; try lia. intros _. apply digits2_pos_bounds. Qed.

Lemma Zdigits2_unique (M n : Z) :
  2 ^ (n - 1) ≤ M < 2 ^ n → 0 < M → Zdigits2 M = n.
Proof.
  intros [Hlo Hhi] HM. pose proof (Zdigits2_bounds M HM) as [Hlo' Hhi'].
  assert (0 < Zdigits2 M) by (destruct M; try lia; done).
  assert (0 < n).
  { destruct (Z.lt_trichotomy n 0) as [Hn|[->|Hn]]; [|simpl in Hhi; lia|done].
    rewrite Z.pow_neg_r in Hhi by lia. lia. }
  destruct (Z.lt_trichotomy (Zdigits2 M) n) as [Hlt|[Heq|Hgt]]; [|done|].
  - assert (2 ^ Zdigits2 M ≤ 2 ^ (n - 1)) by (apply Z.pow_le_mono_r; lia). lia.
  - assert (2 ^ n ≤ 2 ^ (Zdigits2 M - 1)) by (apply Z.pow_le_mono_r; lia). lia.
Qed.

Lemma round_nearest_even_bound (M R D : Z) :
  0 < D → 0 ≤ R < D →
  let r := round_nearest_even M (loc_of R D) in
  M ≤ r ≤ M + 1 ∧ Z.abs (2 * (r * D - (M * D + R))) ≤ D ∧ (R = 0 → r = M).
Proof.
  intros HD HR. unfold round_nearest_even, loc_of.
  destruct (R =? 0) eqn:ER; [apply Z.eqb_eq in ER|apply Z.eqb_neq in ER].
  { subst. split; [lia|]. split; [|done]. lia. }
  destruct (2 * R ?= D) eqn:EC;
    rewrite ?Z.compare_eq_iff, ?Z.compare_lt_iff, ?Z.compare_gt_iff in EC.
  - destruct (Z.even M); (split; [lia|]); (split; [|lia]); nia.
  - split; [lia|]. split; [|lia]. nia.
  - split; [lia|]. split; [|lia]. nia.
Qed.

(** Rounding of [(M + R / D) * 2 ^ e] to 53 bits, in the range of the
    normal numbers: the result is finite and lies within half a unit in
    the last place. *)
Lemma binary_round_aux_correct (M R D e : Z) :
  0 < M → 0 < D → 0 ≤ R < D →
  53 ≤ Zdigits2 M →
  -1074 ≤ Zdigits2 M + e - 53 →
  Zdigits2 M + e ≤ 1023 →
  ∃ m' e',
    binary_round_aux prec emax false M e (loc_of R D) = S754_finite false m' e'
    ∧ e ≤ e'
    ∧ Z.abs (2 * (Z.pos m' * 2 ^ (e' - e) * D - (M * D + R)))
      ≤ 2 ^ (Zdigits2 M - 53) * D.
Proof.
  intros HM HD HR Hd Hmin Hmax.
  set (d := Zdigits2 M) in *.
  set (k := d - 53).
  pose proof (Zdigits2_bounds M HM) as [Hlo Hhi]. fold d in Hlo, Hhi.
  assert (0 < 2 ^ k) as Hpowk by (apply Z.pow_pos_nonneg; lia).
  assert (2 ^ d = 2 ^ k * 2 ^ 53) as Hd53.
  { rewrite <- Z.pow_add_r by lia. f_equal. lia. }
  assert (2 ^ (d - 1) = 2 ^ k * 2 ^ 52) as Hd52.
  { rewrite <- Z.pow_add_r by lia. f_equal. lia. }
  set (M' := M / 2 ^ k).
  set (R' := M `mod` 2 ^ k * D + R).
  set (D' := 2 ^ k * D).
  assert (M = 2 ^ k * M' + M `mod` 2 ^ k) as HMeq by (apply Z.div_mod; lia).
  pose proof (Z.mod_pos_bound M (2 ^ k) Hpowk) as Hmodb.
  assert (2 ^ 52 ≤ M' < 2 ^ 53) as HM'.
  { unfold M'. split.
    - apply Z.div_le_lower_bound; lia.
    - apply Z.div_lt_upper_bound; lia. }
  assert (0 ≤ R' < D') as HR' by (unfold R', D'; nia).
  assert (shr_fexp prec emax M e (loc_of R D)
          = (shr_record_of_loc M' (loc_of R' D'), e + k)) as Hshr1.
  { unfold shr_fexp, fexp. fold d.
    replace (Z.max (d + e - prec) (SpecFloat.emin prec emax) - e) with k
      by (change (SpecFloat.emin prec emax) with (-1074); change prec with 53; unfold k; lia).
    unfold shr. destruct k as [|p|p] eqn:Hk; [|  |lia].
    - unfold M', R', D'. change (2 ^ 0) with 1.
      rewrite Z.div_1_r, Z.mod_1_r, Z.mul_1_l, Z.add_0_r. simpl. done.
    - rewrite iter_pos_nat.
      destruct (shr_iter_loc_of (Pos.to_nat p) M R D) as [-> _]; [lia..|].
      rewrite positive_nat_Z. done. }
  unfold binary_round_aux. rewrite Hshr1.
  rewrite shr_m_record_of_loc, loc_of_shr_record_of_loc.
  destruct (round_nearest_even_bound M' R' D') as (Hr & Herr & _); [unfold D'; lia|done|].
  set (r := round_nearest_even M' (loc_of R' D')) in *.
  assert (M * D + R = M' * D' + R') as Hexact by (unfold R', D'; nia).
  destruct (Z.eq_dec r (2 ^ 53)) as [Hr53|Hr53].
  - (* the mantissa was rounded up to a power of two *)
    rewrite Hr53. unfold shr_fexp, fexp.
    change (Zdigits2 (2 ^ 53)) with 54.
    replace (Z.max (54 + (e + k) - prec) (SpecFloat.emin prec emax) - (e + k)) with 1
      by (change (SpecFloat.emin prec emax) with (-1074); change prec with 53; unfold k; lia).
    cbn. assert ((e + k + 1 <=? emax - prec) = true) as ->
      by (apply Z.leb_le; change (emax - prec) with 971; unfold k; lia).
    eexists _, _. split; [done|]. split; [lia|].
    replace (e + k + 1 - e) with (k + 1) by lia.
    rewrite Z.pow_add_r by lia. rewrite Hexact.
    replace (4503599627370496 * (2 ^ k * 2 ^ 1) * D) with (r * D')
      by (rewrite Hr53; unfold D'; change (2 ^ 53) with 9007199254740992; lia).
    fold k. fold D'. lia.
  - assert (Zdigits2 r = 53) as Hdr.
    { apply Zdigits2_unique; lia. }
    unfold shr_fexp, fexp. rewrite Hdr.
    replace (Z.max (53 + (e + k) - prec) (SpecFloat.emin prec emax) - (e + k)) with 0
      by (change (SpecFloat.emin prec emax) with (-1074); change prec with 53; unfold k; lia).
    cbn [shr shr_record_of_loc shr_m].
    destruct r as [|m'|m'] eqn:Hrp; [lia| |lia].
    assert ((e + k <=? emax - prec) = true) as ->
      by (apply Z.leb_le; change (emax - prec) with 971; unfold k; lia).
    eexists _, _. split; [done|]. split; [lia|].
    replace (e + k - e) with k by lia. rewrite Hexact.
    replace (Z.pos m' * 2 ^ k * D) with (Z.pos m' * D') by (unfold D'; lia).
    fold k. fold D'. lia.
Qed.

Lemma iter_xO_pow (m d : positive) :
  Z.pos (Pos.iter xO m d) = Z.pos m * 2 ^ Z.pos d.
Proof.
  induction d as [|d IH] using Pos.peano_ind.
  - cbn. lia.
  - rewrite Pos.iter_succ, Pos2Z.inj_succ, Z.pow_succ_r by lia.
    rewrite Pos2Z.inj_xO, IH. lia.
Qed.

Lemma shl_align_spec (m : positive) (e e' : Z) :
  ∃ m'' e'', shl_align m e e' = (m'', e'')
    ∧ e'' = Z.min e e' ∧ Z.pos m'' = Z.pos m * 2 ^ (e - e'').
Proof.
  unfold shl_align. destruct (e' - e) as [|d|d] eqn:Hd.
  - eexists _, _. split; [done|]. split; [lia|].
    rewrite Z.sub_diag. lia.
  - eexists _, _. split; [done|]. split; [lia|].
    rewrite Z.sub_diag. lia.
  - eexists _, _. split; [done|]. split; [lia|].
    rewrite iter_xO_pow. f_equal. f_equal. lia.
Qed.

Lemma Zdigits2_mul_pow (M k : Z) :
  0 < M → 0 ≤ k → Zdigits2 (M * 2 ^ k) = Zdigits2 M + k.
Proof.
  intros HM Hk. pose proof (Zdigits2_bounds M HM) as [Hlo Hhi].
  assert (0 < Zdigits2 M) by (destruct M; try lia; done).
  assert (0 < 2 ^ k) by (apply Z.pow_pos_nonneg; lia).
  apply Zdigits2_unique; [|nia].
  replace (Zdigits2 M + k - 1) with (Zdigits2 M - 1 + k) by lia.
  rewrite !Z.pow_add_r by lia. nia.
Qed.

(** A mantissa that needs no right shift is kept as it is. *)
Lemma binary_round_aux_exact (m : positive) (e : Z) :
  fexp prec emax (Zdigits2 (Z.pos m) + e) ≤ e →
  e ≤ 971 →
  binary_round_aux prec emax false (Z.pos m) e loc_Exact = S754_finite false m e.
Proof.
  intros Hf He.
  assert (shr_fexp prec emax (Z.pos m) e loc_Exact
          = (shr_record_of_loc (Z.pos m) loc_Exact, e)) as Hshr.
  { unfold shr_fexp, shr.
    destruct (fexp prec emax (Zdigits2 (Z.pos m) + e) - e) eqn:E; [done|lia|done]. }
  unfold binary_round_aux. rewrite Hshr. cbn [shr_record_of_loc shr_m loc_of_shr_record round_nearest_even].
  rewrite Hshr. cbn [shr_record_of_loc shr_m].
  assert ((e <=? emax - prec) = true) as -> by (by apply Z.leb_le).
  done.
Qed.

Lemma bounded_spec (m : positive) (e : Z) :
  SpecFloat.bounded prec emax m e = true →
  fexp prec emax (Z.pos (digits2_pos m) + e) = e ∧ e ≤ 971 ∧ -1074 ≤ e.
Proof.
  unfold SpecFloat.bounded, canonical_mantissa. rewrite andb_true_iff, Z.eqb_eq, Z.leb_le.
  intros [Hc He]. split; [done|]. split; [done|].
  unfold fexp in Hc. change (SpecFloat.emin prec emax) with (-1074) in Hc. lia.
Qed.

(** The sum of two positive finite numbers: the exact sum [M * 2 ^ ez],
    kept or rounded to 53 bits. *)
Lemma SFadd_finite_pos (ma mb : positive) (ea eb : Z) :
  SpecFloat.bounded prec emax ma ea = true → SpecFloat.bounded prec emax mb eb = true →
  let ez := Z.min ea eb in
  let M := Z.pos ma * 2 ^ (ea - ez) + Z.pos mb * 2 ^ (eb - ez) in
  Zdigits2 M + ez ≤ 1023 →
  ∃ m' e',
    SFadd prec emax (S754_finite false ma ea) (S754_finite false mb eb)
    = S754_finite false m' e'
    ∧ ((e' ≤ ez ∧ Z.pos m' = M * 2 ^ (ez - e'))
       ∨ (ez ≤ e' ∧ 53 ≤ Zdigits2 M
          ∧ Z.abs (2 * (Z.pos m' * 2 ^ (e' - ez) - M)) ≤ 2 ^ (Zdigits2 M - 53))).
Proof.
  intros Ha Hb ez M Hmax.
  apply bounded_spec in Ha as (_ & _ & Hea), Hb as (_ & _ & Heb).
  unfold SFadd. cbn [cond_Zopp]. fold ez.
  destruct (shl_align_spec ma ea ez) as (Ma & ea' & -> & Hea' & HMa).
  destruct (shl_align_spec mb eb ez) as (Mb & eb' & -> & Heb' & HMb).
  cbn [fst].
  assert (ea' = ez) as -> by (unfold ez in *; lia).
  assert (eb' = ez) as -> by (unfold ez in *; lia).
  assert (Z.pos Ma + Z.pos Mb = M) as HM by (unfold M; lia).
  change (Z.pos Ma + Z.pos Mb) with (Z.pos (Ma + Mb)) in *.
  assert (Z.pos (digits2_pos (Ma + Mb)) = Zdigits2 M) as Hdig by (by rewrite <- HM).
  unfold binary_normalize, binary_round. rewrite Hdig.
  set (f := fexp prec emax (Zdigits2 M + ez)).
  assert (f = Z.max (Zdigits2 M + ez - 53) (-1074)) as Hf by done.
  destruct (shl_align_spec (Ma + Mb) ez f) as (mz & ez' & -> & Hez' & Hmz).
  rewrite HM in Hmz.
  destruct (Z.lt_ge_cases f ez) as [Hlt|Hge].
  - (* the sum has fewer than 53 bits: it is exact *)
    assert (ez' = f) as -> by lia.
    rewrite binary_round_aux_exact.
    + eexists _, _. split; [done|]. left. split; [lia|]. done.
    + rewrite Hmz, Zdigits2_mul_pow by lia.
      replace (Zdigits2 M + (ez - f) + f) with (Zdigits2 M + ez) by lia.
      fold f. unfold fexp. change (SpecFloat.emin prec emax) with (-1074).
      change prec with 53. lia.
    + lia.
  - assert (ez' = ez) as -> by lia.
    rewrite Z.sub_diag, Z.mul_1_r in Hmz.
    destruct (Z.eq_dec f ez) as [Heq|Hne].
    + rewrite binary_round_aux_exact.
      * eexists _, _. split; [done|]. left. split; [lia|].
        rewrite Z.sub_diag. lia.
      * rewrite Hmz. fold f. unfold fexp.
        change (SpecFloat.emin prec emax) with (-1074). change prec with 53. lia.
      * unfold ez in *. lia.
    + assert (0 < M) by lia.
      destruct (binary_round_aux_correct M 0 1 ez) as (m' & e' & Hround & He' & Herr);
        [lia..|].
      change (loc_of 0 1) with loc_Exact in Hround. rewrite Hmz, Hround.
      eexists _, _. split; [done|]. right. split; [done|]. split; [lia|].
      rewrite !Z.mul_1_r, Z.add_0_r in Herr. done.
Qed.

(** The conversion of an integer below [2 ^ 53] is exact. *)
Lemma of_uint63_exact (n : Z) :
  1 ≤ n < 2 ^ 53 →
  ∃ m e, Prim2SF (of_uint63 (of_Z n)) = S754_finite false m e
         ∧ -52 ≤ e ≤ 0 ∧ Z.pos m = n * 2 ^ (- e) ∧ Zdigits2 (Z.pos m) = 53.
Proof.
  intros Hn. rewrite of_uint63_spec, of_Z_spec.
  rewrite Z.mod_small.
  2:{ change wB with (2 ^ 63). split; [lia|].
      apply Z.lt_trans with (2 ^ 53); [lia|]. by compute. }
  destruct n as [|p|p]; [lia| |lia].
  unfold binary_normalize, binary_round.
  pose proof (Zdigits2_bounds (Z.pos p) ltac:(lia)) as [Hlo Hhi].
  set (d := Zdigits2 (Z.pos p)) in *.
  assert (0 < d) by done.
  assert (d ≤ 53).
  { destruct (Z.le_gt_cases d 53) as [|Hgt]; [done|].
    assert (2 ^ 53 ≤ 2 ^ (d - 1)); [|lia].
    apply Z.pow_le_mono_r; lia. }
  change (Z.pos (digits2_pos p)) with d. rewrite Z.add_0_r.
  destruct (shl_align_spec p 0 (fexp prec emax d)) as (mz & ez & -> & Hez & Hmz).
  assert (fexp prec emax d = d - 53) as Hf.
  { unfold fexp. change (SpecFloat.emin prec emax) with (-1074).
    change prec with 53. lia. }
  rewrite Hf in Hez. assert (ez = d - 53) as -> by lia.
  replace (0 - (d - 53)) with (53 - d) in Hmz by lia.
  assert (Zdigits2 (Z.pos mz) = 53) as Hdz.
  { rewrite Hmz, Zdigits2_mul_pow by lia. fold d. lia. }
  rewrite binary_round_aux_exact.
  - eexists _, _. split; [done|]. split; [lia|]. split; [|done].
    rewrite Hmz. f_equal. f_equal. lia.
  - rewrite Hdz. unfold fexp. change (SpecFloat.emin prec emax) with (-1074).
    change prec with 53. lia.
  - lia.
Qed.

(** [1 / n] for a divisor with a 53-bit mantissa: the quotient of
    [2 ^ 105] by the mantissa, rounded to 53 bits. *)
Lemma SFdiv_one (mn : positive) (en : Z) :
  Zdigits2 (Z.pos mn) = 53 → -52 ≤ en ≤ 0 →
  ∃ m' e',
    SFdiv prec emax (S754_finite false 4503599627370496 (-52))
      (S754_finite false mn en) = S754_finite false m' e'
    ∧ -105 - en ≤ e'
    ∧ Z.abs (Z.pos m' * 2 ^ (e' - (-105 - en)) * Z.pos mn - 2 ^ 105) ≤ 2 ^ 52.
Proof.
  intros Hdn Hen.
  pose proof (Zdigits2_bounds (Z.pos mn) ltac:(lia)) as [Hlo Hhi].
  rewrite Hdn in Hlo, Hhi. change (2 ^ (53 - 1)) with (2 ^ 52) in Hlo.
  unfold SFdiv, SFdiv_core_binary. rewrite Hdn.
  change (Zdigits2 4503599627370496) with 53.
  replace (53 + -52 - (53 + en)) with (- 52 - en) by lia.
  assert (fexp prec emax (-52 - en) = -105 - en) as ->.
  { unfold fexp. change (SpecFloat.emin prec emax) with (-1074).
    change prec with 53. lia. }
  replace (Z.min (-105 - en) (-52 - en)) with (-105 - en) by lia.
  replace (-52 - en - (-105 - en)) with 53 by lia.
  change (Z.shiftl 4503599627370496 53) with (2 ^ 105).
  change IntDef.Z.div_eucl with Z.div_eucl.
  pose proof (Z_div_mod (2 ^ 105) (Z.pos mn) ltac:(lia)) as Hdm.
  destruct (Z.div_eucl (2 ^ 105) (Z.pos mn)) as [q r]. destruct Hdm as [Hqr Hr].
  rewrite new_location_loc_of by lia.
  cbn [xorb].
  assert (2 ^ 105 = 2 ^ 52 * 2 ^ 53) as H105 by done.
  assert (0 < 2 ^ 52) as Hpos52 by done.
  assert (2 ^ 53 = 2 * 2 ^ 52) as H53 by done.
  assert (2 ^ 52 ≤ q ≤ 2 ^ 53) as Hq.
  { rewrite H105 in Hqr. rewrite H53 in *. generalize dependent (2 ^ 52).
    intros A; intros. split; nia. }
  assert (0 < q) as Hq0 by lia.
  pose proof (Zdigits2_bounds q Hq0) as [Hqlo Hqhi].
  assert (53 ≤ Zdigits2 q ≤ 54) as Hdq.
  { split.
    - destruct (Z.le_gt_cases 53 (Zdigits2 q)) as [|Hlt]; [done|].
      assert (2 ^ Zdigits2 q ≤ 2 ^ 52) by (apply Z.pow_le_mono_r; lia). lia.
    - destruct (Z.le_gt_cases (Zdigits2 q) 54) as [|Hgt]; [done|].
      assert (2 ^ 54 ≤ 2 ^ (Zdigits2 q - 1)) by (apply Z.pow_le_mono_r; lia).
      change (2 ^ 54) with (2 * 2 ^ 53) in *. lia. }
  destruct (binary_round_aux_correct q r (Z.pos mn) (-105 - en))
    as (m' & e' & -> & He' & Herr); [lia..|].
  eexists _, _. split; [done|]. split; [done|].
  rewrite (Z.mul_comm q), <- Hqr in Herr.
  assert (2 ^ (Zdigits2 q - 53) * Z.pos mn ≤ 2 ^ 53); [|lia].
  destruct (Z.eq_dec (Zdigits2 q) 53) as [->|Hne].
  - change (2 ^ (53 - 53)) with 1. lia.
  - assert (Zdigits2 q = 54) as Hd54 by lia. rewrite Hd54 in *.
    change (2 ^ (54 - 53)) with 2. change (2 ^ (54 - 1)) with (2 ^ 53) in Hqlo.
    assert (q = 2 ^ 53) as -> by lia. nia.
Qed.

Lemma bpow_pos (e : Z) : (0 < powerRZ 2 e)%R.
Proof. apply powerRZ_lt. lra. Qed.

Lemma bpow_add (a b : Z) : powerRZ 2 (a + b) = (powerRZ 2 a * powerRZ 2 b)%R.
Proof. apply powerRZ_add. lra. Qed.

Lemma bpow_IZR (k : Z) : 0 ≤ k → IZR (2 ^ k) = powerRZ 2 k.
Proof.
  intros Hk. rewrite <- (Z2Nat.id k) at 1 2 by done.
  by rewrite <- pow_IZR, pow_powerRZ.
Qed.

Lemma bpow_le (a b : Z) : a ≤ b → (powerRZ 2 a <= powerRZ 2 b)%R.
Proof.
  intros Hab. replace b with (a + (b - a)) by lia.
  rewrite bpow_add, <- (bpow_IZR (b - a)) by lia.
  assert (1 ≤ 2 ^ (b - a)) as H1.
  { assert (0 < 2 ^ (b - a)) by (apply Z.pow_pos_nonneg; lia). lia. }
  apply IZR_le in H1. pose proof (bpow_pos a). nra.
Qed.

Lemma bpow_le_inv (a b : Z) : (powerRZ 2 a <= powerRZ 2 b)%R → a ≤ b.
Proof.
  intros Hle. destruct (Z.le_gt_cases a b) as [|Hgt]; [done|].
  exfalso. pose proof (bpow_le (b + 1) a ltac:(lia)) as H.
  rewrite bpow_add in H. change (powerRZ 2 1) with (2 * 1)%R in H.
  pose proof (bpow_pos b). lra.
Qed.

Lemma real_of_positive_finite (x : float) (m : positive) (e : Z) :
  Prim2SF x = S754_finite false m e →
  real_of x = (IZR (Z.pos m) * powerRZ 2 e)%R.
Proof. unfold real_of. by intros ->. Qed.

Lemma positive_finite_pos (x : float) : positive_finite x → (0 < real_of x)%R.
Proof.
  intros (m & e & H). rewrite (real_of_positive_finite _ _ _ H).
  apply Rmult_lt_0_compat; [|apply bpow_pos]. by apply IZR_lt.
Qed.

Lemma float_valid_finite (x : float) (s : bool) (m : positive) (e : Z) :
  Prim2SF x = S754_finite s m e → SpecFloat.bounded prec emax m e = true.
Proof. intros H. pose proof (Prim2SF_valid x) as Hv. by rewrite H in Hv. Qed.

Lemma float_add_zero_l (x : float) : positive_finite x → (0 + x)%float = x.
Proof.
  intros (m & e & H). apply Prim2SF_inj. rewrite FloatAxioms.add_spec, H. done.
Qed.

(** The standard model of floating-point addition, for positive numbers
    away from overflow. *)
Lemma float_add_correct (a b : float) :
  positive_finite a → positive_finite b →
  (real_of a + real_of b <= 4)%R →
  positive_finite (a + b)
  ∧ (Rabs (real_of (a + b) - (real_of a + real_of b))
     <= roundoff * (real_of a + real_of b))%R.
Proof.
  intros (ma & ea & Ha) (mb & eb & Hb) Hsum.
  rewrite (real_of_positive_finite _ _ _ Ha), (real_of_positive_finite _ _ _ Hb) in *.
  pose proof (float_valid_finite _ _ _ _ Ha) as Hva.
  pose proof (float_valid_finite _ _ _ _ Hb) as Hvb.
  set (ez := Z.min ea eb) in *.
  set (M := Z.pos ma * 2 ^ (ea - ez) + Z.pos mb * 2 ^ (eb - ez)).
  assert (0 < 2 ^ (ea - ez)) by (apply Z.pow_pos_nonneg; lia).
  assert (0 < 2 ^ (eb - ez)) by (apply Z.pow_pos_nonneg; lia).
  assert (0 < M) as HM by (unfold M; nia).
  assert ((IZR (Z.pos ma) * powerRZ 2 ea + IZR (Z.pos mb) * powerRZ 2 eb
           = IZR M * powerRZ 2 ez)%R) as Hexact.
  { unfold M. rewrite plus_IZR, !mult_IZR, !bpow_IZR by lia.
    replace ea with ((ea - ez) + ez) at 1 by lia.
    replace eb with ((eb - ez) + ez) at 1 by lia.
    rewrite !bpow_add. ring. }
  rewrite Hexact in *.
  pose proof (Zdigits2_bounds M HM) as [Hlo Hhi].
  assert (0 < Zdigits2 M) as Hdpos by (destruct M; try lia; done).
  assert (Zdigits2 M + ez ≤ 3) as Hmax.
  { assert (Zdigits2 M - 1 + ez ≤ 2); [|lia]. apply bpow_le_inv.
    rewrite bpow_add, <- bpow_IZR by lia.
    apply IZR_le in Hlo. pose proof (bpow_pos ez).
    change (powerRZ 2 2) with (2 * (2 * 1))%R. nra. }
  destruct (SFadd_finite_pos ma mb ea eb Hva Hvb) as (m' & e' & Hadd & Hres).
  { fold ez. fold M. lia. }
  fold ez in Hres. fold M in Hres.
  assert (Prim2SF (a + b) = S754_finite false m' e') as Hab.
  { rewrite FloatAxioms.add_spec, Ha, Hb. exact Hadd. }
  split; [by eexists _, _|].
  rewrite (real_of_positive_finite _ _ _ Hab).
  pose proof (bpow_pos ez) as Hez. pose proof (IZR_lt _ _ HM) as HMR.
  destruct Hres as [[He' Hm']|(He' & Hd & Herr)].
  - assert ((IZR (Z.pos m') * powerRZ 2 e' = IZR M * powerRZ 2 ez)%R) as ->.
    { rewrite Hm', mult_IZR, bpow_IZR by lia.
      replace ez with ((ez - e') + e') at 2 by lia. rewrite bpow_add. ring. }
    rewrite Rminus_diag, Rabs_R0. unfold roundoff.
    pose proof (bpow_pos (-53)).
    apply Rmult_le_pos; [lra|]. apply Rmult_le_pos; lra.
  - assert ((IZR (Z.pos m') * powerRZ 2 e'
             = IZR (Z.pos m' * 2 ^ (e' - ez)) * powerRZ 2 ez)%R) as ->.
    { rewrite mult_IZR, bpow_IZR by lia.
      replace e' with ((e' - ez) + ez) at 1 by lia. rewrite bpow_add. ring. }
    rewrite <- Rmult_minus_distr_r, Rabs_mult, (Rabs_pos_eq (powerRZ 2 ez)) by lra.
    rewrite <- minus_IZR, <- abs_IZR.
    rewrite <- Rmult_assoc. apply Rmult_le_compat_r; [lra|].
    (* 2 |m' 2^(e'-ez) - M| ≤ 2^(d-53) and 2^(d-1) ≤ M *)
    set (X := Z.abs (Z.pos m' * 2 ^ (e' - ez) - M)) in *.
    assert (2 * X ≤ 2 ^ (Zdigits2 M - 53)) as HX.
    { unfold X. rewrite <- (Z.abs_mul 2) in *. 
      replace (Z.abs 2 * Z.abs (Z.pos m' * 2 ^ (e' - ez) - M))
        with (Z.abs (2 * (Z.pos m' * 2 ^ (e' - ez) - M))) by (rewrite Z.abs_mul; done).
      done. }
    assert (2 ^ (Zdigits2 M - 1) = 2 ^ (Zdigits2 M - 53) * 2 ^ 52) as Hsplit.
    { rewrite <- Z.pow_add_r by lia. f_equal. lia. }
    unfold roundoff. 
    assert ((powerRZ 2 (-53) = / IZR (2 ^ 53))%R) as ->.
    { rewrite bpow_IZR by lia. by rewrite <- powerRZ_neg'. }
    apply IZR_le in HX, Hlo. rewrite Hsplit in Hlo.
    rewrite mult_IZR in HX, Hlo.
    assert (0 < IZR (2 ^ (Zdigits2 M - 53)))%R as Hp.
    { apply IZR_lt. apply Z.pow_pos_nonneg; lia. }
    change (IZR (2 ^ 52)) with 4503599627370496%R in Hlo.
    change (IZR (2 ^ 53)) with 9007199254740992%R.
    change (IZR 2) with 2%R in HX.
    lra.
Qed.

(** The standard model of floating-point division, for [1 / n]. *)
Lemma float_inv_correct (n : Z) :
  1 ≤ n < 2 ^ 53 →
  positive_finite (1 / of_uint63 (of_Z n))
  ∧ (Rabs (IZR n * real_of (1 / of_uint63 (of_Z n)) - 1) <= roundoff)%R.
Proof.
  intros Hn.
  destruct (of_uint63_exact n Hn) as (mn & en & Hnf & Hen & Hmn & Hdn).
  destruct (SFdiv_one mn en Hdn Hen) as (m' & e' & Hdiv & He' & Herr).
  assert (Prim2SF (1 / of_uint63 (of_Z n)) = S754_finite false m' e') as Hq.
  { rewrite FloatAxioms.div_spec, Hnf. exact Hdiv. }
  split; [by eexists _, _|].
  rewrite (real_of_positive_finite _ _ _ Hq).
  set (X := Z.pos m' * 2 ^ (e' - (-105 - en)) * Z.pos mn) in *.
  assert ((IZR n * (IZR (Z.pos m') * powerRZ 2 e') = IZR X * powerRZ 2 (-105))%R) as ->.
  { unfold X. rewrite Hmn, !mult_IZR, !bpow_IZR by lia.
    replace e' with ((e' - (-105 - en)) + ((- en) + (-105))) at 1 by lia.
    rewrite !bpow_add. ring. }
  assert ((powerRZ 2 (-105) = / IZR (2 ^ 105))%R) as ->.
  { rewrite bpow_IZR by lia. by rewrite <- powerRZ_neg'. }
  unfold roundoff.
  assert ((powerRZ 2 (-53) = / IZR (2 ^ 53))%R) as ->.
  { rewrite bpow_IZR by lia. by rewrite <- powerRZ_neg'. }
  apply IZR_le in Herr. rewrite abs_IZR, minus_IZR in Herr.
  assert (IZR (2 ^ 105) = IZR (2 ^ 52) * IZR (2 ^ 53))%R as H105
    by (by rewrite <- mult_IZR).
  rewrite H105 in *. clear H105.
  assert (0 < IZR (2 ^ 52))%R as H52 by (by apply IZR_lt).
  assert (0 < IZR (2 ^ 53))%R as H53 by (by apply IZR_lt).
  generalize dependent (IZR (2 ^ 52)). generalize dependent (IZR (2 ^ 53)).
  intros B HB A Herr HA.
  replace (IZR X * / (A * B) - 1)%R with ((IZR X - A * B) * / (A * B))%R
    by (field; lra).
  rewrite Rabs_mult, (Rabs_pos_eq (/ (A * B))).
  2:{ apply Rlt_le, Rinv_0_lt_compat. nra. }
  apply (Rmult_le_reg_r (A * B)); [nra|].
  rewrite Rmult_assoc, Rinv_l by nra.
  replace (/ B * (A * B))%R with A by (field; lra). lra.
Qed.

Lemma float_bounded (x : float) (s : bool) (m : positive) (e : Z) :
  Prim2SF x = S754_finite s m e →
  fexp prec emax (Zpos (digits2_pos m) + e) = e ∧ e ≤ emax - prec.
Proof.
  intros H. pose proof (Prim2SF_valid x) as Hv. rewrite H in Hv.
  unfold SpecFloat.valid_binary, SpecFloat.bounded, canonical_mantissa in Hv.
  apply andb_true_iff in Hv as [Hc He].
  apply Z.eqb_eq in Hc. apply Z.leb_le in He. done.
Qed.

Lemma float_mul_one (x : float) (s : bool) (m : positive) (e : Z) :
  Prim2SF x = S754_finite s m e → (x * 1)%float = x.
Proof.
  intros H. destruct (float_bounded x s m e H) as [Hc He].
  apply Prim2SF_inj. rewrite FloatAxioms.mul_spec, H.
  change (Prim2SF 1) with (S754_finite false 4503599627370496 (-52)).
  unfold SF64mul, SFmul. rewrite xorb_false_r.
  rewrite Pos.mul_comm. cbv [Pos.mul].
  unfold binary_round_aux, shr_fexp, Zdigits2. cbn [digits2_pos].
  rewrite !Pos2Z.inj_succ.
  unfold fexp in *.
  replace (Z.max _ _ - (e + -52)) with 52.
  2:{ unfold emin, prec, emax in *. lia. }
  cbn [shr shr_record_of_loc SpecFloat.iter_pos shr_1 fst snd loc_of_shr_record shr_m shr_r shr_s round_nearest_even orb].
  replace (e + -52 + 52) with e by lia.
  cbn [Zdigits2]. rewrite Hc, Z.sub_diag. cbn [shr shr_record_of_loc shr_m].
  apply Z.leb_le in He. rewrite He. reflexivity.
Qed.

Lemma float_div_self (x : float) (s : bool) (m : positive) (e : Z) :
  Prim2SF x = S754_finite s m e → (x / x)%float = 1%float.
Proof.
  intros H. apply Prim2SF_inj. rewrite FloatAxioms.div_spec, H.
  unfold SF64div, SFdiv, SFdiv_core_binary.
  replace (Zdigits2 (Z.pos m) + e - (Zdigits2 (Z.pos m) + e)) with 0 by lia.
  rewrite Z.sub_diag.
  change (Z.min (fexp prec emax 0) 0) with (-53).
  change (0 - -53) with 53.
  cbv beta iota zeta.
  replace (Z.shiftl (Z.pos m) 53) with (9007199254740992 * Z.pos m).
  2:{ rewrite Z.shiftl_mul_pow2 by lia. change (2 ^ 53) with 9007199254740992. lia. }
  assert (Z.div_eucl (9007199254740992 * Z.pos m) (Z.pos m)
          = (9007199254740992, 0)) as Hdiv.
  { pose proof (Z.div_mul 9007199254740992 (Z.pos m) ltac:(lia)) as Hq.
    pose proof (Z.mod_mul 9007199254740992 (Z.pos m) ltac:(lia)) as Hr.
    unfold Z.div, Z.modulo in Hq, Hr.
    destruct (Z.div_eucl _ _) as [q r]. by subst. }
  change IntDef.Z.div_eucl with Z.div_eucl. rewrite Hdiv.
  replace (new_location (Z.pos m) 0) with loc_Exact.
  2:{ unfold new_location. destruct (IntDef.Z.even _); reflexivity. }
  rewrite xorb_nilpotent. reflexivity.
Qed.

Lemma is_finite_spec (x : float) :
  PrimFloat.is_finite x = true →
  (∃ s, Prim2SF x = S754_zero s) ∨ (∃ s m e, Prim2SF x = S754_finite s m e).
Proof.
  unfold PrimFloat.is_finite, is_nan, is_infinity.
  rewrite !FloatAxioms.eqb_spec, abs_spec.
  destruct (Prim2SF x) as [s|s| |s m e]; [by eauto| | |by eauto 6].
  - destruct s; intros Hx; vm_compute in Hx; discriminate.
  - intros Hx; vm_compute in Hx; discriminate.
Qed.

Lemma float_add_mul_zero (x : float) :
  PrimFloat.is_finite x = true → (0 + x * 0)%float = 0%float.
Proof.
  intros Hx. apply Prim2SF_inj.
  rewrite FloatAxioms.add_spec, FloatAxioms.mul_spec.
  change (Prim2SF 0) with (S754_zero false).
  destruct (is_finite_spec x Hx) as [[s ->]|(s & m & e & ->)];
    by destruct s.
Qed.

Lemma of_uint63_finite (n : Z) :
  1 ≤ n < 2 ^ 31 →
  ∃ m e, Prim2SF (of_uint63 (of_Z n)) = S754_finite false m e.
Proof.
  intros Hn. destruct (of_uint63_exact n) as (m & e & H & _); [|by eauto].
  split; [lia|]. apply Z.lt_trans with (2 ^ 31); [lia|done].
Qed.

(** ** A plus word found in every document *)

Section ZeroInverseDocumentFreq.

Variable log : float → float.
Hypothesis Hlog : log 1%float = 0%float.
Variable s : SearchServer.
Variable key_mapper : Z → DocumentStatus → Z → bool.
Hypothesis Hconsistent : consistent s.
Hypothesis Hcount : Z.of_nat (size (documents_ s)) ≤ INT_MAX.

(** [log(N * 1.0 / N)] is [log(1.0)]. *)
Lemma inverse_document_freq_zero (word : string) (postings : gmap Z float) (d : Z) :
  word_to_document_freqs_ s !! word = Some postings →
  is_Some (postings !! d) →
  in_every_document s word →
  log (double_of_int (GetDocumentCount s) * 1
       / double_of_size (size postings))%float = 0%float.
Proof.
  intros Hw Hd Hall.
  assert (dom postings = dom (documents_ s)) as Hdom.
  { apply set_eq. intros k. rewrite !elem_of_dom. split.
    - intros Hk. by eapply Hconsistent.
    - intros Hk. apply Hall in Hk. apply has_posting_true in Hk as (p & Hp & Hk).
      by simplify_eq. }
  assert (size postings = size (documents_ s)) as ->.
  { by rewrite <- (size_dom (D:=gset Z) postings),
               <- (size_dom (D:=gset Z) (documents_ s)), Hdom. }
  assert (size (documents_ s) ≠ 0%nat) as Hne.
  { intros H0. apply map_size_empty_iff in H0.
    assert (is_Some (documents_ s !! d)) as Hsome by (by eapply Hconsistent).
    rewrite H0, lookup_empty in Hsome. by destruct Hsome. }
  unfold GetDocumentCount, double_of_size, double_of_int.
  unfold INT_MAX in Hcount.
  rewrite wrap_int_id by (unfold is_int, INT_MIN, INT_MAX; lia).
  assert ((Z.of_nat (size (documents_ s)) <? 0) = false) as ->
    by (apply Z.ltb_ge; lia).
  destruct (of_uint63_finite (Z.of_nat (size (documents_ s)))) as (m & e & Hfin);
    [lia|].
  by rewrite (float_mul_one _ _ _ _ Hfin), (float_div_self _ _ _ _ Hfin).
Qed.

Lemma accumulate_zero (idf : float) (postings : gmap Z float) (m : gmap Z float)
    (d : Z) :
  (∀ k, is_Some (postings !! k) → is_Some (documents_ s !! k)) →
  (∀ tf, postings !! d = Some tf →
         idf = 0%float ∧ PrimFloat.is_finite tf = true) →
  zero_or_absent m d →
  ∃ m', for_each (accumulate s key_mapper idf) (map_items postings) m = Ok m'
        ∧ zero_or_absent m' d.
Proof.
  intros Hstored Hzero Hm.
  apply (for_each_invariant (λ _ m', zero_or_absent m' d)); [done|].
  intros _ [k tf] m1 Hin Hm1. apply elem_of_map_items in Hin.
  destruct (Hstored k) as [dd Hdd]; [by eauto|].
  unfold accumulate, map_at. rewrite Hdd. simpl.
  destruct (key_mapper k (status dd) (rating dd)); [|by eauto].
  eexists. split; [done|].
  destruct (decide (k = d)) as [->|Hne].
  - right. rewrite lookup_insert_eq.
    destruct (Hzero tf Hin) as [-> Hfin].
    destruct Hm1 as [-> | ->]; simpl; by rewrite float_add_mul_zero.
  - unfold zero_or_absent. by rewrite lookup_insert_ne.
Qed.

Lemma add_plus_word_zero (m : gmap Z float) (word : string) (d : Z) :
  (has_posting s word d = true → in_every_document s word) →
  (∀ postings tf, word_to_document_freqs_ s !! word = Some postings →
                  postings !! d = Some tf → PrimFloat.is_finite tf = true) →
  zero_or_absent m d →
  ∃ m', add_plus_word log s key_mapper m word = Ok m' ∧ zero_or_absent m' d.
Proof.
  intros Hall Hfin Hm.
  unfold add_plus_word, ComputeWordInverseDocumentFreq, map_at.
  destruct (word_to_document_freqs_ s !! word) as [postings|] eqn:Hw; simpl;
    [|by eauto].
  apply accumulate_zero; [|  |done].
  - intros k Hk. by eapply Hconsistent.
  - intros tf Hd. split; [|by eapply Hfin].
    apply (inverse_document_freq_zero word postings d); [done|by eauto|].
    apply Hall. apply has_posting_true. eauto.
Qed.

Lemma plus_words_zero (words : gset string) (d : Z) :
  (∀ w, w ∈ words → has_posting s w d = true → in_every_document s w) →
  (∀ w postings tf, w ∈ words →
     word_to_document_freqs_ s !! w = Some postings →
     postings !! d = Some tf → PrimFloat.is_finite tf = true) →
  ∃ m, for_each (add_plus_word log s key_mapper) (set_items words) ∅ = Ok m
       ∧ zero_or_absent m d.
Proof.
  intros Hall Hfin.
  apply (for_each_invariant (λ _ m, zero_or_absent m d)).
  - by left.
  - intros _ w m Hw Hm. apply elem_of_set_items in Hw.
    apply add_plus_word_zero; [by apply Hall|by eauto|done].
Qed.

(** The item of a matching document all of whose plus words are in
    every document carries the relevance [+0.0]. *)
Lemma FindAllDocuments_zero (q : Query) (d : Z) :
  matches s q key_mapper d →
  (∀ w, w ∈ plus_words q → has_posting s w d = true → in_every_document s w) →
  (∀ w postings tf, w ∈ plus_words q →
     word_to_document_freqs_ s !! w = Some postings →
     postings !! d = Some tf → PrimFloat.is_finite tf = true) →
  ∃ found dd,
    FindAllDocuments log s q key_mapper = Ok found
    ∧ documents_ s !! d = Some dd
    ∧ mkDocument d 0%float (rating dd) ∈ found.
Proof.
  intros Hmatch Hall Hfin.
  destruct (FindAllDocuments_matches log s key_mapper Hconsistent q)
    as (m1 & found & Hrun1 & Hfound & Hitems & Hids & Hsame).
  destruct (plus_words_zero (plus_words q) d Hall Hfin) as (m1' & Hrun1' & Hzero).
  rewrite Hrun1 in Hrun1'. injection Hrun1' as <-.
  apply Hids in Hmatch as Hin. apply Hsame in Hmatch as Hsame_d.
  apply list_elem_of_fmap in Hin as (doc & Hid & Hdoc).
  apply list_elem_of_lookup in Hdoc as [i Hi].
  destruct (Forall2_lookup_r _ _ _ _ _ Hitems Hi) as (entry & Hentry & Hitem).
  apply list_elem_of_lookup_2, elem_of_map_items_1 in Hentry.
  destruct Hitem as (Hid' & Hrel & Hrating).
  rewrite <- Hid', <- Hid, Hsame_d in Hentry.
  destruct Hzero as [Hz|Hz]; rewrite Hz in Hentry; [done|].
  injection Hentry as Hentry.
  rewrite <- Hid', <- Hid in Hrating.
  destruct (documents_ s !! d) as [dd|] eqn:Hdd; [|done].
  exists found, dd. split; [done|]. split; [done|].
  apply list_elem_of_lookup. exists i. rewrite Hi. f_equal.
  destruct doc as [i0 r0 g0]. simpl in *. injection Hrating as ->. congruence.
Qed.

End ZeroInverseDocumentFreq.

(** ** The tolerance of the comparator

    The test [abs(x - y) < DELTA] of the comparator, on finite doubles:
    the difference is rounded to nearest, so that the test holds exactly
    when the two values are at most [tie_bound] apart, the midpoint
    between [DELTA] and the double below it. *)

Lemma SFabs_binary_round_aux (sx sy : bool) (mx ex : Z) (lx : location) :
  SFabs (binary_round_aux prec emax sx mx ex lx)
  = SFabs (binary_round_aux prec emax sy mx ex lx).
Proof.
  unfold binary_round_aux.
  destruct (shr_fexp prec emax mx ex lx) as [mrs' e'].
  destruct (shr_fexp prec emax _ e' loc_Exact) as [mrs'' e''].
  destruct (shr_m mrs''); [done| |done]. by destruct (_ <=? _).
Qed.

Lemma Prim2SF_DELTA : Prim2SF DELTA = S754_finite false DELTA_mantissa (-72).
Proof. reflexivity. Qed.

Lemma pow_scale_le (e e' : Z) :
  -1074 ≤ e ≤ e' → 2 ^ (e' + 1074) = 2 ^ (e' - e) * 2 ^ (e + 1074).
Proof. intros H. rewrite <- Z.pow_add_r by lia. f_equal. lia. Qed.

Lemma pow_scale_pos (e : Z) : -1074 ≤ e → 0 < 2 ^ (e + 1074).
Proof. intros H. apply Z.pow_pos_nonneg; lia. Qed.

(** A canonical mantissa has at most 53 bits, and exactly 53 above the
    smallest exponent. *)
Lemma bounded_mantissa (m : positive) (e : Z) :
  SpecFloat.bounded prec emax m e = true →
  -1074 ≤ e ≤ 971 ∧ Z.pos m < 2 ^ 53 ∧ (-1074 < e → 2 ^ 52 ≤ Z.pos m).
Proof.
  intros Hb. apply bounded_spec in Hb as (Hc & He & He').
  pose proof (digits2_pos_bounds m) as [Hlo Hhi].
  unfold fexp in Hc. change (SpecFloat.emin prec emax) with (-1074) in Hc.
  change prec with 53 in Hc.
  set (d := Z.pos (digits2_pos m)) in *.
  split; [lia|]. split.
  - assert (2 ^ d ≤ 2 ^ 53); [apply Z.pow_le_mono_r; lia|lia].
  - intros Hn. replace d with 53 in Hlo by lia. exact Hlo.
Qed.

(** Two canonical numbers compare as their values do. *)
Lemma canonical_compare (m1 m2 : positive) (e1 e2 : Z) :
  SpecFloat.bounded prec emax m1 e1 = true →
  SpecFloat.bounded prec emax m2 e2 = true →
  match e1 ?= e2 with
  | Eq => PosDef.Pos.compare_cont Eq m1 m2
  | Lt => Lt
  | Gt => Gt
  end
  = (Z.pos m1 * 2 ^ (e1 + 1074) ?= Z.pos m2 * 2 ^ (e2 + 1074)).
Proof.
  intros H1 H2.
  apply bounded_mantissa in H1 as (He1 & Hm1 & Hn1).
  apply bounded_mantissa in H2 as (He2 & Hm2 & Hn2).
  destruct (Z.compare_spec e1 e2) as [->|Hlt|Hgt].
  - change (PosDef.Pos.compare_cont Eq m1 m2) with (Z.pos m1 ?= Z.pos m2).
    pose proof (pow_scale_pos e2 ltac:(lia)) as HP.
    symmetry. destruct (Z.compare_spec (Z.pos m1) (Z.pos m2)) as [->|H|H].
    + apply Z.compare_refl.
    + apply Z.compare_lt_iff. nia.
    + apply Z.compare_gt_iff. nia.
  - symmetry. apply Z.compare_lt_iff.
    rewrite (pow_scale_le e1 e2) by lia.
    pose proof (pow_scale_pos e1 ltac:(lia)) as HP.
    assert (2 ^ 1 ≤ 2 ^ (e2 - e1)) as Hp by (apply Z.pow_le_mono_r; lia).
    change (2 ^ 1) with 2 in Hp.
    specialize (Hn2 ltac:(lia)).
    change (2 ^ 53) with (2 * 2 ^ 52) in Hm1.
    set (P := 2 ^ (e1 + 1074)) in *. set (Q := 2 ^ (e2 - e1)) in *.
    set (B := 2 ^ 52) in *. assert (0 < B) by (unfold B; lia).
    clearbody P Q B.
    assert (Z.pos m1 * P < 2 * B * P) by (apply Z.mul_lt_mono_pos_r; lia).
    assert (2 * B ≤ Z.pos m2 * Q) by nia.
    assert (2 * B * P ≤ Z.pos m2 * Q * P) by (apply Z.mul_le_mono_nonneg_r; lia).
    lia.
  - symmetry. apply Z.compare_gt_iff.
    rewrite (pow_scale_le e2 e1) by lia.
    pose proof (pow_scale_pos e2 ltac:(lia)) as HP.
    assert (2 ^ 1 ≤ 2 ^ (e1 - e2)) as Hp by (apply Z.pow_le_mono_r; lia).
    change (2 ^ 1) with 2 in Hp.
    specialize (Hn1 ltac:(lia)).
    change (2 ^ 53) with (2 * 2 ^ 52) in Hm2.
    set (P := 2 ^ (e2 + 1074)) in *. set (Q := 2 ^ (e1 - e2)) in *.
    set (B := 2 ^ 52) in *. assert (0 < B) by (unfold B; lia).
    clearbody P Q B.
    assert (Z.pos m2 * P < 2 * B * P) by (apply Z.mul_lt_mono_pos_r; lia).
    assert (2 * B ≤ Z.pos m1 * Q) by nia.
    assert (2 * B * P ≤ Z.pos m1 * Q * P) by (apply Z.mul_le_mono_nonneg_r; lia).
    lia.
Qed.

Lemma DELTA_bounded : SpecFloat.bounded prec emax DELTA_mantissa (-72) = true.
Proof. reflexivity. Qed.

(** A canonical number is less than [DELTA] exactly when it does not
    exceed the midpoint below [DELTA]. *)
Lemma canonical_lt_DELTA (m : positive) (e : Z) :
  SpecFloat.bounded prec emax m e = true →
  SFltb (S754_finite false m e) (S754_finite false DELTA_mantissa (-72)) = true ↔
  Z.pos m * 2 ^ (e + 1074) ≤ tie_bound.
Proof.
  intros Hb. unfold SFltb, SFcompare.
  rewrite (canonical_compare m DELTA_mantissa e (-72) Hb DELTA_bounded).
  apply bounded_mantissa in Hb as (He & Hm & _).
  assert (∀ c, match Some c with Some Lt => true | _ => false end = true
               ↔ c = Lt) as Hc by (intros []; naive_solver).
  rewrite Hc, Z.compare_lt_iff. clear Hc.
  change (-72 + 1074) with (1 + 1001). rewrite (Z.pow_add_r 2 1 1001) by lia.
  change (2 ^ 1) with 2. unfold tie_bound.
  assert (0 < 2 ^ 1001) as HP by (apply Z.pow_pos_nonneg; lia).
  assert (2 ^ 53 ≤ 2 * Z.pos DELTA_mantissa - 1) as HD by (by vm_compute).
  set (c := Z.pos DELTA_mantissa) in *.
  destruct (Z.le_gt_cases e (-73)) as [Hlow|Hhigh].
  - assert (2 ^ 1001 = 2 ^ (-73 - e) * 2 ^ (e + 1074)) as HPeq.
    { rewrite <- Z.pow_add_r by lia. f_equal. lia. }
    assert (0 < 2 ^ (-73 - e)) as HQ by (apply Z.pow_pos_nonneg; lia).
    pose proof (pow_scale_pos e ltac:(lia)) as HS.
    set (P := 2 ^ 1001) in *. set (Q := 2 ^ (-73 - e)) in *.
    set (S := 2 ^ (e + 1074)) in *. set (B := 2 ^ 53) in *.
    clearbody P Q S B c.
    assert (Z.pos m * S ≤ B * S) by (apply Z.mul_le_mono_nonneg_r; lia).
    assert (B * S ≤ B * P) by (subst P; nia).
    assert (B * P ≤ (2 * c - 1) * P) by (apply Z.mul_le_mono_nonneg_r; lia).
    split; intros _; nia.
  - assert (2 ^ (e + 1074) = 2 ^ (e + 73) * 2 ^ 1001) as HSeq.
    { rewrite <- Z.pow_add_r by lia. f_equal. lia. }
    rewrite HSeq.
    set (P := 2 ^ 1001) in *. set (Q := 2 ^ (e + 73)) in *. clearbody P Q c.
    split.
    + intros Hlt. assert (Z.pos m * Q < 2 * c) by nia.
      assert (Z.pos m * Q * P ≤ (2 * c - 1) * P)
        by (apply Z.mul_le_mono_nonneg_r; lia). lia.
    + intros Hle. nia.
Qed.

(** Comparison of finite numbers and zeros, on their values. *)
Lemma SFcompare_scaled (x y : spec_float) :
  valid_binary x = true → valid_binary y = true →
  (∀ s, x ≠ S754_infinity s) → x ≠ S754_nan →
  (∀ s, y ≠ S754_infinity s) → y ≠ S754_nan →
  SFcompare x y = Some (scaled x ?= scaled y).
Proof.
  intros Hx Hy Hxi Hxn Hyi Hyn.
  destruct x as [sx|sx| |sx mx ex]; [|by destruct (Hxi sx)|done|];
    destruct y as [sy|sy| |sy my ey]; try (by destruct (Hyi sy)); try done.
  - simpl in Hy. apply bounded_mantissa in Hy as (He & _).
    pose proof (pow_scale_pos ey ltac:(lia)).
    unfold SFcompare, scaled. f_equal. symmetry.
    destruct sy; cbn [cond_Zopp];
      [apply Z.compare_gt_iff|apply Z.compare_lt_iff]; nia.
  - simpl in Hx. apply bounded_mantissa in Hx as (He & _).
    pose proof (pow_scale_pos ex ltac:(lia)).
    unfold SFcompare, scaled. f_equal. symmetry.
    destruct sx; cbn [cond_Zopp];
      [apply Z.compare_lt_iff|apply Z.compare_gt_iff]; nia.
  - simpl in Hx, Hy.
    pose proof (canonical_compare mx my ex ey Hx Hy) as Hc.
    apply bounded_mantissa in Hx as (Hex & _).
    apply bounded_mantissa in Hy as (Hey & _).
    pose proof (pow_scale_pos ex ltac:(lia)).
    pose proof (pow_scale_pos ey ltac:(lia)).
    unfold SFcompare, scaled. f_equal.
    destruct sx, sy; cbn [cond_Zopp].
    + rewrite !Z.mul_opp_l, Z.compare_opp, (Z.compare_antisym (Z.pos mx * _)), <- Hc.
      by destruct (ex ?= ey).
    + symmetry. apply Z.compare_lt_iff. nia.
    + symmetry. apply Z.compare_gt_iff. nia.
    + done.
Qed.

(** Rounding to nearest, ties to even, against an odd mantissa [c]: the
    result is below [c] exactly when the number does not exceed
    [c - 1/2]. *)
Lemma round_nearest_even_below (M R D c : Z) :
  0 < D → 0 ≤ R < D → Z.odd c = true →
  round_nearest_even M (loc_of R D) < c ↔ 2 * (M * D + R) ≤ (2 * c - 1) * D.
Proof.
  intros HD HR Hc. unfold round_nearest_even, loc_of.
  apply Z.odd_spec in Hc as [c' ->].
  destruct (R =? 0) eqn:ER; [apply Z.eqb_eq in ER|apply Z.eqb_neq in ER].
  { subst R. split; intros; nia. }
  destruct (2 * R ?= D) eqn:EC;
    rewrite ?Z.compare_eq_iff, ?Z.compare_lt_iff, ?Z.compare_gt_iff in EC.
  - destruct (Z.even M) eqn:EM.
    + split; intros; nia.
    + assert (Z.odd M = true) as HM by (by rewrite <- Z.negb_even, EM).
      apply Z.odd_spec in HM as [M' ->]. split; intros; nia.
  - split; intros; nia.
  - split; intros; nia.
Qed.

(** A mantissa that needs no right shift is kept, unless the exponent is
    too large. *)
Lemma binary_round_aux_kept (m : positive) (e : Z) :
  fexp prec emax (Zdigits2 (Z.pos m) + e) ≤ e →
  binary_round_aux prec emax false (Z.pos m) e loc_Exact
  = if e <=? 971 then S754_finite false m e else S754_infinity false.
Proof.
  intros Hf.
  assert (shr_fexp prec emax (Z.pos m) e loc_Exact
          = (shr_record_of_loc (Z.pos m) loc_Exact, e)) as Hshr.
  { unfold shr_fexp, shr.
    destruct (fexp prec emax (Zdigits2 (Z.pos m) + e) - e) eqn:E; [done|lia|done]. }
  unfold binary_round_aux. rewrite Hshr.
  cbn [shr_record_of_loc shr_m loc_of_shr_record round_nearest_even].
  rewrite Hshr. cbn [shr_record_of_loc shr_m]. done.
Qed.

(** Rounding of an integer mantissa of more than 53 bits: the mantissa
    is shifted to 53 bits and rounded to nearest, ties to even. *)
Lemma binary_round_aux_rounded (M e : Z) :
  0 < M → 53 < Zdigits2 M → -1074 ≤ e →
  let k := Zdigits2 M - 53 in
  let r := round_nearest_even (M / 2 ^ k) (loc_of (M `mod` 2 ^ k) (2 ^ k)) in
  2 ^ 52 ≤ r ≤ 2 ^ 53
  ∧ binary_round_aux prec emax false M e loc_Exact
    = if r =? 2 ^ 53
      then (if e + k + 1 <=? 971
            then S754_finite false 4503599627370496 (e + k + 1)
            else S754_infinity false)
      else (if e + k <=? 971
            then S754_finite false (Z.to_pos r) (e + k)
            else S754_infinity false).
Proof.
  intros HM Hd He k r.
  set (d := Zdigits2 M) in *.
  pose proof (Zdigits2_bounds M HM) as [Hlo Hhi]. fold d in Hlo, Hhi.
  assert (0 < k) as Hk by (unfold k; lia).
  assert (0 < 2 ^ k) as Hpowk by (apply Z.pow_pos_nonneg; lia).
  assert (2 ^ d = 2 ^ k * 2 ^ 53) as Hd53.
  { rewrite <- Z.pow_add_r by lia. f_equal. unfold k. lia. }
  assert (2 ^ (d - 1) = 2 ^ k * 2 ^ 52) as Hd52.
  { rewrite <- Z.pow_add_r by lia. f_equal. unfold k. lia. }
  set (M' := M / 2 ^ k) in *.
  set (R' := M `mod` 2 ^ k) in *.
  set (D' := 2 ^ k) in *.
  assert (M = D' * M' + R') as HMeq by (apply Z.div_mod; lia).
  pose proof (Z.mod_pos_bound M D' Hpowk) as HR'. fold R' in HR'.
  assert (2 ^ 52 ≤ M' < 2 ^ 53) as HM'.
  { unfold M'. split.
    - apply Z.div_le_lower_bound; lia.
    - apply Z.div_lt_upper_bound; lia. }
  assert (shr_fexp prec emax M e loc_Exact
          = (shr_record_of_loc M' (loc_of R' D'), e + k)) as Hshr1.
  { unfold shr_fexp, fexp. fold d.
    replace (Z.max (d + e - prec) (SpecFloat.emin prec emax) - e) with k
      by (change (SpecFloat.emin prec emax) with (-1074); change prec with 53;
          unfold k; lia).
    unfold shr. destruct k as [|p|p] eqn:Hkp; [lia| |lia].
    rewrite iter_pos_nat.
    change loc_Exact with (loc_of 0 1).
    destruct (shr_iter_loc_of (Pos.to_nat p) M 0 1) as [-> _]; [lia..|].
    rewrite positive_nat_Z. unfold M', R', D'.
    by rewrite !Z.mul_1_r, Z.add_0_r. }
  destruct (round_nearest_even_bound M' R' D') as (Hr & _ & _); [done..|].
  fold r in Hr. split; [lia|].
  unfold binary_round_aux. rewrite Hshr1.
  rewrite shr_m_record_of_loc, loc_of_shr_record_of_loc. fold r.
  destruct (Z.eqb_spec r (2 ^ 53)) as [Hr53|Hr53].
  - rewrite Hr53. unfold shr_fexp, fexp.
    change (Zdigits2 (2 ^ 53)) with 54.
    replace (Z.max (54 + (e + k) - prec) (SpecFloat.emin prec emax) - (e + k)) with 1
      by (change (SpecFloat.emin prec emax) with (-1074); change prec with 53; lia).
    cbn. done.
  - assert (Zdigits2 r = 53) as Hdr by (apply Zdigits2_unique; lia).
    unfold shr_fexp, fexp. rewrite Hdr.
    replace (Z.max (53 + (e + k) - prec) (SpecFloat.emin prec emax) - (e + k)) with 0
      by (change (SpecFloat.emin prec emax) with (-1074); change prec with 53; lia).
    cbn [shr shr_record_of_loc shr_m].
    destruct r as [|m'|m'] eqn:Hrp; [lia| |lia]. done.
Qed.

Lemma bounded_53 (r e : Z) :
  2 ^ 52 ≤ r < 2 ^ 53 → -1074 ≤ e ≤ 971 →
  SpecFloat.bounded prec emax (Z.to_pos r) e = true.
Proof.
  intros Hr He. unfold SpecFloat.bounded, canonical_mantissa.
  apply andb_true_iff. split; [|apply Z.leb_le; change (emax - prec) with 971; lia].
  apply Z.eqb_eq.
  assert (Z.pos (digits2_pos (Z.to_pos r)) = 53) as ->.
  { change (Z.pos (digits2_pos (Z.to_pos r))) with (Zdigits2 (Z.pos (Z.to_pos r))).
    rewrite Z2Pos.id by lia. apply Zdigits2_unique; lia. }
  unfold fexp. change (SpecFloat.emin prec emax) with (-1074).
  change prec with 53. lia.
Qed.

(** [tie_bound] and the unit [2 ^ (e + 1074)] of an exponent [e], both
    measured by [P = 2 ^ 1001], half the unit of [DELTA]. *)
Lemma tie_scale :
  ∃ P, 0 < P
       ∧ tie_bound = (2 * Z.pos DELTA_mantissa - 1) * P
       ∧ (∀ e, -1074 ≤ e ≤ -73 → P = 2 ^ (-73 - e) * 2 ^ (e + 1074))
       ∧ (∀ e, -73 ≤ e → 2 ^ (e + 1074) = 2 ^ (e + 73) * P).
Proof.
  exists (2 ^ 1001). split; [by apply Z.pow_pos_nonneg|]. split; [done|].
  split; intros e He; rewrite <- Z.pow_add_r by lia; f_equal; lia.
Qed.

Lemma DELTA_mantissa_bounds :
  2 ^ 53 ≤ 2 * Z.pos DELTA_mantissa - 1 < 2 ^ 54.
Proof. by vm_compute. Qed.

Lemma tie_bound_nonneg : 0 ≤ tie_bound.
Proof.
  destruct tie_scale as (P & HP & -> & _). pose proof DELTA_mantissa_bounds.
  apply Z.mul_nonneg_nonneg; lia.
Qed.

(** A number of 53 bits, or the power of two above them, in an exponent
    above that of [DELTA] is more than [tie_bound]. *)
Lemma above_tie_bound (r e : Z) :
  2 ^ 52 ≤ r → -72 < e → tie_bound < r * 2 ^ (e + 1074).
Proof.
  intros Hr He. destruct tie_scale as (P & HP & -> & _ & Hhigh).
  pose proof DELTA_mantissa_bounds as [_ Hc].
  rewrite Hhigh by lia.
  assert (2 ^ 2 ≤ 2 ^ (e + 73)) as HQ by (apply Z.pow_le_mono_r; lia).
  change (2 ^ 2) with 4 in HQ. change (2 ^ 54) with (4 * 2 ^ 52) in Hc.
  set (Q := 2 ^ (e + 73)) in *. set (B := 2 ^ 52) in *.
  set (c := Z.pos DELTA_mantissa) in *.
  assert (0 < B) by (unfold B; lia). clearbody Q B c.
  assert (4 * B ≤ r * Q) by nia.
  assert (4 * B * P ≤ r * Q * P) by (apply Z.mul_le_mono_nonneg_r; lia).
  assert ((2 * c - 1) * P < 4 * B * P) by (apply Z.mul_lt_mono_pos_r; lia).
  lia.
Qed.

(** A number of at most 53 bits, or the power of two above them, in an
    exponent below that of [DELTA] is at most [tie_bound]. *)
Lemma below_tie_bound (r e : Z) :
  0 ≤ r ≤ 2 ^ 53 → -1074 ≤ e < -72 → r * 2 ^ (e + 1074) ≤ tie_bound.
Proof.
  intros Hr He. destruct tie_scale as (P & HP & -> & Hlow & _).
  pose proof DELTA_mantissa_bounds as [Hc _].
  pose proof (Hlow e ltac:(lia)) as HPeq.
  assert (0 < 2 ^ (-73 - e)) as HQ by (apply Z.pow_pos_nonneg; lia).
  pose proof (pow_scale_pos e ltac:(lia)) as HS.
  set (Q := 2 ^ (-73 - e)) in *. set (S := 2 ^ (e + 1074)) in *.
  set (B := 2 ^ 53) in *. set (c := Z.pos DELTA_mantissa) in *.
  assert (0 < B) by (unfold B; lia). clearbody Q S B c.
  assert (S ≤ P) by nia.
  assert (r * S ≤ B * S) by (apply Z.mul_le_mono_nonneg_r; lia).
  assert (B * S ≤ B * P) by (apply Z.mul_le_mono_nonneg_l; lia).
  assert (B * P ≤ (2 * c - 1) * P) by (apply Z.mul_le_mono_nonneg_r; lia).
  lia.
Qed.

(** The outcome of a rounding to 53 bits against [DELTA]. *)
Lemma rounded_lt_DELTA (r fe : Z) :
  2 ^ 52 ≤ r ≤ 2 ^ 53 → -1074 < fe →
  SFltb
    (SFabs
       (if r =? 2 ^ 53
        then (if fe + 1 <=? 971
              then S754_finite false 4503599627370496 (fe + 1)
              else S754_infinity false)
        else (if fe <=? 971
              then S754_finite false (Z.to_pos r) fe
              else S754_infinity false)))
    (S754_finite false DELTA_mantissa (-72)) = true ↔
  r * 2 ^ (fe + 1074) ≤ tie_bound.
Proof.
  intros Hr Hfe.
  destruct (Z.eqb_spec r (2 ^ 53)) as [->|Hne].
  - destruct (Z.leb_spec (fe + 1) 971) as [Hle|Hgt].
    + cbn [SFabs].
      rewrite (canonical_lt_DELTA _ _ (bounded_53 (2 ^ 52) (fe + 1)
                                         ltac:(lia) ltac:(lia))).
      replace (fe + 1 + 1074) with (1 + (fe + 1074)) by lia.
      rewrite Z.pow_add_r by lia. change (2 ^ 1) with 2.
      change (Z.pos (Z.to_pos (2 ^ 52))) with (2 ^ 52).
      change (2 ^ 53) with (2 * 2 ^ 52).
      by rewrite <- !Z.mul_assoc, (Z.mul_comm 2 (2 ^ 52 * _)), <- !Z.mul_assoc,
           (Z.mul_comm _ 2).
    + split; [done|]. intros Hle.
      pose proof (above_tie_bound (2 ^ 53) fe ltac:(lia) ltac:(lia)). lia.
  - destruct (Z.leb_spec fe 971) as [Hle|Hgt].
    + cbn [SFabs].
      rewrite (canonical_lt_DELTA _ _ (bounded_53 r fe ltac:(lia) ltac:(lia))).
      by rewrite Z2Pos.id by lia.
    + split; [done|]. intros Hle.
      pose proof (above_tie_bound r fe ltac:(lia) ltac:(lia)). lia.
Qed.

(** A difference [m * 2 ^ e] rounds to less than [DELTA] in magnitude
    exactly when it does not exceed the midpoint below [DELTA]. *)
Lemma binary_round_tied (s : bool) (m : positive) (e : Z) :
  -1074 ≤ e →
  SFltb (SFabs (binary_round prec emax s m e))
        (S754_finite false DELTA_mantissa (-72)) = true ↔
  Z.pos m * 2 ^ (e + 1074) ≤ tie_bound.
Proof.
  intros He. unfold binary_round.
  set (d := Z.pos (digits2_pos m)).
  pose proof (digits2_pos_bounds m) as [Hlo Hhi]. fold d in Hlo, Hhi.
  assert (0 < d) as Hdpos by done.
  destruct (shl_align_spec m e (fexp prec emax (d + e)))
    as (mz & ez & Hsh & Hez & Hmz).
  rewrite Hsh, (SFabs_binary_round_aux s false).
  unfold fexp in Hez. change (SpecFloat.emin prec emax) with (-1074) in Hez.
  change prec with 53 in Hez.
  pose proof (pow_scale_pos e He) as HS.
  destruct (Z.le_gt_cases d 53) as [Hsmall|Hlarge].
  - (* the difference is a double *)
    assert (-1074 ≤ ez ≤ e) as Hezb by lia.
    assert (0 < 2 ^ (e - ez)) as Hsh2 by (apply Z.pow_pos_nonneg; lia).
    assert (Zdigits2 (Z.pos mz) = d + (e - ez)) as Hdz.
    { rewrite Hmz. apply (Zdigits2_mul_pow (Z.pos m)); lia. }
    assert (fexp prec emax (Zdigits2 (Z.pos mz) + ez) = ez) as Hcanon.
    { rewrite Hdz. unfold fexp. change (SpecFloat.emin prec emax) with (-1074).
      change prec with 53. lia. }
    rewrite binary_round_aux_kept by lia.
    assert (Z.pos mz * 2 ^ (ez + 1074) = Z.pos m * 2 ^ (e + 1074)) as Hval.
    { rewrite Hmz, <- Z.mul_assoc, <- Z.pow_add_r by lia. do 2 f_equal. lia. }
    destruct (Z.leb_spec ez 971) as [Hle|Hgt].
    + cbn [SFabs]. rewrite canonical_lt_DELTA; [by rewrite Hval|].
      unfold SpecFloat.bounded, canonical_mantissa.
      apply andb_true_iff. split; [by apply Z.eqb_eq|by apply Z.leb_le].
    + split; [done|]. intros Hle.
      assert (2 ^ 52 ≤ Z.pos mz) as Hmzlo.
      { pose proof (Zdigits2_bounds (Z.pos mz) ltac:(lia)) as [Hl _].
        rewrite Hdz in Hl.
        assert (2 ^ 52 ≤ 2 ^ (d + (e - ez) - 1)); [|lia].
        apply Z.pow_le_mono_r; lia. }
      pose proof (above_tie_bound (Z.pos mz) ez Hmzlo ltac:(lia)). lia.
  - (* the difference is rounded *)
    assert (ez = e) as -> by lia.
    rewrite Z.sub_diag, Z.mul_1_r in Hmz. injection Hmz as ->.
    destruct (binary_round_aux_rounded (Z.pos m) e) as [Hr Hround]; [done..|].
    change (Zdigits2 (Z.pos m)) with d in Hr, Hround. rewrite Hround. clear Hround.
    set (k := d - 53) in *. assert (0 < k) as Hk by (unfold k; lia).
    set (D' := 2 ^ k) in *.
    assert (0 < D') as HD' by (apply Z.pow_pos_nonneg; lia).
    set (M' := Z.pos m / D') in *. set (R' := Z.pos m `mod` D') in *.
    set (r := round_nearest_even M' (loc_of R' D')) in *.
    assert (Z.pos m = D' * M' + R') as HMeq by (apply Z.div_mod; lia).
    pose proof (Z.mod_pos_bound (Z.pos m) D' HD') as HR'. fold R' in HR'.
    assert (2 ^ d = D' * 2 ^ 53) as Hd53.
    { unfold D'. rewrite <- Z.pow_add_r by lia. f_equal. unfold k. lia. }
    assert (2 ^ (d - 1) = D' * 2 ^ 52) as Hd52.
    { unfold D'. rewrite <- Z.pow_add_r by lia. f_equal. unfold k. lia. }
    assert (2 ^ 52 ≤ M' < 2 ^ 53) as HM'.
    { unfold M'. split.
      - apply Z.div_le_lower_bound; lia.
      - apply Z.div_lt_upper_bound; lia. }
    rewrite rounded_lt_DELTA by lia.
    assert (2 ^ (e + k + 1074) = D' * 2 ^ (e + 1074)) as HU.
    { unfold D'. rewrite <- Z.pow_add_r by lia. f_equal. lia. }
    destruct (Z.lt_trichotomy (e + k) (-72)) as [Hlow|[Heq|Hhigh]].
    + (* below the binade of DELTA: both hold *)
      pose proof (below_tie_bound r (e + k) ltac:(lia) ltac:(lia)) as Hleft.
      pose proof (below_tie_bound (2 ^ 53) (e + k) ltac:(lia) ltac:(lia)) as Htop.
      split; intros _; [|done].
      rewrite HU in Htop. rewrite HMeq.
      set (S := 2 ^ (e + 1074)) in *. set (B := 2 ^ 53) in *.
      clearbody S B.
      assert (D' * M' + R' ≤ B * D') by nia.
      assert ((D' * M' + R') * S ≤ B * D' * S)
        by (apply Z.mul_le_mono_nonneg_r; lia). lia.
    + (* in the binade of DELTA *)
      destruct tie_scale as (P & HP & Htie & _ & Hscale).
      pose proof (Hscale (e + k) ltac:(lia)) as HUP.
      rewrite Heq in HUP. change (2 ^ (-72 + 73)) with 2 in HUP.
      rewrite Heq, HUP, Htie, HMeq.
      rewrite Heq in HU. rewrite HUP in HU.
      pose proof (round_nearest_even_below M' R' D' (Z.pos DELTA_mantissa)
                    HD' HR' eq_refl) as Hrne. fold r in Hrne.
      set (c := Z.pos DELTA_mantissa) in *. set (S := 2 ^ (e + 1074)) in *.
      clearbody c S.
      assert (r * (2 * P) ≤ (2 * c - 1) * P ↔ r < c) as -> by (split; intros; nia).
      rewrite Hrne.
      assert ((D' * M' + R') * S ≤ (2 * c - 1) * P
              ↔ 2 * (D' * M' + R') * S ≤ (2 * c - 1) * (D' * S)) as ->
        by (rewrite <- HU; split; intros; lia).
      replace ((2 * c - 1) * (D' * S)) with ((2 * c - 1) * D' * S) by lia.
      replace (M' * D' + R') with (D' * M' + R') by lia.
      split; intros Hle.
      * apply Z.mul_le_mono_nonneg_r; lia.
      * apply Z.mul_le_mono_pos_r in Hle; lia.
    + (* above the binade of DELTA: neither holds *)
      pose proof (above_tie_bound r (e + k) ltac:(lia) ltac:(lia)) as Hleft.
      pose proof (above_tie_bound (2 ^ 52) (e + k) ltac:(lia) ltac:(lia)) as Hbot.
      split; intros Hle; exfalso; [lia|].
      rewrite HU in Hbot. rewrite HMeq in Hle.
      set (S := 2 ^ (e + 1074)) in *. set (B := 2 ^ 52) in *.
      clearbody S B.
      assert (B * D' ≤ D' * M' + R') by nia.
      assert (B * D' * S ≤ (D' * M' + R') * S)
        by (apply Z.mul_le_mono_nonneg_r; lia). lia.
Qed.

(** The test [abs(x - y) < DELTA] on finite numbers and zeros: the
    values are at most [tie_bound] apart. *)
Lemma SFsub_tied (x y : spec_float) :
  valid_binary x = true → valid_binary y = true →
  (∀ s, x ≠ S754_infinity s) → x ≠ S754_nan →
  (∀ s, y ≠ S754_infinity s) → y ≠ S754_nan →
  SFltb (SFabs (SF64sub x y)) (S754_finite false DELTA_mantissa (-72)) = true ↔
  Z.abs (scaled x - scaled y) ≤ tie_bound.
Proof.
  intros Hx Hy Hxi Hxn Hyi Hyn.
  pose proof tie_bound_nonneg as Ht.
  destruct x as [sx|sx| |sx mx ex]; [|by destruct (Hxi sx)|done|];
    destruct y as [sy|sy| |sy my ey]; try (by destruct (Hyi sy)); try done.
  - split; [intros _; simpl; lia|intros _]. by destruct sx, sy.
  - simpl in Hy. pose proof (bounded_mantissa _ _ Hy) as (He & _).
    pose proof (pow_scale_pos ey ltac:(lia)).
    change (SFabs (SF64sub (S754_zero sx) (S754_finite sy my ey)))
      with (S754_finite false my ey).
    rewrite (canonical_lt_DELTA _ _ Hy). unfold scaled.
    destruct sy; cbn [cond_Zopp]; split; intros; nia.
  - simpl in Hx. pose proof (bounded_mantissa _ _ Hx) as (He & _).
    pose proof (pow_scale_pos ex ltac:(lia)).
    change (SFabs (SF64sub (S754_finite sx mx ex) (S754_zero sy)))
      with (S754_finite false mx ex).
    rewrite (canonical_lt_DELTA _ _ Hx). unfold scaled.
    destruct sx; cbn [cond_Zopp]; split; intros; nia.
  - simpl in Hx, Hy.
    pose proof (bounded_mantissa _ _ Hx) as (Hex & _).
    pose proof (bounded_mantissa _ _ Hy) as (Hey & _).
    unfold SF64sub, SFsub.
    set (ez := Z.min ex ey).
    destruct (shl_align_spec mx ex ez) as (mx' & ex' & -> & Hex' & Hmx').
    destruct (shl_align_spec my ey ez) as (my' & ey' & -> & Hey' & Hmy').
    cbn [fst].
    assert (Z.min ex ez = ez) as Hminx by (unfold ez; lia).
    assert (Z.min ey ez = ez) as Hminy by (unfold ez; lia).
    assert (-1074 ≤ ez) as Hez by (unfold ez; lia).
    assert (scaled (S754_finite sx mx ex) = cond_Zopp sx (Z.pos mx') * 2 ^ (ez + 1074))
      as ->.
    { unfold scaled.
      assert (2 ^ (ex + 1074) = 2 ^ (ex - ez) * 2 ^ (ez + 1074)) as ->.
      { rewrite <- Z.pow_add_r by lia. f_equal. lia. }
      rewrite Hmx', Hex', Hminx.
      destruct sx; cbn [cond_Zopp]; lia. }
    assert (scaled (S754_finite sy my ey) = cond_Zopp sy (Z.pos my') * 2 ^ (ez + 1074))
      as ->.
    { unfold scaled.
      assert (2 ^ (ey + 1074) = 2 ^ (ey - ez) * 2 ^ (ez + 1074)) as ->.
      { rewrite <- Z.pow_add_r by lia. f_equal. lia. }
      rewrite Hmy', Hey', Hminy.
      destruct sy; cbn [cond_Zopp]; lia. }
    rewrite <- Z.mul_sub_distr_r.
    pose proof (pow_scale_pos ez Hez) as HS.
    set (S := 2 ^ (ez + 1074)) in *.
    destruct (cond_Zopp sx (Z.pos mx') - cond_Zopp sy (Z.pos my')) as [|p|p] eqn:Hdiff.
    + split; [intros _; lia|done].
    + cbn [binary_normalize]. rewrite binary_round_tied by done. fold S.
      assert (Z.abs (Z.pos p * S) = Z.pos p * S) as -> by nia. done.
    + cbn [binary_normalize]. rewrite binary_round_tied by done. fold S.
      assert (Z.abs (Z.neg p * S) = Z.pos p * S) as -> by nia. done.
Qed.

Lemma finite_valid (a : float) :
  PrimFloat.is_finite a = true →
  valid_binary (Prim2SF a) = true
  ∧ (∀ s, Prim2SF a ≠ S754_infinity s) ∧ Prim2SF a ≠ S754_nan.
Proof.
  intros Ha. split; [apply Prim2SF_valid|].
  destruct (is_finite_spec a Ha) as [[s ->]|(s & m & e & ->)]; by split.
Qed.

Lemma float_ltb_scaled (a b : float) :
  PrimFloat.is_finite a = true → PrimFloat.is_finite b = true →
  (a <? b)%float = true ↔ scaled (Prim2SF a) < scaled (Prim2SF b).
Proof.
  intros Ha Hb.
  destruct (finite_valid a Ha) as (Hva & Hai & Han).
  destruct (finite_valid b Hb) as (Hvb & Hbi & Hbn).
  rewrite FloatAxioms.ltb_spec. unfold SFltb.
  rewrite (SFcompare_scaled _ _ Hva Hvb Hai Han Hbi Hbn).
  rewrite <- Z.compare_lt_iff. by destruct (_ ?= _).
Qed.

Lemma tied_score (x y : Document) :
  PrimFloat.is_finite (doc_relevance x) = true →
  PrimFloat.is_finite (doc_relevance y) = true →
  tied x y = true ↔ Z.abs (score x - score y) ≤ tie_bound.
Proof.
  intros Hx Hy.
  destruct (finite_valid _ Hx) as (Hvx & Hxi & Hxn).
  destruct (finite_valid _ Hy) as (Hvy & Hyi & Hyn).
  unfold tied. rewrite FloatAxioms.ltb_spec, abs_spec, FloatAxioms.sub_spec.
  rewrite Prim2SF_DELTA. by apply SFsub_tied.
Qed.

Lemma by_relevance_tied (lhs rhs : Document) :
  by_relevance lhs rhs
  = if tied lhs rhs then doc_rating rhs <? doc_rating lhs
    else (doc_relevance rhs <? doc_relevance lhs)%float.
Proof. reflexivity. Qed.

(** The comparator on documents with finite scores, read on integers. *)
Lemma by_relevance_score (x y : Document) :
  PrimFloat.is_finite (doc_relevance x) = true →
  PrimFloat.is_finite (doc_relevance y) = true →
  by_relevance x y = true ↔
  (Z.abs (score x - score y) ≤ tie_bound ∧ doc_rating y < doc_rating x)
  ∨ (tie_bound < Z.abs (score x - score y) ∧ score y < score x).
Proof.
  intros Hx Hy. rewrite by_relevance_tied.
  pose proof (tied_score x y Hx Hy) as Ht.
  destruct (tied x y).
  - rewrite Z.ltb_lt. split; [intros; left; split; [by apply Ht|done]|].
    intros [[_ ?]|[Hgt _]]; [done|]. assert (Z.abs (score x - score y) ≤ tie_bound)
      by by apply Ht. lia.
  - rewrite (float_ltb_scaled _ _ Hy Hx). fold (score x) (score y).
    assert (¬ Z.abs (score x - score y) ≤ tie_bound) as Hn.
    { intros H. apply Ht in H. done. }
    split; [intros; right; lia|]. intros [[? _]|[_ ?]]; [done|done].
Qed.

Lemma by_relevance_score_false (x y : Document) :
  PrimFloat.is_finite (doc_relevance x) = true →
  PrimFloat.is_finite (doc_relevance y) = true →
  by_relevance x y = false ↔
  (Z.abs (score x - score y) ≤ tie_bound ∧ doc_rating x ≤ doc_rating y)
  ∨ (tie_bound < Z.abs (score x - score y) ∧ score x ≤ score y).
Proof.
  intros Hx Hy. pose proof (by_relevance_score x y Hx Hy) as H.
  destruct (by_relevance x y).
  - split; [done|]. intros Hf. assert (true = true) as Ht by done.
    apply H in Ht. lia.
  - split; [|done]. intros _.
    assert (¬ ((Z.abs (score x - score y) ≤ tie_bound ∧ doc_rating y < doc_rating x)
               ∨ (tie_bound < Z.abs (score x - score y) ∧ score y < score x))) as Hn.
    { intros Hc. apply H in Hc. done. }
    lia.
Qed.

(** With finite scores among which "less than [DELTA] apart" is
    transitive, the comparator is a strict weak ordering. *)
Lemma by_relevance_strict_weak_order (l : list Document) :
  finite_scores l → ties_transitive l → strict_weak_order_on by_relevance l.
Proof.
  intros Hfin Htrans.
  assert (∀ x y z, x ∈ l → y ∈ l → z ∈ l →
            Z.abs (score x - score y) ≤ tie_bound →
            Z.abs (score y - score z) ≤ tie_bound →
            Z.abs (score x - score z) ≤ tie_bound) as Ht.
  { intros x y z Hx Hy Hz Hxy Hyz.
    apply tied_score; [by apply Hfin..|].
    apply (Htrans x y z); [done..| |]; apply tied_score; auto. }
  split_and!.
  - intros x Hx. apply by_relevance_score_false; [by apply Hfin..|]. lia.
  - intros x y z Hx Hy Hz.
    rewrite !by_relevance_score by by apply Hfin.
    pose proof (Ht x y z Hx Hy Hz). pose proof (Ht y x z Hy Hx Hz).
    pose proof (Ht x z y Hx Hz Hy). pose proof (Ht z x y Hz Hx Hy).
    pose proof (Ht y z x Hy Hz Hx). pose proof (Ht z y x Hz Hy Hx).
    lia.
  - intros x y z Hx Hy Hz.
    rewrite !by_relevance_score_false by by apply Hfin.
    pose proof (Ht x y z Hx Hy Hz). pose proof (Ht y x z Hy Hx Hz).
    pose proof (Ht x z y Hx Hz Hy). pose proof (Ht z x y Hz Hx Hy).
    pose proof (Ht y z x Hy Hz Hx). pose proof (Ht z y x Hz Hy Hx).
    lia.
Qed.

Lemma by_relevance_descending (x y : Document) :
  PrimFloat.is_finite (doc_relevance x) = true →
  PrimFloat.is_finite (doc_relevance y) = true →
  by_relevance y x = false → descending x y.
Proof.
  intros Hx Hy Hyx. apply by_relevance_score_false in Hyx; [|done..].
  unfold descending. pose proof (tied_score x y Hx Hy) as Ht.
  destruct (tied x y).
  - assert (Z.abs (score x - score y) ≤ tie_bound) by by apply Ht. lia.
  - assert (¬ Z.abs (score x - score y) ≤ tie_bound) as Hn.
    { intros H. apply Ht in H. done. }
    apply float_ltb_scaled; [done..|]. fold (score x) (score y).
    pose proof tie_bound_nonneg. lia.
Qed.

Lemma ordered_by_descending (l : list Document) :
  finite_scores l → ordered_by by_relevance l → StronglySorted descending l.
Proof.
  intros Hfin. induction 1 as [|x l Hl IH Hx]; [constructor|].
  constructor.
  - apply IH. intros y Hy. apply Hfin. by right.
  - apply Forall_forall. intros y Hy. rewrite Forall_forall in Hx.
    apply by_relevance_descending; [apply Hfin; left|apply Hfin; by right|].
    by apply Hx.
Qed.

Lemma finite_scores_check_sound (l : list Document) :
  finite_scores_check l = true → finite_scores l.
Proof.
  unfold finite_scores_check. rewrite forallb_forall. intros H x Hx.
  apply H. by apply list_elem_of_In.
Qed.

Lemma ties_transitive_check_sound (l : list Document) :
  ties_transitive_check l = true → ties_transitive l.
Proof.
  unfold ties_transitive_check. rewrite forallb_forall.
  intros H x y z Hx Hy Hz Hxy Hyz.
  apply list_elem_of_In in Hx, Hy, Hz.
  specialize (H x Hx). rewrite forallb_forall in H.
  specialize (H y Hy). rewrite forallb_forall in H.
  specialize (H z Hz). by rewrite Hxy, Hyz in H.
Qed.

(** ** Order and size of the result *)

Lemma strict_weak_order_check_sound (comp : Document → Document → bool)
    (l : list Document) :
  strict_weak_order_check comp l = true → strict_weak_order_on comp l.
Proof.
  unfold strict_weak_order_check. rewrite !andb_true_iff.
  intros [[Hirr Htrans] Hequiv].
  rewrite forallb_forall in Hirr, Htrans, Hequiv.
  split_and!.
  - intros x Hx. apply list_elem_of_In in Hx. apply Hirr in Hx.
    by apply negb_true_iff.
  - intros x y z Hx Hy Hz Hxy Hyz.
    apply list_elem_of_In in Hx, Hy, Hz.
    specialize (Htrans x Hx). rewrite forallb_forall in Htrans.
    specialize (Htrans y Hy). rewrite forallb_forall in Htrans.
    specialize (Htrans z Hz). by rewrite Hxy, Hyz in Htrans.
  - intros x y z Hx Hy Hz Hxy Hyx Hyz Hzy.
    apply list_elem_of_In in Hx, Hy, Hz.
    specialize (Hequiv x Hx). rewrite forallb_forall in Hequiv.
    specialize (Hequiv y Hy). rewrite forallb_forall in Hequiv.
    specialize (Hequiv z Hz). rewrite Hxy, Hyx, Hyz, Hzy in Hequiv.
    simpl in Hequiv. apply andb_true_iff in Hequiv as [H1 H2].
    by apply negb_true_iff in H1, H2.
Qed.

(** [ordered_by] read on positions: an item never comes, by the
    comparator, before an item found earlier in the list. *)
Lemma ordered_by_lookup (comp : Document → Document → bool) (l : list Document)
    (i j : nat) (x y : Document) :
  ordered_by comp l → (i < j)%nat → l !! i = Some x → l !! j = Some y →
  comp y x = false.
Proof.
  intros Hl. revert i j. induction Hl as [|z l Hl IH Hz]; intros i j Hij Hi Hj.
  { by rewrite lookup_nil in Hi. }
  destruct j as [|j]; [lia|]. destruct i as [|i]; simpl in *.
  - injection Hi as <-. rewrite Forall_forall in Hz. apply Hz.
    by eapply list_elem_of_lookup_2.
  - apply (IH i j); [lia|done..].
Qed.

Lemma ordered_by_truncate (comp : Document → Document → bool) (l : list Document) :
  ordered_by comp l → ordered_by comp (truncate l).
Proof.
  destruct (truncate_prefix l) as [k Hk]. rewrite Hk at 1.
  apply StronglySorted_app_1_l.
Qed.

Section Ordering.

Variable log : float → float.
Variable sort : (Document → Document → bool) → list Document → list Document.
Hypothesis Hsort : sort_contract sort.

(** C2, as the code has it: a result of [FindTopDocuments] has at most
    5 items.  It is ordered by the comparator whenever the comparator is
    a strict weak ordering of the documents found, which is what
    [std::sort] requires.  This is the case whenever the scores of the
    documents found are finite and "less than [DELTA] apart" is
    transitive among them; the result is then in descending order: of
    two items the earlier has the greater relevance or, with relevances
    less than [DELTA] apart, a rating that is not smaller. *)
Theorem FindTopDocuments_ordered (s : SearchServer) (raw_query : string)
    (document_predicate : Z → DocumentStatus → Z → bool) (l : list Document) :
  FindTopDocuments log sort s raw_query document_predicate = Ok (Some l) →
  (length l ≤ 5)%nat
  ∧ ∃ q found,
      ParseQuery s raw_query = Some q
      ∧ FindAllDocuments log s q document_predicate = Ok found
      ∧ (strict_weak_order_on by_relevance found → ordered_by by_relevance l)
      ∧ (finite_scores found → ties_transitive found →
         strict_weak_order_on by_relevance found
         ∧ StronglySorted descending l).
Proof.
  unfold FindTopDocuments. destruct (negb _); [done|].
  destruct (ParseQuery s raw_query) as [q|]; [|done].
  destruct (FindAllDocuments log s q document_predicate) as [found|] eqn:Hfound;
    [|done].
  simpl. intros [= <-]. split; [apply truncate_length|].
  exists q, found. split; [done|]. split; [done|].
  assert (strict_weak_order_on by_relevance found →
          ordered_by by_relevance (truncate (sort by_relevance found))) as Hordered.
  { intros Hswo. apply ordered_by_truncate. by apply (sort_ordered _ Hsort). }
  split; [done|]. intros Hfin Hties.
  pose proof (by_relevance_strict_weak_order found Hfin Hties) as Hswo.
  split; [done|]. apply ordered_by_descending; [|by apply Hordered].
  intros x Hx. apply Hfin. apply elem_of_truncate in Hx.
  by rewrite (sort_permutation _ Hsort) in Hx.
Qed.

(** C10, as the code has it: with [log 1 = 0], a document that matches
    a valid query and whose plus words all have a posting in every
    stored document is an item of the documents found, with relevance
    exactly [+0.0]; it is in the result of [FindTopDocuments] when no
    more than 5 documents are found. *)
Theorem zero_idf_document_found (s : SearchServer) (raw_query : string) (q : Query)
    (document_predicate : Z → DocumentStatus → Z → bool) (d : Z) :
  log 1%float = 0%float →
  consistent s →
  Z.of_nat (size (documents_ s)) ≤ INT_MAX →
  IsValidWord raw_query = true →
  ParseQuery s raw_query = Some q →
  (∃ w, w ∈ plus_words q ∧ has_posting s w d = true) →
  (∀ w, w ∈ plus_words q → has_posting s w d = true → in_every_document s w) →
  (∀ w postings tf, w ∈ plus_words q →
     word_to_document_freqs_ s !! w = Some postings →
     postings !! d = Some tf → PrimFloat.is_finite tf = true) →
  (∀ w, w ∈ minus_words q → has_posting s w d = false) →
  accepts s document_predicate d →
  ∃ found dd,
    FindAllDocuments log s q document_predicate = Ok found
    ∧ documents_ s !! d = Some dd
    ∧ mkDocument d 0%float (rating dd) ∈ found
    ∧ ((length found ≤ 5)%nat →
       ∃ l, FindTopDocuments log sort s raw_query document_predicate = Ok (Some l)
            ∧ mkDocument d 0%float (rating dd) ∈ l).
Proof.
  intros Hlog Hc Hcount Hvalid Hq Hplus Hall Hfin Hminus Hacc.
  destruct (FindAllDocuments_zero log Hlog s document_predicate Hc Hcount q d)
    as (found & dd & Hfound & Hdd & Hin); [done..|].
  exists found, dd. split_and!; [done..|].
  intros Hlen. eexists. split.
  - unfold FindTopDocuments. rewrite Hvalid, Hq. simpl. by rewrite Hfound.
  - rewrite truncate_short.
    + by rewrite (sort_permutation _ Hsort).
    + by rewrite (sort_permutation _ Hsort).
Qed.

End Ordering.

(** The documents that [FindAllDocuments] finds in [long_cats] for the query
    ["cat"], in ascending order of id. *)
Lemma long_cats_found :
  FindAllDocuments log_table long_cats (mkQuery {["cat"%string]} ∅) (status_is ACTUAL)
  = Ok [mkDocument 1 0x1.4a5f2085b7094p-11 1;
        mkDocument 2 0x1.4a124f7603d52p-11 2;
        mkDocument 3 0x1.49c5a216e52a3p-11 3].
Proof. by vm_compute. Qed.

Lemma ordered_check_complete (comp : Document → Document → bool) (l : list Document) :
  ordered_by comp l → ordered_check comp l = true.
Proof.
  induction 1 as [|x l Hl IH Hx]; [done|].
  simpl. rewrite IH, andb_true_r. apply forallb_forall.
  intros y Hy. apply list_elem_of_In in Hy. rewrite Forall_forall in Hx.
  by rewrite (Hx y Hy).
Qed.

Lemma no_overflow_check_sound (ratings : list Z) :
  no_overflow_check ratings = true → no_overflow ratings.
Proof.
  unfold no_overflow_check. rewrite forallb_forall. intros Hall k.
  assert (∀ k, (k ≤ length ratings)%nat → is_int (rating_total (take k ratings)))
    as Hle.
  { intros k' Hk'. specialize (Hall k').
    cbv zeta in Hall. rewrite andb_true_iff, Z.leb_le, Z.leb_le in Hall.
    apply Hall. apply in_seq. lia. }
  destruct (decide (k ≤ length ratings)%nat) as [Hk|Hk]; [by apply Hle|].
  rewrite take_ge by lia. rewrite <- (firstn_all ratings). by apply Hle.
Qed.

Lemma in_every_document_check_sound (s : SearchServer) (word : string) :
  in_every_document_check s word = true → in_every_document s word.
Proof.
  unfold in_every_document_check. rewrite forallb_forall. intros Hall d Hd.
  apply Hall. apply list_elem_of_In. by apply elem_of_map_items_keys.
Qed.

Lemma main_server_2_reachable : reachable main_server_2.
Proof. repeat constructor. Qed.

Lemma six_cats_reachable : reachable six_cats.
Proof. apply add_documents_reachable. constructor. Qed.

Lemma long_cats_reachable : reachable long_cats.
Proof. apply add_documents_reachable. constructor. Qed.

(** C2 as stated fails.  In [long_cats] the three documents with ["cat"]
    score 0.000630134, 0.000629561 and 0.000628990: the first and the
    second are less than [DELTA] apart, and so are the second and the
    third, but not the first and the third.  With ratings 1, 2 and 3 the
    comparator puts the third before the second, the second before the
    first and the first before the third, and no arrangement of the three
    is ordered. *)
Lemma FindTopDocuments_not_ordered :
  reachable long_cats
  ∧ FindTopDocuments log_table insertion_sort long_cats "cat" (status_is ACTUAL)
    = Ok (Some [mkDocument 1 0x1.4a5f2085b7094p-11 1;
                mkDocument 3 0x1.49c5a216e52a3p-11 3;
                mkDocument 2 0x1.4a124f7603d52p-11 2])
  ∧ by_relevance (mkDocument 2 0x1.4a124f7603d52p-11 2)
                 (mkDocument 1 0x1.4a5f2085b7094p-11 1) = true
  ∧ ∀ l, l ≡ₚ [mkDocument 1 0x1.4a5f2085b7094p-11 1;
               mkDocument 3 0x1.49c5a216e52a3p-11 3;
               mkDocument 2 0x1.4a124f7603d52p-11 2] →
         ¬ ordered_by by_relevance l.
Proof.
  split; [apply long_cats_reachable|]. split; [by vm_compute|].
  split; [by vm_compute|].
  intros l Hl Hord. symmetry in Hl. apply permutations_Permutation in Hl.
  apply ordered_check_complete in Hord.
  vm_compute in Hl.
  repeat (apply elem_of_cons in Hl as [->|Hl]; [by vm_compute in Hord|]).
  by apply elem_of_nil in Hl.
Qed.

(** C10 as stated fails.  In [six_cats] the word ["cat"] has a posting in
    each of the six documents and every document matches the query
    ["cat"] with relevance 0, but the result keeps five of them: document
    6 is cut. *)
Lemma zero_idf_document_cut :
  reachable six_cats
  ∧ log_table 1%float = 0%float
  ∧ IsValidWord "cat" = true
  ∧ ParseQuery six_cats "cat" = Some (mkQuery {["cat"%string]} ∅)
  ∧ in_every_document six_cats "cat"
  ∧ accepts six_cats (status_is ACTUAL) 6
  ∧ FindTopDocuments log_table insertion_sort six_cats "cat" (status_is ACTUAL)
    = Ok (Some [mkDocument 1 0 6; mkDocument 2 0 5; mkDocument 3 0 4;
                mkDocument 4 0 3; mkDocument 5 0 2])
  ∧ ∀ doc, doc ∈ [mkDocument 1 0 6; mkDocument 2 0 5; mkDocument 3 0 4;
                  mkDocument 4 0 3; mkDocument 5 0 2] → doc_id doc ≠ 6.
Proof.
  split; [apply six_cats_reachable|]. split; [done|]. split; [done|].
  split; [by vm_compute|].
  split; [by apply in_every_document_check_sound|].
  split. { eexists. split; by vm_compute. }
  split; [by vm_compute|].
  intros doc Hdoc.
  repeat (apply elem_of_cons in Hdoc as [->|Hdoc]; [done|]).
  by apply elem_of_nil in Hdoc.
Qed.

(** ** Accumulated rounding error *)

Lemma roundoff_value : roundoff = (/ 9007199254740992)%R.
Proof.
  unfold roundoff. change 9007199254740992%R with (IZR (2 ^ 53)).
  rewrite bpow_IZR by lia. by rewrite <- powerRZ_neg'.
Qed.

Lemma Rabs_bounds (x y : R) : (Rabs x <= y)%R → (- y <= x <= y)%R.
Proof. unfold Rabs. destruct (Rcase_abs x); lra. Qed.

(** One more addition of [q]: the distance of the total from [j * q]
    grows from [u * j²  * q] to [u * (j + 1)² * q]. *)
Lemma accumulate_error (u q T v v' j : R) :
  (0 <= u)%R → (0 < q)%R → (0 <= j)%R → (u * j <= 1)%R →
  (Rabs (T - j * q) <= u * (j * j) * q)%R →
  (0 <= v <= T)%R →
  (Rabs (v' - (v + q)) <= u * (v + q))%R →
  (Rabs (T - v + v' - (j + 1) * q) <= u * ((j + 1) * (j + 1)) * q)%R.
Proof.
  intros Hu Hq Hj Huj HT Hv Hv'.
  apply Rabs_bounds in HT, Hv'. apply Rabs_le.
  assert (u * (j * j) <= j)%R as Hujj by nra.
  assert (u * v <= u * T)%R as HuvT by nra.
  assert (0 <= u * (j * j) * q)%R as H0 by (repeat apply Rmult_le_pos; lra).
  assert (u * T <= u * (j * q + u * (j * j) * q))%R as HuT by nra.
  assert (u * (u * (j * j) * q) <= u * (j * q))%R as Huu.
  { apply Rmult_le_compat_l; [done|]. nra. }
  split; nra.
Qed.

Lemma total_error (q T n : R) :
  (1 <= n <= 4294967296)%R →
  (Rabs (T - n * q) <= roundoff * (n * n) * q)%R →
  (Rabs (n * q - 1) <= roundoff)%R →
  (Rabs (T - 1) <= 1 / 1000000)%R.
Proof.
  rewrite roundoff_value. intros Hn HT Hq.
  apply Rabs_bounds in HT, Hq. apply Rabs_le.
  assert (/ 9007199254740992 * n <= / 2097152)%R as Hun by lra.
  assert (/ 9007199254740992 * (n * n) * q
          = / 9007199254740992 * n * (n * q))%R as Heq by ring.
  rewrite Heq in HT.
  assert (/ 9007199254740992 * n * (n * q)
          <= / 2097152 * (1 + / 9007199254740992))%R as Hb.
  { apply Rmult_le_compat; lra. }
  split; lra.
Qed.

(** ** Sums over the index *)

Lemma sum_R_Permutation (l1 l2 : list R) : l1 ≡ₚ l2 → sum_R l1 = sum_R l2.
Proof.
  induction 1 as [|x l1 l2 _ IH|x y l|l1 l2 l3 _ IH1 _ IH2]; simpl.
  - done.
  - by rewrite IH.
  - unfold sum_R. simpl. lra.
  - by rewrite IH1.
Qed.

Lemma sum_R_nonneg (l : list R) : Forall (λ x, (0 <= x)%R) l → (0 <= sum_R l)%R.
Proof. induction 1 as [|x l Hx _ IH]; simpl; [lra|]. unfold sum_R in *. simpl. lra. Qed.

Lemma real_of_zero : real_of 0%float = 0%R.
Proof. done. Qed.

Lemma freq_total_insert_fresh (index : gmap string (gmap Z float)) (w : string)
    (p : gmap Z float) (d : Z) :
  index !! w = None →
  freq_total (<[w := p]> index) d
  = (real_of (default 0%float (p !! d)) + freq_total index d)%R.
Proof.
  intros Hw. unfold freq_total.
  rewrite (sum_R_Permutation _ _
             (fmap_Permutation _ _ _ (map_to_list_insert index w p Hw))).
  done.
Qed.

(** Replacing the postings of [w] replaces their term in the total. *)
Lemma freq_total_insert (index : gmap string (gmap Z float)) (w : string)
    (p : gmap Z float) (d : Z) :
  freq_total (<[w := p]> index) d
  = (freq_total index d
     - real_of (default 0%float (default ∅ (index !! w) !! d))
     + real_of (default 0%float (p !! d)))%R.
Proof.
  destruct (index !! w) as [p0|] eqn:Hw; simpl.
  - rewrite <- (insert_delete_eq index w p).
    rewrite <- (insert_delete_id index w p0 Hw) at 2.
    rewrite !freq_total_insert_fresh by apply lookup_delete_eq. lra.
  - rewrite freq_total_insert_fresh by done.
    rewrite lookup_empty. simpl. rewrite real_of_zero. lra.
Qed.

Lemma freq_total_nonneg (index : gmap string (gmap Z float)) (d : Z) :
  (∀ w p tf, index !! w = Some p → p !! d = Some tf → positive_finite tf) →
  (0 <= freq_total index d)%R.
Proof.
  intros Hpos. unfold freq_total. apply sum_R_nonneg.
  apply Forall_fmap, Forall_forall. intros [w p] Hin. simpl.
  apply elem_of_map_to_list in Hin. unfold posting_freq. simpl.
  destruct (p !! d) as [tf|] eqn:Hd; simpl.
  - apply Rlt_le, positive_finite_pos. by eapply Hpos.
  - rewrite real_of_zero. lra.
Qed.

(** A term of the total is at most the total. *)
Lemma freq_total_lookup_le (index : gmap string (gmap Z float)) (w : string)
    (p : gmap Z float) (d : Z) :
  (∀ w p tf, index !! w = Some p → p !! d = Some tf → positive_finite tf) →
  index !! w = Some p →
  (real_of (default 0%float (p !! d)) <= freq_total index d)%R.
Proof.
  intros Hpos Hw.
  rewrite <- (insert_delete_id index w p Hw) at 1.
  rewrite freq_total_insert_fresh by apply lookup_delete_eq.
  assert (0 <= freq_total (delete w index) d)%R; [|lra].
  apply freq_total_nonneg. intros w' p' tf Hw' Hd.
  apply lookup_delete_Some in Hw' as [_ Hw']. by eapply Hpos.
Qed.

Lemma foldl_invariant_prefix {A S} (I : list A → S → Prop)
    (body : S → A → S) (l : list A) (s : S) :
  I [] s →
  (∀ pre x post s, l = pre ++ x :: post → I pre s → I (pre ++ [x]) (body s x)) →
  I l (foldl body s l).
Proof.
  intros Hinit Hstep.
  cut (∀ todo visited s, l = visited ++ todo → I visited s →
         I (visited ++ todo) (foldl body s todo)).
  { intros Hcut. apply (Hcut l [] s); auto. }
  clear s Hinit. induction todo as [|x todo IH]; intros visited s Hl HI.
  - by rewrite app_nil_r.
  - simpl. rewrite (cons_middle x), app_assoc. apply IH.
    + by rewrite <- app_assoc.
    + by eapply Hstep.
Qed.

(** ** The term frequencies of a new document *)

Section NewDocument.

Variable d : Z.
Variable n : Z.
Hypothesis Hn : 1 ≤ n ≤ token_bound.

#[local] Abbreviation q := (inv_word_count_of n).

Lemma inv_word_count_correct :
  positive_finite q ∧ (Rabs (IZR n * real_of q - 1) <= roundoff)%R.
Proof.
  apply float_inv_correct. unfold token_bound in Hn. split; [lia|].
  apply Z.le_lt_trans with (2 ^ 32); [lia|done].
Qed.

Lemma inv_word_count_bounds :
  (0 < real_of q)%R ∧ (IZR n * real_of q <= 1 + roundoff)%R
  ∧ (roundoff * IZR n <= 1)%R.
Proof.
  destruct inv_word_count_correct as [Hpos Herr].
  apply Rabs_bounds in Herr. split; [by apply positive_finite_pos|].
  split; [lra|]. rewrite roundoff_value.
  assert (IZR n <= IZR (2 ^ 32))%R as Hle by (apply IZR_le; apply Hn).
  change (IZR (2 ^ 32)) with 4294967296%R in Hle. lra.
Qed.

Lemma add_freq_after_tokens (j : Z) (index : gmap string (gmap Z float))
    (word : string) :
  0 ≤ j < n → after_tokens d q j index →
  after_tokens d q (j + 1) (add_freq index word d q).
Proof.
  intros Hj [Hpos Htotal].
  destruct inv_word_count_correct as [Hq _].
  destruct inv_word_count_bounds as (Hq0 & Hnq & Hun).
  assert (0 <= IZR j)%R as Hj0 by (apply IZR_le; lia).
  assert (IZR j + 1 <= IZR n)%R as Hjn.
  { rewrite <- plus_IZR. apply IZR_le. lia. }
  assert (0 < roundoff)%R as Hu by (rewrite roundoff_value; lra).
  assert (roundoff <= 1)%R as Hu1 by (rewrite roundoff_value; lra).
  assert (roundoff * IZR j <= 1)%R as Huj by nra.
  set (p := default ∅ (index !! word)).
  set (old := default 0%float (p !! d)).
  assert ((0 <= real_of old <= freq_total index d)%R
          ∧ (old = 0%float ∨ positive_finite old)) as [Hold Hold'].
  { unfold old, p. destruct (index !! word) as [p0|] eqn:Hw; simpl.
    - split.
      + split; [|by apply (freq_total_lookup_le _ word)].
        destruct (p0 !! d) as [tf|] eqn:Hd; simpl.
        * apply Rlt_le, positive_finite_pos. by eapply Hpos.
        * rewrite real_of_zero. lra.
      + destruct (p0 !! d) as [tf|] eqn:Hd; simpl; [right; by eapply Hpos|by left].
    - rewrite lookup_empty. simpl. rewrite real_of_zero.
      split; [|by left]. split; [lra|]. by apply freq_total_nonneg. }
  assert (positive_finite (old + q)
          ∧ (Rabs (real_of (old + q) - (real_of old + real_of q))
             <= roundoff * (real_of old + real_of q))%R) as [Hnew Herr].
  { destruct Hold' as [-> |Hfin].
    - rewrite float_add_zero_l by done. split; [done|].
      rewrite real_of_zero.
      replace (real_of q - (0 + real_of q))%R with 0%R by lra.
      rewrite Rabs_R0. nra.
    - apply float_add_correct; [done..|].
      apply Rabs_bounds in Htotal.
      assert (roundoff * (IZR j * IZR j) * real_of q <= IZR j * real_of q)%R.
      { replace (roundoff * (IZR j * IZR j) * real_of q)%R
          with ((roundoff * IZR j) * (IZR j * real_of q))%R by ring.
        assert (0 <= IZR j * real_of q)%R by nra. nra. }
      assert ((2 * IZR j + 1) * real_of q <= 2 * (IZR n * real_of q))%R by nra.
      lra. }
  unfold add_freq. fold p. fold old. split.
  - intros w p' tf Hw Hd. destruct (decide (w = word)) as [->|Hne].
    + rewrite lookup_insert_eq in Hw. injection Hw as <-.
      rewrite lookup_insert_eq in Hd. by injection Hd as <-.
    + rewrite lookup_insert_ne in Hw by done. by eapply Hpos.
  - rewrite freq_total_insert. fold p. fold old.
    rewrite lookup_insert_eq. simpl.
    rewrite plus_IZR.
    apply accumulate_error; try done; lra.
Qed.

Lemma add_freqs_after_tokens (index : gmap string (gmap Z float))
    (words : list string) :
  Z.of_nat (length words) = n →
  (∀ w p, index !! w = Some p → p !! d = None) →
  after_tokens d q n (foldl (λ index word, add_freq index word d q) index words).
Proof.
  intros Hlen Hfresh.
  cut (after_tokens d q (Z.of_nat (length words))
         (foldl (λ index word, add_freq index word d q) index words)).
  { by rewrite Hlen. }
  apply (foldl_invariant_prefix
           (λ visited index', after_tokens d q (Z.of_nat (length visited)) index')).
  - split.
    + intros w p tf Hw Hd. by rewrite (Hfresh w p Hw) in Hd.
    + change (IZR (Z.of_nat (length (@nil string)))) with 0%R.
      assert (freq_total index d = 0%R) as ->.
      2:{ replace (0 - 0 * real_of q)%R with 0%R by lra. rewrite Rabs_R0. lra. }
      unfold freq_total.
      assert (∀ l : list (string * gmap Z float),
                (∀ e, e ∈ l → e.2 !! d = None) →
                sum_R ((λ entry, real_of (posting_freq d entry)) <$> l) = 0%R)
        as Hzero.
      { induction l as [|e l IH]; intros Hl; [done|].
        rewrite fmap_cons. unfold sum_R in *. simpl.
        rewrite IH by (intros e' He'; apply Hl; by right).
        unfold posting_freq. rewrite (Hl e) by (by left). simpl.
        rewrite real_of_zero. lra. }
      apply Hzero. intros [w p] Hin. apply elem_of_map_to_list in Hin.
      by eapply Hfresh.
  - intros pre x post index' Hwords Hinv.
    rewrite length_app, Nat2Z.inj_add. simpl.
    apply add_freq_after_tokens; [|done].
    rewrite Hwords, length_app in Hlen. simpl in Hlen. lia.
Qed.

(** The term frequencies recorded for the new document sum to 1 within
    one millionth. *)
Lemma add_freqs_total (index : gmap string (gmap Z float)) (words : list string) :
  Z.of_nat (length words) = n →
  (∀ w p, index !! w = Some p → p !! d = None) →
  (∀ w p tf,
     foldl (λ index word, add_freq index word d q) index words !! w = Some p →
     p !! d = Some tf → positive_finite tf)
  ∧ (Rabs (freq_total (foldl (λ index word, add_freq index word d q) index words) d
           - 1) <= 1 / 1000000)%R.
Proof.
  intros Hlen Hfresh.
  destruct (add_freqs_after_tokens index words Hlen Hfresh) as [Hpos Htotal].
  split; [done|].
  destruct inv_word_count_correct as [_ Hq].
  apply (total_error (real_of q) _ (IZR n)); [|done..].
  unfold token_bound in Hn. split.
  - apply (IZR_le 1). lia.
  - apply (IZR_le _ (2 ^ 32)). lia.
Qed.

End NewDocument.

(** ** The other documents are left alone *)

Lemma lookup_freq_Some (index : gmap string (gmap Z float)) (w : string) (d : Z)
    (tf : float) :
  lookup_freq index w d = Some tf ↔
  ∃ p, index !! w = Some p ∧ p !! d = Some tf.
Proof.
  unfold lookup_freq. destruct (index !! w) as [p|]; simpl; naive_solver.
Qed.

Lemma has_posting_lookup_freq (s : SearchServer) (w : string) (d : Z) :
  has_posting s w d = true ↔ is_Some (lookup_freq (word_to_document_freqs_ s) w d).
Proof.
  rewrite has_posting_true. unfold lookup_freq.
  destruct (word_to_document_freqs_ s !! w) as [p|]; simpl.
  - naive_solver.
  - split; [by intros (? & ? & _)|by intros []].
Qed.

Lemma add_freq_other (index : gmap string (gmap Z float)) (word : string)
    (d d' : Z) (inv_word_count : float) :
  d' ≠ d →
  (∀ w, lookup_freq (add_freq index word d inv_word_count) w d'
        = lookup_freq index w d')
  ∧ freq_total (add_freq index word d inv_word_count) d' = freq_total index d'.
Proof.
  intros Hne. unfold add_freq. split.
  - intros w. unfold lookup_freq. destruct (decide (w = word)) as [->|Hw].
    + rewrite lookup_insert_eq. simpl. rewrite lookup_insert_ne by done.
      by destruct (index !! word).
    + by rewrite lookup_insert_ne.
  - rewrite freq_total_insert. rewrite lookup_insert_ne by done. lra.
Qed.

Lemma add_freqs_other (index : gmap string (gmap Z float)) (words : list string)
    (d d' : Z) (inv_word_count : float) :
  d' ≠ d →
  (∀ w, lookup_freq
          (foldl (λ index word, add_freq index word d inv_word_count) index words)
          w d' = lookup_freq index w d')
  ∧ freq_total
      (foldl (λ index word, add_freq index word d inv_word_count) index words) d'
    = freq_total index d'.
Proof.
  intros Hne.
  apply (foldl_invariant (λ _ index',
    (∀ w, lookup_freq index' w d' = lookup_freq index w d')
    ∧ freq_total index' d' = freq_total index d')); [done|].
  intros _ word index' _ [Hlookup Htotal].
  destruct (add_freq_other index' word d d' inv_word_count Hne) as [Hl Ht].
  split; [|congruence]. intros w. by rewrite Hl.
Qed.

(** ** The sum of the term frequencies *)

Lemma AddDocument_normalized (s : SearchServer) (document_id : Z) (document : string)
    (st : DocumentStatus) (ratings : list Z) :
  normalized s →
  Z.of_nat (length (SplitIntoWordsNoStop s document)) ≤ token_bound →
  normalized (AddDocument s document_id document st ratings).2.
Proof.
  intros (Hc & Hpos & Hsum) Hlen.
  split; [by apply AddDocument_consistent|].
  unfold AddDocument.
  destruct (_ || _ || _) eqn:Hcond; [done|].
  apply orb_false_iff in Hcond as [Hcond _].
  apply orb_false_iff in Hcond as [_ Hnew].
  apply bool_decide_eq_false in Hnew.
  destruct (SplitIntoWordsNoStop s document) as [|word words] eqn:Hwords; [done|].
  set (tokens := word :: words) in *.
  set (n := Z.of_nat (length tokens)) in *.
  assert (1 ≤ n ≤ token_bound) as Hn.
  { split; [unfold n, tokens; rewrite length_cons; lia|exact Hlen]. }
  assert (∀ w p, word_to_document_freqs_ s !! w = Some p → p !! document_id = None)
    as Hfresh.
  { intros w p Hw. destruct (p !! document_id) eqn:Hd; [|done].
    destruct Hnew. eapply Hc; eauto. }
  unfold double_of_size. fold n. fold (inv_word_count_of n).
  destruct (add_freqs_total document_id n Hn (word_to_document_freqs_ s) tokens
              eq_refl Hfresh) as [Hpos' Hsum'].
  cbn [snd word_to_document_freqs_]. split.
  - intros w d tf Htf. destruct (decide (d = document_id)) as [->|Hne].
    + apply lookup_freq_Some in Htf as (p & Hw & Hd). by eapply Hpos'.
    + destruct (add_freqs_other (word_to_document_freqs_ s) tokens document_id d
                  (inv_word_count_of n) Hne) as [Hl _].
      rewrite Hl in Htf. by eapply Hpos.
  - intros d Hd. unfold term_freq_sum. cbn [word_to_document_freqs_].
    destruct (decide (d = document_id)) as [->|Hne]; [done|].
    destruct (add_freqs_other (word_to_document_freqs_ s) tokens document_id d
                (inv_word_count_of n) Hne) as [Hl ->].
    apply Hsum. destruct Hd as [w Hw]. exists w.
    apply has_posting_lookup_freq in Hw. cbn [word_to_document_freqs_] in Hw.
    rewrite Hl in Hw.
    by apply has_posting_lookup_freq.
Qed.

Lemma reachable_bounded_normalized (s : SearchServer) :
  reachable_bounded s → normalized s.
Proof.
  assert (∀ stop, normalized (mkSearchServer stop ∅ ∅)) as Hempty.
  { intros stop. split_and!.
    - intros w p d Hw. simpl in Hw. by rewrite lookup_empty in Hw.
    - intros w d tf Htf. by apply lookup_freq_Some in Htf as (p & Hw & _).
    - intros d [w Hw]. by apply has_posting_true in Hw as (p & Hp & _). }
  induction 1 as [| | |s text _ IH|s document_id document st ratings _ IH Hlen].
  - apply Hempty.
  - apply Hempty.
  - apply Hempty.
  - exact IH.
  - by apply AddDocument_normalized.
Qed.

Lemma reachable_bounded_reachable (s : SearchServer) :
  reachable_bounded s → reachable s.
Proof. induction 1; by constructor. Qed.

Lemma AddDocument_index (s s' : SearchServer) (document_id : Z) (document : string)
    (st : DocumentStatus) (ratings : list Z) :
  AddDocument s document_id document st ratings = (true, s') →
  word_to_document_freqs_ s'
  = foldl (λ index word,
             add_freq index word document_id
               (1 / double_of_size (length (SplitIntoWordsNoStop s document))))
          (word_to_document_freqs_ s) (SplitIntoWordsNoStop s document).
Proof.
  unfold AddDocument. destruct (_ || _ || _); [done|].
  destruct (SplitIntoWordsNoStop s document) as [|word words]; by intros [= <-].
Qed.

(** A successful ingestion of a text with at least one token leaves the
    document with a token in the index. *)
Lemma AddDocument_indexed (s s' : SearchServer) (document_id : Z) (document : string)
    (st : DocumentStatus) (ratings : list Z) :
  AddDocument s document_id document st ratings = (true, s') →
  SplitIntoWordsNoStop s document ≠ [] →
  indexed s' document_id.
Proof.
  intros Hadd Hne. apply AddDocument_index in Hadd.
  destruct (SplitIntoWordsNoStop s document) as [|word words] using rev_ind; [done|].
  exists word. apply has_posting_true. rewrite Hadd, foldl_app. simpl.
  unfold add_freq at 1. rewrite lookup_insert_eq. eexists. split; [done|].
  by rewrite lookup_insert_eq.
Qed.

(** C1: in every state built by [AddDocument] calls, a document with at
    least one token in the index has term frequencies that are positive
    binary64 numbers whose sum, over all terms of the index, is within
    one millionth of 1.  The documents are taken to have at most
    [2 ^ 32] tokens each. *)
Theorem term_frequencies_sum_to_one (s : SearchServer) (d : Z) :
  reachable_bounded s →
  indexed s d →
  (Rabs (term_freq_sum s d - 1) <= 1 / 1000000)%R
  ∧ ∀ w tf, lookup_freq (word_to_document_freqs_ s) w d = Some tf →
            positive_finite tf.
Proof.
  intros Hs Hd. destruct (reachable_bounded_normalized s Hs) as (_ & Hpos & Hsum).
  split; [by apply Hsum|]. intros w tf. apply Hpos.
Qed.

(** A posting is never removed. *)
Lemma AddDocument_keeps_indexed (s : SearchServer) (document_id : Z)
    (document : string) (st : DocumentStatus) (ratings : list Z) (d : Z) :
  indexed s d → indexed (AddDocument s document_id document st ratings).2 d.
Proof.
  intros [w Hw]. exists w.
  destruct (AddDocument s document_id document st ratings) as [[] s'] eqn:Hadd.
  2:{ unfold AddDocument in Hadd. destruct (_ || _ || _); [by injection Hadd as <-|].
      by destruct (SplitIntoWordsNoStop s document). }
  apply AddDocument_index in Hadd. simpl.
  apply has_posting_true. rewrite Hadd.
  apply has_posting_true in Hw.
  apply (foldl_invariant (λ _ index,
    ∃ postings, index !! w = Some postings ∧ is_Some (postings !! d))); [done|].
  intros _ word index _ (p & Hp & Hd). unfold add_freq.
  destruct (decide (w = word)) as [->|Hne].
  - rewrite lookup_insert_eq, Hp. simpl. eexists. split; [done|].
    apply lookup_insert_is_Some. destruct (decide (document_id = d)); by eauto.
  - rewrite lookup_insert_ne by done. eauto.
Qed.

Lemma positive_finite_is_finite (x : float) :
  positive_finite x → PrimFloat.is_finite x = true.
Proof.
  intros (m & e & H). unfold PrimFloat.is_finite, is_nan, is_infinity.
  rewrite !FloatAxioms.eqb_spec, abs_spec, H.
  unfold SFeqb, SFabs, SFcompare. rewrite Z.compare_refl, Pos.compare_cont_refl.
  done.
Qed.

(** The stored term frequencies are finite in the states built from
    documents of at most [token_bound] tokens. *)
Lemma reachable_bounded_finite (s : SearchServer) (w : string)
    (postings : gmap Z float) (d : Z) (tf : float) :
  reachable_bounded s →
  word_to_document_freqs_ s !! w = Some postings → postings !! d = Some tf →
  PrimFloat.is_finite tf = true.
Proof.
  intros Hs Hw Hd. apply positive_finite_is_finite.
  destruct (reachable_bounded_normalized s Hs) as (_ & Hpos & _).
  apply (Hpos w d). apply lookup_freq_Some. eauto.
Qed.

(** ** The tokenizer *)

Lemma append_cons (c : ascii) (a b : string) :
  String c a +:+ b = String c (a +:+ b).
Proof. reflexivity. Qed.

Lemma append_nil_r (a : string) : a +:+ EmptyString = a.
Proof. induction a as [|c a IH]; [done|]. by rewrite append_cons, IH. Qed.

Lemma append_assoc (a b c : string) : (a +:+ b) +:+ c = a +:+ (b +:+ c).
Proof. induction a as [|x a IH]; [done|]. by rewrite !append_cons, IH. Qed.

Lemma any_of_append (p : ascii → bool) (a b : string) :
  any_of p (a +:+ b) = any_of p a || any_of p b.
Proof.
  induction a as [|c a IH]; [done|].
  rewrite append_cons. simpl. rewrite IH. by rewrite orb_assoc.
Qed.

(** The tokens already pushed are left alone by the rest of the loop. *)
Lemma SplitIntoWords_loop_pushed (text word : string) (words : list string) :
  SplitIntoWords_loop text word words = words ++ SplitIntoWords_loop text word [].
Proof.
  revert word words. induction text as [|c rest IH]; intros word words; simpl.
  - case_decide; [by rewrite app_nil_r|done].
  - case_decide; [|apply IH]. case_decide; [apply IH|].
    rewrite (IH _ (words ++ [word])), (IH _ ([] ++ [word])).
    by rewrite app_assoc.
Qed.

(** What the loop returns when it is entered with the token [word] under
    construction. *)
Lemma SplitIntoWords_loop_tokens (text word : string) :
  any_of is_space word = false →
  (∀ w, w ∈ SplitIntoWords_loop text word [] →
        w ≠ EmptyString ∧ any_of is_space w = false)
  ∧ foldr String.append EmptyString (SplitIntoWords_loop text word [])
    = word +:+ without_spaces text.
Proof.
  revert word. induction text as [|c rest IH]; intros word Hword; simpl.
  - case_decide as Hw.
    + subst. split; [|done]. intros w Hin. by apply elem_of_nil in Hin.
    + split; [|done]. intros w Hin. apply list_elem_of_singleton in Hin as ->. done.
  - unfold is_space at 2. case_decide as Hc.
    + subst c. rewrite bool_decide_eq_true_2 by done. case_decide as Hw.
      * subst word. by apply IH.
      * rewrite SplitIntoWords_loop_pushed.
        destruct (IH EmptyString) as [Htok Hcat]; [done|]. split.
        -- intros w Hin. apply elem_of_app in Hin as [Hin|Hin]; [|by apply Htok].
           apply list_elem_of_singleton in Hin as ->. done.
        -- simpl. by rewrite Hcat.
    + rewrite bool_decide_eq_false_2 by done.
      destruct (IH (word +:+ String c EmptyString)) as [Htok Hcat].
      { rewrite any_of_append, Hword. simpl. unfold is_space.
        by rewrite bool_decide_eq_false_2. }
      split; [done|]. rewrite Hcat. by rewrite append_assoc.
Qed.

Lemma SplitIntoWords_nonempty (text w : string) :
  w ∈ SplitIntoWords text → w ≠ EmptyString ∧ any_of is_space w = false.
Proof. by apply SplitIntoWords_loop_tokens. Qed.

Lemma SplitIntoWords_concat (text : string) :
  foldr String.append EmptyString (SplitIntoWords text) = without_spaces text.
Proof. by apply SplitIntoWords_loop_tokens. Qed.

Lemma SplitIntoWords_loop_space (a b word : string) :
  SplitIntoWords_loop (a +:+ String " " b) word []
  = SplitIntoWords_loop a word [] ++ SplitIntoWords b.
Proof.
  revert word. induction a as [|c a IH]; intros word.
  - change (EmptyString +:+ String " " b) with (String " " b). simpl.
    case_decide; [by subst|]. by rewrite SplitIntoWords_loop_pushed.
  - rewrite append_cons. simpl.
    case_decide; [|apply IH]. case_decide; [apply IH|].
    rewrite SplitIntoWords_loop_pushed, (SplitIntoWords_loop_pushed a).
    rewrite IH. by rewrite app_assoc.
Qed.

Lemma SplitIntoWords_space (a b : string) :
  SplitIntoWords (a +:+ String " " b) = SplitIntoWords a ++ SplitIntoWords b.
Proof. apply SplitIntoWords_loop_space. Qed.

(** X1: a token is not empty and has no space; the tokens hold, in
    order, every character of the text that is not a space; and the
    tokens of two texts joined by a space are the tokens of the first
    followed by the tokens of the second. *)
Theorem SplitIntoWords_tokens (text : string) :
  (∀ w, w ∈ SplitIntoWords text → w ≠ EmptyString ∧ any_of is_space w = false)
  ∧ foldr String.append EmptyString (SplitIntoWords text) = without_spaces text
  ∧ ∀ rest, SplitIntoWords (text +:+ String " " rest)
            = SplitIntoWords text ++ SplitIntoWords rest.
Proof.
  destruct (SplitIntoWords_loop_tokens text EmptyString) as [Htokens Hconcat];
    [done|].
  split; [done|]. split; [done|]. intros rest. apply SplitIntoWords_loop_space.
Qed.

Lemma SplitIntoWords_loop_word (w word : string) :
  any_of is_space w = false → word +:+ w ≠ EmptyString →
  SplitIntoWords_loop w word [] = [word +:+ w].
Proof.
  revert word. induction w as [|c w IH]; intros word Hsp Hne; simpl.
  - rewrite append_nil_r in *. by case_decide.
  - simpl in Hsp. apply orb_false_iff in Hsp as [Hc Hw].
    unfold is_space in Hc. apply bool_decide_eq_false in Hc.
    case_decide; [done|].
    assert ((word +:+ String c EmptyString) +:+ w = word +:+ String c w) as Heq
      by by rewrite append_assoc.
    rewrite IH; [by rewrite Heq|done|by rewrite Heq].
Qed.

Lemma SplitIntoWords_word (w : string) :
  w ≠ EmptyString → any_of is_space w = false → SplitIntoWords w = [w].
Proof. intros Hne Hsp. by apply (SplitIntoWords_loop_word w EmptyString). Qed.

(** X2: words that are not empty and have no space are found again when
    the text that joins them with single spaces is split. *)
Theorem SplitIntoWords_round_trip (words : list string) :
  Forall (λ w, w ≠ EmptyString ∧ any_of is_space w = false) words →
  SplitIntoWords (join_words words) = words.
Proof.
  induction 1 as [|w ws [Hne Hsp] Hws IH]; [done|].
  destruct ws as [|w' ws]; [by apply SplitIntoWords_word|].
  change (join_words (w :: w' :: ws))
    with (w +:+ String " " (join_words (w' :: ws))).
  rewrite SplitIntoWords_space, IH. by rewrite SplitIntoWords_word.
Qed.

(** ** Stop words *)

Lemma foldl_ext_in {A B} (f g : B → A → B) (l : list A) (b : B) :
  (∀ b x, x ∈ l → f b x = g b x) → foldl f b l = foldl g b l.
Proof.
  revert b. induction l as [|x l IH]; intros b Hfg; [done|]. simpl.
  rewrite (Hfg b x) by left. apply IH. intros b' y Hy. apply Hfg. by right.
Qed.

Lemma elem_of_insert_all (X : gset string) (words : list string) (w : string) :
  w ∈ foldl (λ acc word, {[word]} ∪ acc) X words ↔ w ∈ X ∨ w ∈ words.
Proof.
  revert X. induction words as [|x words IH]; intros X; simpl.
  - rewrite elem_of_nil. tauto.
  - rewrite IH, elem_of_union, elem_of_singleton, elem_of_cons. tauto.
Qed.

Lemma elem_of_SetStopWords (s : SearchServer) (text w : string) :
  w ∈ stop_words_ (SetStopWords s text) ↔
  w ∈ stop_words_ s ∨ w ∈ SplitIntoWords text.
Proof. apply elem_of_insert_all. Qed.

Lemma SearchServer_of_text_SetStopWords (text : string) :
  SearchServer_of_text text = SetStopWords SearchServer_default text.
Proof.
  unfold SearchServer_of_text, SearchServer_of_collection, SetStopWords. simpl.
  f_equal. apply foldl_ext_in. intros acc w Hw.
  apply SplitIntoWords_nonempty in Hw as [Hne _]. by case_decide.
Qed.

(** X3: the constructor from a collection keeps the strings that are not
    empty; the constructor from a text does what [SetStopWords] does to a
    server built by default, since no token is empty.  Both servers have
    no document. *)
Theorem SearchServer_stop_words (stop_words : list string) (text : string) :
  (∀ w, w ∈ stop_words_ (SearchServer_of_collection stop_words) ↔
        w ∈ stop_words ∧ w ≠ EmptyString)
  ∧ SearchServer_of_text text = SetStopWords SearchServer_default text
  ∧ (∀ w, w ∈ stop_words_ (SearchServer_of_text text) ↔ w ∈ SplitIntoWords text)
  ∧ GetDocumentCount (SearchServer_of_collection stop_words) = 0
  ∧ GetDocumentCount (SearchServer_of_text text) = 0.
Proof.
  split_and!; [| |intros w; rewrite SearchServer_of_text_SetStopWords,
                     elem_of_SetStopWords; set_solver |done..].
  - intros w. unfold SearchServer_of_collection. simpl.
    cut (∀ X : gset string,
           w ∈ foldl (λ acc word, if decide (word = EmptyString) then acc
                                  else {[word]} ∪ acc) X stop_words ↔
           w ∈ X ∨ (w ∈ stop_words ∧ w ≠ EmptyString)).
    { intros Hcut. rewrite Hcut. set_solver. }
    induction stop_words as [|x l IH]; intros X; simpl.
    + rewrite elem_of_nil. tauto.
    + rewrite IH, elem_of_cons. case_decide as Hx.
      * subst x. split; [tauto|]. intros [?|[[->|?] ?]]; tauto.
      * rewrite elem_of_union, elem_of_singleton. split; [|tauto].
        intros [[->|?]|?]; tauto.
  - apply SearchServer_of_text_SetStopWords.
Qed.

(** X4: [SetStopWords] adds the tokens of the text to the stop words and
    removes none; it touches neither the index nor the document store, so
    the documents ingested before keep their postings under the new stop
    words.  Two calls amount to one call with the two texts joined by a
    space. *)
Theorem SetStopWords_adds (s : SearchServer) (text text' : string) :
  (∀ w, w ∈ stop_words_ (SetStopWords s text) ↔
        w ∈ stop_words_ s ∨ w ∈ SplitIntoWords text)
  ∧ word_to_document_freqs_ (SetStopWords s text) = word_to_document_freqs_ s
  ∧ documents_ (SetStopWords s text) = documents_ s
  ∧ SetStopWords (SetStopWords s text) text'
    = SetStopWords s (text +:+ String " " text').
Proof.
  split_and!; [apply elem_of_SetStopWords|done..|].
  unfold SetStopWords. simpl. by rewrite SplitIntoWords_space, foldl_app.
Qed.

Lemma SplitIntoWordsNoStop_filter (s : SearchServer) (text : string) :
  SplitIntoWordsNoStop s text
  = filter (λ w, w ∉ stop_words_ s) (SplitIntoWords text).
Proof.
  unfold SplitIntoWordsNoStop.
  cut (∀ l acc, foldl (λ words word, if IsStopWord s word then words
                                      else words ++ [word]) acc l
                = acc ++ filter (λ w, w ∉ stop_words_ s) l).
  { intros Hcut. apply Hcut. }
  induction l as [|w l IH]; intros acc; simpl; [by rewrite app_nil_r|].
  rewrite IH, filter_cons. unfold IsStopWord.
  destruct (decide (w ∈ stop_words_ s)) as [Hw|Hw].
  - rewrite bool_decide_eq_true_2 by done. by rewrite decide_False by tauto.
  - rewrite bool_decide_eq_false_2 by done. rewrite decide_True by done.
    by rewrite <- app_assoc.
Qed.

Lemma elem_of_SplitIntoWordsNoStop (s : SearchServer) (text w : string) :
  w ∈ SplitIntoWordsNoStop s text ↔ w ∈ SplitIntoWords text ∧ w ∉ stop_words_ s.
Proof. rewrite SplitIntoWordsNoStop_filter, list_elem_of_filter. tauto. Qed.

(** ** The average rating *)

Lemma rating_total_bounds (ratings : list Z) (lo hi : Z) :
  (∀ r, r ∈ ratings → lo ≤ r ≤ hi) →
  Z.of_nat (length ratings) * lo ≤ rating_total ratings
  ≤ Z.of_nat (length ratings) * hi.
Proof.
  induction ratings as [|r l IH]; intros Hr; [simpl; lia|].
  unfold rating_total in *. cbn [foldr length].
  pose proof (Hr r ltac:(left)).
  assert (∀ r, r ∈ l → lo ≤ r ≤ hi) as Hl by (intros; apply Hr; by right).
  specialize (IH Hl). lia.
Qed.

Lemma quot_between (a n lo hi : Z) :
  0 < n → n * lo ≤ a ≤ n * hi → lo ≤ a ÷ n ≤ hi.
Proof.
  intros Hn Ha. destruct (Z.le_gt_cases 0 a) as [H0|H0].
  - rewrite Z.quot_div_nonneg by lia. split.
    + apply Z.div_le_lower_bound; lia.
    + apply Z.div_le_upper_bound; lia.
  - rewrite <- (Z.opp_involutive a). rewrite Z.quot_opp_l by lia.
    rewrite Z.quot_div_nonneg by lia.
    assert (- hi ≤ - a / n ≤ - lo); [|lia]. split.
    + apply Z.div_le_lower_bound; lia.
    + apply Z.div_le_upper_bound; lia.
Qed.

(** X5: when the ratings lie between [lo] and [hi], and their number and
    their number times either bound fit in an [int], no partial sum
    overflows and the average rating is their sum divided by their
    number, truncated toward zero; it lies between [lo] and [hi] as
    well. *)
Theorem ComputeAverageRating_between (ratings : list Z) (lo hi : Z) :
  ratings ≠ [] →
  (∀ r, r ∈ ratings → lo ≤ r ≤ hi) →
  Z.of_nat (length ratings) ≤ INT_MAX →
  INT_MIN ≤ Z.of_nat (length ratings) * lo →
  Z.of_nat (length ratings) * hi ≤ INT_MAX →
  ComputeAverageRating ratings = rating_total ratings ÷ Z.of_nat (length ratings)
  ∧ lo ≤ ComputeAverageRating ratings ≤ hi.
Proof.
  intros Hne Hr Hlen Hlo Hhi.
  assert (no_overflow ratings) as Hno.
  { intros k. pose proof (rating_total_bounds (take k ratings) lo hi) as Hk.
    assert (length (take k ratings) ≤ length ratings)%nat as Hle
      by (rewrite length_take; lia).
    unfold is_int, INT_MIN, INT_MAX in *.
    assert (∀ r, r ∈ take k ratings → lo ≤ r ≤ hi) as Hr'.
    { intros r Hin. apply Hr. apply elem_of_take in Hin as (i & Hi & _).
      by eapply list_elem_of_lookup_2. }
    specialize (Hk Hr').
    set (j := Z.of_nat (length (take k ratings))) in *.
    set (n := Z.of_nat (length ratings)) in *.
    assert (0 ≤ j ≤ n) as Hj by lia.
    destruct (Z.le_gt_cases 0 lo), (Z.le_gt_cases 0 hi); nia. }
  rewrite ComputeAverageRating_exact by done. split; [done|].
  apply quot_between.
  - destruct ratings; [done|]. simpl. lia.
  - by apply rating_total_bounds.
Qed.

(** ** Ingestion: success *)

Lemma AddDocument_returns (s : SearchServer) (document_id : Z) (document : string)
    (st : DocumentStatus) (ratings : list Z) :
  (AddDocument s document_id document st ratings).1 = true ↔
  0 ≤ document_id ∧ documents_ s !! document_id = None
  ∧ IsValidWord document = true.
Proof.
  split.
  - destruct (AddDocument s document_id document st ratings) as [b s'] eqn:Hadd.
    simpl. intros ->. apply AddDocument_accepts in Hadd. tauto.
  - intros (Hid & Hnew & Hvalid). unfold AddDocument.
    assert ((document_id <? 0) = false) as -> by (apply Z.ltb_ge; lia).
    rewrite bool_decide_eq_false_2, Hvalid; [|rewrite Hnew; by intros []].
    simpl. by destruct (SplitIntoWordsNoStop s document).
Qed.

(** X6: [AddDocument] succeeds exactly when the id is not negative and
    not in the store and the text is valid.  It then stores the status
    and the average rating under the id, leaves the other documents and
    the stop words as they were, and the document count, as long as it
    is below [INT_MAX], grows by one. *)
Theorem AddDocument_success (s : SearchServer) (document_id : Z) (document : string)
    (st : DocumentStatus) (ratings : list Z) :
  ((AddDocument s document_id document st ratings).1 = true ↔
   0 ≤ document_id ∧ documents_ s !! document_id = None
   ∧ IsValidWord document = true)
  ∧ ∀ s', AddDocument s document_id document st ratings = (true, s') →
      documents_ s' !! document_id
      = Some (mkDocumentData (ComputeAverageRating ratings) st)
      ∧ (∀ d, d ≠ document_id → documents_ s' !! d = documents_ s !! d)
      ∧ stop_words_ s' = stop_words_ s
      ∧ (Z.of_nat (size (documents_ s)) < INT_MAX →
         GetDocumentCount s' = GetDocumentCount s + 1).
Proof.
  split; [apply AddDocument_returns|].
  intros s' Hadd. apply AddDocument_accepts in Hadd as (_ & Hnew & _ & Hstop & Hdocs).
  rewrite Hdocs. split; [by rewrite lookup_insert_eq|].
  split; [intros d Hd; by rewrite lookup_insert_ne|].
  split; [done|]. intros Hsize. unfold GetDocumentCount.
  rewrite Hdocs, map_size_insert_None by done.
  rewrite !wrap_int_id; unfold is_int, INT_MIN, INT_MAX in *; lia.
Qed.

(** X7: after a document was accepted, its id is taken: a second
    [AddDocument] with that id fails, whatever the text, and changes
    nothing. *)
Theorem AddDocument_twice (s s' : SearchServer) (document_id : Z)
    (document document' : string) (st st' : DocumentStatus)
    (ratings ratings' : list Z) :
  AddDocument s document_id document st ratings = (true, s') →
  AddDocument s' document_id document' st' ratings' = (false, s').
Proof.
  intros Hadd. apply AddDocument_accepts in Hadd as (_ & _ & _ & _ & Hdocs).
  apply AddDocument_rejects.
  rewrite bool_decide_eq_true_2, orb_true_r; [done|].
  rewrite Hdocs, lookup_insert_eq. by eexists.
Qed.

(** ** Ingestion: the postings of the new document *)

Lemma lookup_freq_add_freq (index : gmap string (gmap Z float)) (word w : string)
    (document_id : Z) (inv_word_count : float) :
  lookup_freq (add_freq index word document_id inv_word_count) w document_id
  = if decide (w = word)
    then Some (default 0 (lookup_freq index w document_id) + inv_word_count)%float
    else lookup_freq index w document_id.
Proof.
  unfold add_freq, lookup_freq. case_decide as Hw.
  - subst w. rewrite lookup_insert_eq. simpl. rewrite lookup_insert_eq.
    by destruct (index !! word).
  - by rewrite lookup_insert_ne.
Qed.

Lemma occurrences_cons (w x : string) (words : list string) :
  occurrences w (x :: words)
  = if decide (w = x) then S (occurrences w words) else occurrences w words.
Proof.
  unfold occurrences. rewrite filter_cons.
  destruct (decide (x = w)) as [->|Hx].
  - by rewrite decide_True.
  - by rewrite decide_False by congruence.
Qed.

Lemma occurrences_zero (w : string) (words : list string) :
  occurrences w words = O ↔ w ∉ words.
Proof.
  induction words as [|x words IH].
  - split; [|done]. intros _ H. by apply elem_of_nil in H.
  - rewrite occurrences_cons, not_elem_of_cons. case_decide; [|tauto].
    split; [done|tauto].
Qed.

(** The postings of [document_id] after the loop of [AddDocument] over
    [words]. *)
Lemma lookup_freq_add_freqs (index : gmap string (gmap Z float))
    (words : list string) (w : string) (document_id : Z) (inv_word_count : float) :
  lookup_freq
    (foldl (λ index word, add_freq index word document_id inv_word_count)
           index words) w document_id
  = match occurrences w words with
    | O => lookup_freq index w document_id
    | n => Some (Nat.iter n (λ freq, (freq + inv_word_count)%float)
                   (default 0%float (lookup_freq index w document_id)))
    end.
Proof.
  revert index. induction words as [|x words IH]; intros index; [done|].
  simpl. rewrite IH, occurrences_cons, lookup_freq_add_freq.
  case_decide as Hw; [|done].
  destruct (occurrences w words) as [|n]; [done|].
  f_equal. symmetry.
  exact (Nat.iter_succ_r (S n) (λ freq, (freq + inv_word_count)%float)
           (default 0%float (lookup_freq index w document_id))).
Qed.

Lemma consistent_new_document (s : SearchServer) (w : string) (document_id : Z) :
  consistent s → documents_ s !! document_id = None →
  lookup_freq (word_to_document_freqs_ s) w document_id = None.
Proof.
  intros Hc Hnew.
  destruct (lookup_freq _ w document_id) as [tf|] eqn:Htf; [|done].
  apply lookup_freq_Some in Htf as (p & Hp & Hd).
  destruct (Hc w p document_id Hp) as [d Hdoc]; [by eexists|]. congruence.
Qed.

Lemma AddDocument_lookup_freq (s s' : SearchServer) (document_id : Z)
    (document : string) (st : DocumentStatus) (ratings : list Z) (w : string) :
  consistent s →
  AddDocument s document_id document st ratings = (true, s') →
  lookup_freq (word_to_document_freqs_ s') w document_id
  = match occurrences w (SplitIntoWordsNoStop s document) with
    | O => None
    | n => Some (counted
                   (1 / double_of_size (length (SplitIntoWordsNoStop s document)))
                   n)
    end.
Proof.
  intros Hc Hadd. rewrite (AddDocument_index _ _ _ _ _ _ Hadd).
  apply AddDocument_accepts in Hadd as (_ & Hnew & _).
  rewrite lookup_freq_add_freqs, (consistent_new_document s w document_id Hc Hnew).
  done.
Qed.

Lemma AddDocument_has_posting (s s' : SearchServer) (document_id : Z)
    (document : string) (st : DocumentStatus) (ratings : list Z) (w : string) :
  consistent s →
  AddDocument s document_id document st ratings = (true, s') →
  has_posting s' w document_id = true ↔
  w ∈ SplitIntoWords document ∧ w ∉ stop_words_ s.
Proof.
  intros Hc Hadd. rewrite has_posting_lookup_freq.
  rewrite (AddDocument_lookup_freq _ _ _ _ _ _ w Hc Hadd).
  rewrite <- elem_of_SplitIntoWordsNoStop.
  destruct (occurrences w (SplitIntoWordsNoStop s document)) as [|n] eqn:Hocc.
  - apply occurrences_zero in Hocc. split; [by intros []|done].
  - split; [|by eexists]. intros _.
    destruct (decide (w ∈ SplitIntoWordsNoStop s document)) as [|Hn]; [done|].
    apply occurrences_zero in Hn. congruence.
Qed.

Lemma AddDocument_other_lookup_freq (s s' : SearchServer) (document_id : Z)
    (document : string) (st : DocumentStatus) (ratings : list Z) (w : string) (d : Z) :
  AddDocument s document_id document st ratings = (true, s') →
  d ≠ document_id →
  lookup_freq (word_to_document_freqs_ s') w d
  = lookup_freq (word_to_document_freqs_ s) w d.
Proof.
  intros Hadd Hd. rewrite (AddDocument_index _ _ _ _ _ _ Hadd).
  by apply add_freqs_other.
Qed.

(** X8: in the index that a successful [AddDocument] leaves, the new document
    has a posting under exactly the tokens of its text that are not stop
    words, and the term frequencies of the other documents are the ones
    they had. *)
Theorem AddDocument_postings (s s' : SearchServer) (document_id : Z)
    (document : string) (st : DocumentStatus) (ratings : list Z) :
  consistent s →
  AddDocument s document_id document st ratings = (true, s') →
  (∀ w, has_posting s' w document_id = true ↔
        w ∈ SplitIntoWords document ∧ w ∉ stop_words_ s)
  ∧ (∀ w d, d ≠ document_id →
            lookup_freq (word_to_document_freqs_ s') w d
            = lookup_freq (word_to_document_freqs_ s) w d).
Proof.
  intros Hc Hadd. split.
  - intros w. by eapply AddDocument_has_posting.
  - intros w d Hd. by eapply AddDocument_other_lookup_freq.
Qed.

(** X9: the term frequency recorded for a word of the new document is
    [inv_word_count] added to [0.0] once for each occurrence of the word,
    in binary64 arithmetic; a word that does not occur gets no posting. *)
Theorem AddDocument_term_frequency (s s' : SearchServer) (document_id : Z)
    (document : string) (st : DocumentStatus) (ratings : list Z) (w : string) :
  consistent s →
  AddDocument s document_id document st ratings = (true, s') →
  lookup_freq (word_to_document_freqs_ s') w document_id
  = match occurrences w (SplitIntoWordsNoStop s document) with
    | O => None
    | n => Some (counted
                   (1 / double_of_size (length (SplitIntoWordsNoStop s document)))
                   n)
    end.
Proof. apply AddDocument_lookup_freq. Qed.

(** ** The order of ingestion *)

Lemma add_freq_commute (index : gmap string (gmap Z float)) (w1 w2 : string)
    (d1 d2 : Z) (q1 q2 : float) :
  d1 ≠ d2 →
  add_freq (add_freq index w1 d1 q1) w2 d2 q2
  = add_freq (add_freq index w2 d2 q2) w1 d1 q1.
Proof.
  intros Hd. unfold add_freq. destruct (decide (w1 = w2)) as [->|Hw].
  - rewrite !lookup_insert_eq, !insert_insert_eq. simpl.
    rewrite !lookup_insert_ne by done. f_equal. by apply insert_insert_ne.
  - rewrite !lookup_insert_ne by done. by apply insert_insert_ne.
Qed.

Lemma foldl_commute {A B S} (f : S → A → S) (g : S → B → S)
    (la : list A) (lb : list B) (s : S) :
  (∀ s a b, g (f s a) b = f (g s b) a) →
  foldl g (foldl f s la) lb = foldl f (foldl g s lb) la.
Proof.
  intros Hfg. revert s. induction la as [|a la IH]; intros s; [done|]. simpl.
  rewrite IH. f_equal. clear IH. revert s.
  induction lb as [|b lb IH]; intros s; [done|]. simpl. by rewrite <- IH, Hfg.
Qed.

Lemma AddDocument_state (s s' : SearchServer) (document_id : Z) (document : string)
    (st : DocumentStatus) (ratings : list Z) :
  AddDocument s document_id document st ratings = (true, s') →
  s' = mkSearchServer (stop_words_ s)
         (foldl (λ index word,
                   add_freq index word document_id
                     (1 / double_of_size (length (SplitIntoWordsNoStop s document))))
                (word_to_document_freqs_ s) (SplitIntoWordsNoStop s document))
         (<[document_id := mkDocumentData (ComputeAverageRating ratings) st]>
            (documents_ s)).
Proof.
  intros Hadd. pose proof (AddDocument_index _ _ _ _ _ _ Hadd) as Hindex.
  apply AddDocument_accepts in Hadd as (_ & _ & _ & Hstop & Hdocs).
  destruct s' as [sw idx docs]. simpl in *. by subst.
Qed.

Lemma SplitIntoWordsNoStop_stop_words (s s' : SearchServer) (text : string) :
  stop_words_ s = stop_words_ s' →
  SplitIntoWordsNoStop s text = SplitIntoWordsNoStop s' text.
Proof. intros Hstop. by rewrite !SplitIntoWordsNoStop_filter, Hstop. Qed.

(** X10: the state after two documents were ingested does not depend on
    which of the two came first: taken in the other order, both are
    accepted again and the state reached is the same. *)
Theorem AddDocument_order (s s1 s12 : SearchServer) (id1 id2 : Z)
    (document1 document2 : string) (st1 st2 : DocumentStatus)
    (ratings1 ratings2 : list Z) :
  AddDocument s id1 document1 st1 ratings1 = (true, s1) →
  AddDocument s1 id2 document2 st2 ratings2 = (true, s12) →
  ∃ s2, AddDocument s id2 document2 st2 ratings2 = (true, s2)
        ∧ AddDocument s2 id1 document1 st1 ratings1 = (true, s12).
Proof.
  intros Hadd1 Hadd2.
  pose proof (AddDocument_state _ _ _ _ _ _ Hadd1) as Hs1.
  pose proof (AddDocument_state _ _ _ _ _ _ Hadd2) as Hs12.
  pose proof (AddDocument_accepts _ _ _ _ _ _ Hadd1)
    as (Hid1 & Hnew1 & Hvalid1 & Hstop1 & Hdocs1).
  pose proof (AddDocument_accepts _ _ _ _ _ _ Hadd2)
    as (Hid2 & Hnew2 & Hvalid2 & Hstop2 & Hdocs2).
  assert (id1 ≠ id2) as Hne.
  { intros ->. by rewrite Hdocs1, lookup_insert_eq in Hnew2. }
  rewrite Hdocs1, lookup_insert_ne in Hnew2 by done.
  destruct (AddDocument s id2 document2 st2 ratings2) as [b s2] eqn:Hadd2'.
  assert (b = true) as ->.
  { change b with (b, s2).1. rewrite <- Hadd2'. by apply AddDocument_returns. }
  exists s2. split; [done|].
  pose proof (AddDocument_state _ _ _ _ _ _ Hadd2') as Hs2.
  pose proof (AddDocument_accepts _ _ _ _ _ _ Hadd2') as (_ & _ & _ & Hstop2' & Hdocs2').
  destruct (AddDocument s2 id1 document1 st1 ratings1) as [b s21] eqn:Hadd1'.
  assert (b = true) as ->.
  { change b with (b, s21).1. rewrite <- Hadd1'. apply AddDocument_returns.
    split; [done|]. split; [|done]. by rewrite Hdocs2', lookup_insert_ne. }
  f_equal. rewrite (AddDocument_state _ _ _ _ _ _ Hadd1'), Hs12.
  rewrite (SplitIntoWordsNoStop_stop_words s1 s document2) by done.
  rewrite (SplitIntoWordsNoStop_stop_words s2 s document1) by done.
  rewrite Hs1, Hs2. simpl. f_equal.
  - apply foldl_commute. intros index w1 w2. by apply add_freq_commute.
  - by apply insert_insert_ne.
Qed.

(** ** Query parsing: the rejected queries *)

Lemma IsValidWord_false (w : string) :
  IsValidWord w = false ↔ w = "-"%string ∨ any_of is_control w = true.
Proof.
  unfold IsValidWord. case_decide as Hw.
  - split; [by left|done].
  - rewrite negb_false_iff. split; [by right|by intros [?|?]].
Qed.

Lemma ParseQueryWord_None (s : SearchServer) (w : string) :
  ParseQueryWord s w = None ↔
  w = "-"%string ∨ (∃ x, w = String "-" (String "-" x))
  ∨ any_of is_control w = true.
Proof.
  split.
  - intros Hnone.
    destruct (IsValidWord w) eqn:Hvalid.
    2:{ apply IsValidWord_false in Hvalid. tauto. }
    destruct (ParseQueryWord s w) as [qw|] eqn:Hqw; [done|]. clear Hnone.
    unfold ParseQueryWord in Hqw. rewrite Hvalid in Hqw. simpl in Hqw.
    destruct w as [|c rest]; [done|].
    destruct (decide (c = "-"%char)) as [->|Hc].
    + destruct rest as [|c' rest']; [done|].
      destruct (decide (c' = "-"%char)) as [->|Hc']; [right; left; by eexists|].
      destruct c' as [[] [] [] [] [] [] [] []]; done.
    + destruct c as [[] [] [] [] [] [] [] []]; done.
  - intros [->|[[x ->]|Hctl]].
    + apply ParseQueryWord_bare_minus.
    + apply ParseQueryWord_double_minus.
    + unfold ParseQueryWord. by rewrite (any_of_control_invalid _ Hctl).
Qed.

Lemma ParseQuery_loop_None (s : SearchServer) (words : list string) (q : Query) :
  ParseQuery_loop s words q = None ↔
  ∃ w, w ∈ words ∧ ParseQueryWord s w = None.
Proof.
  revert q. induction words as [|w ws IH]; intros q; simpl.
  - split; [done|]. intros (w & Hw & _). by apply elem_of_nil in Hw.
  - destruct (ParseQueryWord s w) as [qw|] eqn:Hqw.
    + assert (∀ q', ParseQuery_loop s ws q' = None ↔
                    ∃ w0, w0 ∈ w :: ws ∧ ParseQueryWord s w0 = None) as Hrest.
      { intros q'. rewrite IH. split.
        - intros (w0 & Hin & Hnone). exists w0. split; [by right|done].
        - intros (w0 & Hin & Hnone). exists w0. split; [|done].
          apply elem_of_cons in Hin as [->|Hin]; [congruence|done]. }
      destruct (is_stop qw); [apply Hrest|]. destruct (is_minus qw); apply Hrest.
    + split; [|done]. intros _. exists w. split; [by left|done].
Qed.

Lemma any_of_without_spaces (p : ascii → bool) (text : string) :
  p " "%char = false → any_of p (without_spaces text) = any_of p text.
Proof.
  intros Hp. induction text as [|c rest IH]; [done|]. simpl.
  unfold is_space. case_bool_decide as Hc.
  - subst c. by rewrite Hp.
  - simpl. by rewrite IH.
Qed.

Lemma any_of_concat (p : ascii → bool) (words : list string) :
  any_of p (foldr String.append EmptyString words) = true ↔
  ∃ w, w ∈ words ∧ any_of p w = true.
Proof.
  induction words as [|x words IH]; simpl.
  - split; [done|]. intros (w & Hw & _). by apply elem_of_nil in Hw.
  - rewrite any_of_append, orb_true_iff, IH. split.
    + intros [Hx|(w & Hw & Hp)]; [exists x|exists w]; split; try done;
        [by left|by right].
    + intros (w & Hw & Hp). apply elem_of_cons in Hw as [->|Hw]; [by left|].
      right. by exists w.
Qed.

(** A character that is not a space is in the text exactly when it is in
    a token. *)
Lemma any_of_tokens (p : ascii → bool) (text : string) :
  p " "%char = false →
  any_of p text = true ↔ ∃ w, w ∈ SplitIntoWords text ∧ any_of p w = true.
Proof.
  intros Hp. rewrite <- any_of_concat, SplitIntoWords_concat.
  by rewrite any_of_without_spaces.
Qed.

Lemma ParseQuery_None (s : SearchServer) (text : string) :
  ParseQuery s text = None ↔ malformed text.
Proof.
  unfold ParseQuery, malformed. rewrite ParseQuery_loop_None.
  rewrite (any_of_tokens is_control text) by done. split.
  - intros (w & Hw & Hnone). apply ParseQueryWord_None in Hnone.
    destruct Hnone as [?|[?|?]]; [left|left|right]; exists w; tauto.
  - intros [(w & Hw & Hshape)|(w & Hw & Hctl)]; exists w; (split; [done|]);
      apply ParseQueryWord_None; tauto.
Qed.

Lemma ParseQuery_valid (s : SearchServer) (text : string) (q : Query) :
  ParseQuery s text = Some q → IsValidWord text = true.
Proof.
  intros Hq. destruct (IsValidWord text) eqn:Hvalid; [done|].
  assert (ParseQuery s text = None); [|congruence].
  apply ParseQuery_None. apply IsValidWord_false in Hvalid as [->|Hctl].
  - left. exists "-"%string. split; [|by left]. by vm_compute; left.
  - by right.
Qed.

(** X11: [ParseQuery] refuses a text exactly when one of its tokens is ["-"],
    starts with ["--"] or has a control character.  The stop words play no
    part in it, and a text that [IsValidWord] refuses is refused by
    [ParseQuery] as well. *)
Theorem ParseQuery_rejects (s : SearchServer) (text : string) :
  (ParseQuery s text = None ↔
   ∃ w, w ∈ SplitIntoWords text
        ∧ (w = "-"%string ∨ (∃ x, w = String "-" (String "-" x))
           ∨ any_of is_control w = true))
  ∧ (IsValidWord text = false → ParseQuery s text = None).
Proof.
  split.
  - unfold ParseQuery. rewrite ParseQuery_loop_None.
    split; intros (w & Hw & H); exists w; (split; [done|]);
      by apply (ParseQueryWord_None s).
  - intros Hvalid. destruct (ParseQuery s text) as [q|] eqn:Hq; [|done].
    apply ParseQuery_valid in Hq. congruence.
Qed.

(** ** Query parsing: the accepted queries *)

Lemma ParseQuery_sets (s : SearchServer) (text : string) (q : Query) :
  ParseQuery s text = Some q →
  (∀ t, t ∈ plus_words q ↔
        t ∈ SplitIntoWords text ∧ (∀ r, t ≠ String "-" r) ∧ t ∉ stop_words_ s)
  ∧ (∀ t, t ∈ minus_words q ↔
          String "-" t ∈ SplitIntoWords text ∧ t ∉ stop_words_ s).
Proof.
  intros Hq. apply ParseQuery_loop_sets in Hq as [Hp Hm]. simpl in *.
  unfold IsStopWord in *.
  split; intros t; [rewrite Hp|rewrite Hm]; rewrite bool_decide_eq_false;
    set_solver.
Qed.

Lemma ParseQuery_word_shape (s : SearchServer) (text : string) (q : Query) (w : string) :
  ParseQuery s text = Some q →
  w ∈ plus_words q ∨ w ∈ minus_words q →
  w ≠ EmptyString ∧ (∀ r, w ≠ String "-" r)
  ∧ any_of is_space w = false ∧ any_of is_control w = false
  ∧ w ∉ stop_words_ s.
Proof.
  intros Hq Hw. pose proof (ParseQuery_sets _ _ _ Hq) as [Hp Hm].
  pose proof (ParseQuery_loop_words _ _ _ _ Hq) as Hwords.
  destruct Hw as [Hw|Hw].
  - apply Hp in Hw as (Htok & Hplus & Hstop).
    destruct (SplitIntoWords_nonempty _ _ Htok) as [Hne Hsp].
    split_and!; try done.
    destruct (any_of is_control w) eqn:Hctl; [|done].
    destruct (Hwords w Htok) as [qw Hqw].
    assert (ParseQueryWord s w = None); [|congruence].
    apply ParseQueryWord_None. tauto.
  - apply Hm in Hw as (Htok & Hstop).
    destruct (SplitIntoWords_nonempty _ _ Htok) as [_ Hsp].
    destruct (Hwords _ Htok) as [qw Hqw].
    assert (ParseQueryWord s (String "-" w) ≠ None) as Hsome by congruence.
    rewrite ParseQueryWord_None in Hsome.
    split_and!; [| |done| |done].
    + intros ->. apply Hsome. by left.
    + intros r ->. apply Hsome. right. left. by eexists.
    + destruct (any_of is_control w) eqn:Hctl; [|done].
      destruct Hsome. right. right. simpl. by rewrite Hctl.
Qed.

(** X12: a word of an accepted query, plus or minus, is not empty, does not
    start with ["-"], has neither a space nor a control character, and is
    no stop word. *)
Theorem ParseQuery_words (s : SearchServer) (text : string) (q : Query) (w : string) :
  ParseQuery s text = Some q →
  w ∈ plus_words q ∨ w ∈ minus_words q →
  w ≠ EmptyString ∧ (∀ r, w ≠ String "-" r)
  ∧ any_of is_space w = false ∧ any_of is_control w = false
  ∧ w ∉ stop_words_ s.
Proof. apply ParseQuery_word_shape. Qed.

Lemma Query_eq (q q' : Query) :
  (∀ t, t ∈ plus_words q ↔ t ∈ plus_words q') →
  (∀ t, t ∈ minus_words q ↔ t ∈ minus_words q') →
  q = q'.
Proof.
  destruct q as [p m], q' as [p' m']. simpl. intros Hp Hm.
  f_equal; by apply set_eq.
Qed.

(** The outcome of [ParseQuery] depends on the tokens of the text as a
    set, and on the stop words. *)
Lemma ParseQuery_ext (s s' : SearchServer) (a b : string) :
  stop_words_ s = stop_words_ s' →
  (∀ w, w ∈ SplitIntoWords a ↔ w ∈ SplitIntoWords b) →
  ParseQuery s a = ParseQuery s' b.
Proof.
  intros Hstop Hab.
  destruct (ParseQuery s a) as [q|] eqn:Hq, (ParseQuery s' b) as [q'|] eqn:Hq'.
  - f_equal. apply ParseQuery_sets in Hq as [Hp Hm].
    apply ParseQuery_sets in Hq' as [Hp' Hm'].
    apply Query_eq; intros t.
    + by rewrite Hp, Hp', Hab, Hstop.
    + by rewrite Hm, Hm', Hab, Hstop.
  - apply ParseQuery_None in Hq'.
    assert (malformed a) as Ha; [|apply (ParseQuery_None s) in Ha; congruence].
    destruct Hq' as [(w & Hw & Hshape)|Hctl].
    + left. exists w. by rewrite Hab.
    + apply (any_of_tokens is_control) in Hctl as (w & Hw & Hc); [|done].
      right. apply (any_of_tokens is_control); [done|]. exists w. by rewrite Hab.
  - apply ParseQuery_None in Hq.
    assert (malformed b) as Hb; [|apply (ParseQuery_None s') in Hb; congruence].
    destruct Hq as [(w & Hw & Hshape)|Hctl].
    + left. exists w. by rewrite <- Hab.
    + apply (any_of_tokens is_control) in Hctl as (w & Hw & Hc); [|done].
      right. apply (any_of_tokens is_control); [done|]. exists w. by rewrite <- Hab.
  - done.
Qed.

Section Queries.

Variable log : float → float.
Variable sort : (Document → Document → bool) → list Document → list Document.

Lemma FindTopDocuments_absent (s : SearchServer) (raw_query : string)
    (document_predicate : Z → DocumentStatus → Z → bool) :
  FindTopDocuments log sort s raw_query document_predicate = Ok None ↔
  ParseQuery s raw_query = None.
Proof.
  unfold FindTopDocuments.
  destruct (ParseQuery s raw_query) as [q|] eqn:Hq.
  - rewrite (ParseQuery_valid _ _ _ Hq). simpl.
    by destruct (FindAllDocuments log s q document_predicate).
  - by destruct (negb _).
Qed.

Lemma MatchDocument_absent (s : SearchServer) (raw_query : string) (document_id : Z) :
  MatchDocument s raw_query document_id = Ok None ↔
  ParseQuery s raw_query = None.
Proof.
  unfold MatchDocument.
  destruct (ParseQuery s raw_query) as [q|] eqn:Hq.
  - rewrite (ParseQuery_valid _ _ _ Hq). simpl. unfold map_at.
    by destruct (documents_ s !! document_id).
  - by destruct (negb _).
Qed.

(** X13: [FindTopDocuments] and [MatchDocument] give the absent result exactly
    for the queries that [ParseQuery] refuses, in every state: their own
    test of the raw query by [IsValidWord] refuses nothing that
    [ParseQuery] accepts. *)
Theorem absent_result_iff_rejected (s : SearchServer) (raw_query : string)
    (document_predicate : Z → DocumentStatus → Z → bool) (document_id : Z) :
  (FindTopDocuments log sort s raw_query document_predicate = Ok None ↔
   ParseQuery s raw_query = None)
  ∧ (MatchDocument s raw_query document_id = Ok None ↔
     ParseQuery s raw_query = None)
  ∧ (∀ q, ParseQuery s raw_query = Some q → IsValidWord raw_query = true).
Proof.
  split; [apply FindTopDocuments_absent|].
  split; [apply MatchDocument_absent|]. apply ParseQuery_valid.
Qed.

Lemma FindTopDocuments_ext (s : SearchServer) (a b : string)
    (document_predicate : Z → DocumentStatus → Z → bool) :
  (∀ w, w ∈ SplitIntoWords a ↔ w ∈ SplitIntoWords b) →
  FindTopDocuments log sort s a document_predicate
  = FindTopDocuments log sort s b document_predicate.
Proof.
  intros Hab. pose proof (ParseQuery_ext s s a b eq_refl Hab) as Hq.
  unfold FindTopDocuments. rewrite <- Hq.
  destruct (ParseQuery s a) as [q|] eqn:Ha.
  - rewrite (ParseQuery_valid s a q Ha), (ParseQuery_valid s b q); [done|].
    by rewrite <- Hq.
  - by do 2 destruct (negb _).
Qed.

(** X14: two queries with the same tokens, in whatever order and however often
    repeated, are parsed to the same sets of words and get the same
    answers from [FindTopDocuments] and [MatchDocument]. *)
Theorem query_tokens_as_set (s : SearchServer) (a b : string)
    (document_predicate : Z → DocumentStatus → Z → bool) (document_id : Z) :
  (∀ w, w ∈ SplitIntoWords a ↔ w ∈ SplitIntoWords b) →
  ParseQuery s a = ParseQuery s b
  ∧ FindTopDocuments log sort s a document_predicate
    = FindTopDocuments log sort s b document_predicate
  ∧ MatchDocument s a document_id = MatchDocument s b document_id.
Proof.
  intros Hab. pose proof (ParseQuery_ext s s a b eq_refl Hab) as Hq.
  split; [done|]. split; [by apply FindTopDocuments_ext|].
  unfold MatchDocument. rewrite <- Hq.
  destruct (ParseQuery s a) as [q|] eqn:Ha.
  - rewrite (ParseQuery_valid s a q Ha), (ParseQuery_valid s b q); [done|].
    by rewrite <- Hq.
  - by do 2 destruct (negb _).
Qed.

End Queries.

(** ** The order of the words of a set *)

Lemma ascii_compare_Lt (a b : ascii) :
  (a ?= b)%char = Lt ↔ (N_of_ascii a < N_of_ascii b)%N.
Proof. unfold Ascii.compare. apply N.compare_lt_iff. Qed.

Lemma ascii_compare_Eq (a b : ascii) : (a ?= b)%char = Eq ↔ a = b.
Proof.
  split; [apply Ascii.compare_eq_iff|]. intros ->.
  unfold Ascii.compare. apply N.compare_refl.
Qed.

Lemma string_compare_refl (a : string) : (a ?= a)%string = Eq.
Proof.
  induction a as [|c a IH]; [done|]. simpl.
  by rewrite (proj2 (ascii_compare_Eq c c) eq_refl).
Qed.

Lemma string_compare_Lt_trans (a b c : string) :
  (a ?= b)%string = Lt → (b ?= c)%string = Lt → (a ?= c)%string = Lt.
Proof.
  revert b c. induction a as [|x a IH]; intros [|y b] [|z c]; simpl; try done.
  destruct (x ?= y)%char eqn:Hxy; [| |done].
  - apply ascii_compare_Eq in Hxy as ->.
    destruct (y ?= z)%char; [apply IH|done|done].
  - intros _. destruct (y ?= z)%char eqn:Hyz; [| |done].
    + apply ascii_compare_Eq in Hyz as <-. by rewrite Hxy.
    + intros _. apply ascii_compare_Lt in Hxy. apply ascii_compare_Lt in Hyz.
      assert ((x ?= z)%char = Lt) as ->; [|done].
      apply ascii_compare_Lt. by apply (N.lt_trans _ (N_of_ascii y)).
Qed.

Lemma string_le_spec (a b : string) :
  string_le a b ↔ a = b ∨ (a ?= b)%string = Lt.
Proof.
  unfold string_le, String.leb. destruct (a ?= b)%string eqn:Hab.
  - apply String.compare_eq_iff in Hab. tauto.
  - tauto.
  - split; [done|]. intros [->|?]; [|done]. by rewrite string_compare_refl in Hab.
Qed.

#[local] Instance string_le_trans : Transitive string_le.
Proof.
  intros a b c. rewrite !string_le_spec.
  intros [->|Hab] [->|Hbc]; try tauto.
  right. by eapply string_compare_Lt_trans.
Qed.

#[local] Instance string_le_total : Total string_le.
Proof. intros a b. apply String.leb_total. Qed.

Lemma set_items_sorted (X : gset string) : StronglySorted string_le (set_items X).
Proof. apply (StronglySorted_merge_sort _). Qed.

Lemma NoDup_set_items (X : gset string) : NoDup (set_items X).
Proof.
  unfold set_items. rewrite merge_sort_Permutation. apply NoDup_elements.
Qed.

Lemma StronglySorted_filter {A} (R : relation A) (P : A → Prop)
    `{∀ x, Decision (P x)} (l : list A) :
  StronglySorted R l → StronglySorted R (filter P l).
Proof.
  induction 1 as [|x l Hl IH Hx]; [constructor|].
  rewrite filter_cons. case_decide; [|done]. constructor; [done|].
  apply Forall_forall. intros y Hy. apply list_elem_of_filter in Hy as [_ Hy].
  by eapply Forall_forall in Hx.
Qed.

(** ** Matching one document *)

Lemma matched_plus_words (s : SearchServer) (document_id : Z) (words : list string) :
  foldl (λ matched word,
           if has_posting s word document_id then matched ++ [word] else matched)
        [] words
  = filter (λ w, has_posting s w document_id = true) words.
Proof.
  cut (∀ acc, foldl (λ matched word,
                       if has_posting s word document_id then matched ++ [word]
                       else matched) acc words
              = acc ++ filter (λ w, has_posting s w document_id = true) words).
  { intros Hcut. apply Hcut. }
  induction words as [|w l IH]; intros acc; simpl; [by rewrite app_nil_r|].
  rewrite IH, filter_cons. destruct (has_posting s w document_id).
  - rewrite decide_True by done. by rewrite <- app_assoc.
  - by rewrite decide_False by done.
Qed.

Lemma clear_on_minus_none (s : SearchServer) (document_id : Z)
    (words matched : list string) :
  (∀ w, w ∈ words → has_posting s w document_id = false) →
  clear_on_minus s document_id words matched = matched.
Proof.
  induction words as [|w ws IH]; intros Hno; [done|]. simpl.
  rewrite (Hno w) by left. apply IH. intros w' Hw'. apply Hno. by right.
Qed.

Lemma MatchDocument_words (s : SearchServer) (raw_query : string) (q : Query)
    (document_id : Z) (d : DocumentData) :
  ParseQuery s raw_query = Some q →
  documents_ s !! document_id = Some d →
  ∃ words,
    MatchDocument s raw_query document_id = Ok (Some (words, status d))
    ∧ (∀ w, w ∈ words ↔
            w ∈ plus_words q ∧ has_posting s w document_id = true
            ∧ ∀ m, m ∈ minus_words q → has_posting s m document_id = false)
    ∧ StronglySorted string_le words ∧ NoDup words.
Proof.
  intros Hq Hd. unfold MatchDocument.
  rewrite Hq, (ParseQuery_valid _ _ _ Hq). simpl.
  unfold map_at. rewrite Hd. simpl. eexists. split; [done|].
  rewrite matched_plus_words.
  destruct (decide (∃ m, m ∈ minus_words q ∧ has_posting s m document_id = true))
    as [(m & Hm & Hp)|Hno].
  - rewrite (clear_on_minus_found s document_id _ _ m);
      [|by apply elem_of_set_items|done].
    split; [|split; constructor]. intros w. split.
    + intros Hw. by apply elem_of_nil in Hw.
    + intros (_ & _ & Hnone). rewrite (Hnone m Hm) in Hp. done.
  - assert (∀ m, m ∈ minus_words q → has_posting s m document_id = false) as Hnone.
    { intros m Hm. destruct (has_posting s m document_id) eqn:E; [|done].
      destruct Hno. eauto. }
    rewrite clear_on_minus_none.
    2:{ intros w Hw. apply Hnone. by apply elem_of_set_items. }
    split; [|split].
    + intros w. rewrite list_elem_of_filter, elem_of_set_items. tauto.
    + apply StronglySorted_filter, set_items_sorted.
    + apply NoDup_filter, NoDup_set_items.
Qed.

(** X15: for a query that [ParseQuery] accepts, [MatchDocument] throws
    [std::out_of_range] exactly when the document id is not in the store;
    for a refused query the result is absent and nothing is thrown,
    whether the id is in the store or not. *)
Theorem MatchDocument_missing_document (s : SearchServer) (raw_query : string)
    (document_id : Z) :
  (MatchDocument s raw_query document_id = OutOfRange ↔
   is_Some (ParseQuery s raw_query) ∧ documents_ s !! document_id = None)
  ∧ (ParseQuery s raw_query = None →
     MatchDocument s raw_query document_id = Ok None).
Proof.
  split; [|apply MatchDocument_absent].
  destruct (ParseQuery s raw_query) as [q|] eqn:Hq.
  - destruct (documents_ s !! document_id) as [d|] eqn:Hd.
    + destruct (MatchDocument_words s raw_query q document_id d Hq Hd)
        as (words & -> & _).
      split; [done|]. by intros [_ ?].
    + split; [by eauto|]. intros _. unfold MatchDocument.
      rewrite Hq, (ParseQuery_valid _ _ _ Hq). simpl. unfold map_at. by rewrite Hd.
  - rewrite (proj2 (MatchDocument_absent s raw_query document_id) Hq).
    split; [done|]. by intros [[] _].
Qed.

(** X16: for an accepted query and a stored document, [MatchDocument] returns
    the status of the document and the plus words of the query that have
    a posting in it, in ascending order and each once; if a minus word of
    the query has a posting in the document, it returns no word at all. *)
Theorem MatchDocument_returns_plus_words (s : SearchServer) (raw_query : string)
    (q : Query) (document_id : Z) (d : DocumentData) :
  ParseQuery s raw_query = Some q →
  documents_ s !! document_id = Some d →
  ∃ words,
    MatchDocument s raw_query document_id = Ok (Some (words, status d))
    ∧ (∀ w, w ∈ words ↔
            w ∈ plus_words q ∧ has_posting s w document_id = true
            ∧ ∀ m, m ∈ minus_words q → has_posting s m document_id = false)
    ∧ StronglySorted string_le words ∧ NoDup words.
Proof. apply MatchDocument_words. Qed.

(** ** The documents found *)

Lemma item_of_ids (s : SearchServer) (entries : list (Z * float)) (l : list Document) :
  Forall2 (item_of s) entries l → doc_id <$> l = entries.*1.
Proof.
  induction 1 as [|e doc es l [He _] _ IH]; [done|].
  by rewrite !fmap_cons, He, IH.
Qed.

Lemma item_of_rating (s : SearchServer) (entries : list (Z * float))
    (l : list Document) (doc : Document) :
  Forall2 (item_of s) entries l → doc ∈ l →
  rating <$> documents_ s !! doc_id doc = Some (doc_rating doc).
Proof.
  induction 1 as [|e doc' es l (He & _ & Hr) _ IH]; intros Hin.
  - by apply elem_of_nil in Hin.
  - apply elem_of_cons in Hin as [->|Hin]; [by rewrite He|by apply IH].
Qed.

Lemma StronglySorted_lt_NoDup (l : list Z) : StronglySorted Z.lt l → NoDup l.
Proof.
  induction 1 as [|x l _ IH Hx]; constructor; [|done].
  intros Hin. eapply Forall_forall in Hx; [|done]. lia.
Qed.

Section Results.

Variable log : float → float.
Variable sort : (Document → Document → bool) → list Document → list Document.
Hypothesis Hsort : sort_contract sort.

Lemma FindAllDocuments_items (s : SearchServer) (q : Query)
    (key_mapper : Z → DocumentStatus → Z → bool) :
  consistent s →
  ∃ found,
    FindAllDocuments log s q key_mapper = Ok found
    ∧ StronglySorted Z.lt (doc_id <$> found)
    ∧ (∀ d, d ∈ doc_id <$> found ↔ matches s q key_mapper d)
    ∧ (∀ doc, doc ∈ found →
              rating <$> documents_ s !! doc_id doc = Some (doc_rating doc)).
Proof.
  intros Hc.
  destruct (FindAllDocuments_matches log s key_mapper Hc q)
    as (m1 & found & _ & Hfound & Hitems & Hids & _).
  exists found. split_and!; [done| |done|].
  - rewrite (item_of_ids _ _ _ Hitems). apply map_items_ascending.
  - intros doc. by eapply item_of_rating.
Qed.

(** X17: in a consistent state [FindAllDocuments] throws nothing and returns
    one item for each document that has a plus word of the query, passes
    the predicate and has no minus word, and for no other; the items come
    in ascending order of id and carry the stored rating. *)
Theorem FindAllDocuments_finds_matches (s : SearchServer) (q : Query)
    (key_mapper : Z → DocumentStatus → Z → bool) :
  consistent s →
  ∃ found,
    FindAllDocuments log s q key_mapper = Ok found
    ∧ StronglySorted Z.lt (doc_id <$> found)
    ∧ (∀ d, d ∈ doc_id <$> found ↔ matches s q key_mapper d)
    ∧ (∀ doc, doc ∈ found →
              rating <$> documents_ s !! doc_id doc = Some (doc_rating doc)).
Proof. apply FindAllDocuments_items. Qed.

Lemma truncate_take (l : list Document) : truncate l = take 5 l.
Proof.
  unfold truncate, MAX_RESULT_DOCUMENT_COUNT.
  destruct (5 <? Z.of_nat (length l)) eqn:E; [done|].
  apply Z.ltb_ge in E. rewrite take_ge; [done|lia].
Qed.

Lemma FindTopDocuments_items (s : SearchServer) (raw_query : string) (q : Query)
    (document_predicate : Z → DocumentStatus → Z → bool) :
  consistent s →
  ParseQuery s raw_query = Some q →
  ∃ found l,
    FindAllDocuments log s q document_predicate = Ok found
    ∧ FindTopDocuments log sort s raw_query document_predicate = Ok (Some l)
    ∧ l = take 5 (sort by_relevance found)
    ∧ NoDup (doc_id <$> l)
    ∧ (∀ doc, doc ∈ l →
              matches s q document_predicate (doc_id doc)
              ∧ rating <$> documents_ s !! doc_id doc = Some (doc_rating doc)).
Proof.
  intros Hc Hq.
  destruct (FindAllDocuments_items s q document_predicate Hc)
    as (found & Hfound & Hsorted & Hids & Hrating).
  exists found, (take 5 (sort by_relevance found)).
  split; [done|]. split.
  { unfold FindTopDocuments.
    rewrite Hq, (ParseQuery_valid _ _ _ Hq). simpl. rewrite Hfound. simpl.
    by rewrite truncate_take. }
  split; [done|].
  pose proof (sort_permutation _ Hsort by_relevance found) as Hperm. split.
  - rewrite fmap_take. apply (sublist_NoDup _ (doc_id <$> sort by_relevance found)).
    + rewrite Hperm. by apply StronglySorted_lt_NoDup.
    + apply sublist_take.
  - intros doc Hdoc.
    assert (doc ∈ found) as Hin.
    { rewrite <- Hperm. eapply elem_of_take in Hdoc as (i & Hi & _).
      by eapply list_elem_of_lookup_2. }
    split; [|by apply Hrating].
    apply Hids. apply list_elem_of_fmap. eauto.
Qed.

(** X18: in a consistent state, for an accepted query, [FindTopDocuments]
    throws nothing; no document is listed twice; every item is a document
    that matches the query and passes the predicate, with its stored
    rating.  The list has as many items as there are matching documents,
    up to 5; with 5 matching documents or fewer, all of them are
    listed. *)
Theorem FindTopDocuments_lists_matches (s : SearchServer) (raw_query : string)
    (q : Query) (document_predicate : Z → DocumentStatus → Z → bool) :
  consistent s →
  ParseQuery s raw_query = Some q →
  ∃ found l,
    FindAllDocuments log s q document_predicate = Ok found
    ∧ FindTopDocuments log sort s raw_query document_predicate = Ok (Some l)
    ∧ NoDup (doc_id <$> l)
    ∧ (∀ doc, doc ∈ l →
              matches s q document_predicate (doc_id doc)
              ∧ rating <$> documents_ s !! doc_id doc = Some (doc_rating doc))
    ∧ length l = Nat.min 5 (length found)
    ∧ ((length found ≤ 5)%nat →
       ∀ d, matches s q document_predicate d ↔ d ∈ doc_id <$> l).
Proof.
  intros Hc Hq.
  destruct (FindTopDocuments_items s raw_query q document_predicate Hc Hq)
    as (found & l & Hfound & Htop & Hl & Hnodup & Hitems).
  destruct (FindAllDocuments_items s q document_predicate Hc)
    as (found' & Hfound' & _ & Hids & _).
  assert (found' = found) as -> by congruence.
  pose proof (sort_permutation _ Hsort by_relevance found) as Hperm.
  exists found, l. split_and!; [done..| |].
  - rewrite Hl, length_take, Hperm. lia.
  - intros Hlen d. rewrite <- Hids, Hl.
    rewrite take_ge by (rewrite Hperm; lia). by rewrite Hperm.
Qed.

Lemma accepts_status_is (s : SearchServer) (st : DocumentStatus) (d : Z) :
  accepts s (status_is st) d ↔ status <$> documents_ s !! d = Some st.
Proof.
  unfold accepts, status_is. split.
  - intros (dd & -> & Hst). apply bool_decide_eq_true in Hst. by rewrite <- Hst.
  - destruct (documents_ s !! d) as [dd|]; [|done]. intros [= Hst].
    exists dd. split; [done|]. by apply bool_decide_eq_true.
Qed.

(** X19: the overload that takes a status lists only documents stored with
    that status, and the overload that takes none lists only documents
    stored as [ACTUAL]: it is the former called with [ACTUAL]. *)
Theorem FindTopDocuments_by_status (s : SearchServer) (raw_query : string)
    (st : DocumentStatus) :
  consistent s →
  FindTopDocuments_actual log sort s raw_query
  = FindTopDocuments_status log sort s raw_query ACTUAL
  ∧ ∃ r, FindTopDocuments_status log sort s raw_query st = Ok r
         ∧ ∀ l doc, r = Some l → doc ∈ l →
                    status <$> documents_ s !! doc_id doc = Some st.
Proof.
  intros Hc. split; [done|]. unfold FindTopDocuments_status.
  destruct (ParseQuery s raw_query) as [q|] eqn:Hq.
  - destruct (FindTopDocuments_items s raw_query q (status_is st) Hc Hq)
      as (found & l & _ & Htop & _ & _ & Hitems).
    eexists. split; [done|]. intros l' doc [= <-] Hdoc.
    destruct (Hitems doc Hdoc) as [(_ & Hacc & _) _].
    by apply accepts_status_is.
  - exists None. split; [|done]. by apply FindTopDocuments_absent.
Qed.

Lemma set_items_empty : set_items ∅ = [].
Proof.
  apply Permutation_nil_r. unfold set_items.
  by rewrite merge_sort_Permutation, elements_empty.
Qed.

Lemma map_items_empty {V} : map_items (∅ : gmap Z V) = [].
Proof.
  apply Permutation_nil_r. unfold map_items.
  by rewrite merge_sort_Permutation, map_to_list_empty.
Qed.

Lemma erase_minus_words_empty (s : SearchServer) (words : list string) :
  foldl (erase_minus_word s) ∅ words = ∅.
Proof.
  induction words as [|w words IH]; [done|]. simpl.
  assert (erase_minus_word s ∅ w = ∅) as ->; [|done].
  unfold erase_minus_word. destruct (word_to_document_freqs_ s !! w) as [p|]; [|done].
  induction (map_items p) as [|e l IHl]; [done|]. simpl.
  by rewrite delete_empty.
Qed.

(** X20: a query without plus words finds nothing, in every state: for the
    empty query, a query of spaces, of stop words or of minus words alone,
    the result is the present, empty list. *)
Theorem FindTopDocuments_no_plus_words (s : SearchServer) (raw_query : string)
    (q : Query) (document_predicate : Z → DocumentStatus → Z → bool) :
  ParseQuery s raw_query = Some q →
  plus_words q = ∅ →
  FindTopDocuments log sort s raw_query document_predicate = Ok (Some [])
  ∧ FindTopDocuments log sort s EmptyString document_predicate = Ok (Some []).
Proof.
  assert (∀ raw q, ParseQuery s raw = Some q → plus_words q = ∅ →
            FindTopDocuments log sort s raw document_predicate = Ok (Some []))
    as Hgen.
  { intros raw q' Hq Hplus. unfold FindTopDocuments.
    rewrite Hq, (ParseQuery_valid _ _ _ Hq). simpl.
    unfold FindAllDocuments. rewrite Hplus, set_items_empty. simpl.
    rewrite erase_minus_words_empty, map_items_empty. simpl.
    pose proof (sort_permutation _ Hsort by_relevance []) as Hperm.
    apply Permutation_nil_r in Hperm. by rewrite Hperm. }
  intros Hq Hplus. split; [by eapply Hgen|].
  by apply (Hgen EmptyString (mkQuery ∅ ∅)).
Qed.

(** X21: [FindAllDocuments] and [MatchDocument] agree: a stored document is
    found for an accepted query exactly when it passes the predicate and
    [MatchDocument] reports at least one word for it. *)
Theorem found_iff_matched_words (s : SearchServer) (raw_query : string) (q : Query)
    (key_mapper : Z → DocumentStatus → Z → bool) (document_id : Z)
    (d : DocumentData) :
  consistent s →
  ParseQuery s raw_query = Some q →
  documents_ s !! document_id = Some d →
  ∃ found words,
    FindAllDocuments log s q key_mapper = Ok found
    ∧ MatchDocument s raw_query document_id = Ok (Some (words, status d))
    ∧ (document_id ∈ doc_id <$> found ↔
       key_mapper document_id (status d) (rating d) = true ∧ words ≠ []).
Proof.
  intros Hc Hq Hd.
  destruct (FindAllDocuments_items s q key_mapper Hc)
    as (found & Hfound & _ & Hids & _).
  destruct (MatchDocument_words s raw_query q document_id d Hq Hd)
    as (words & Hmatch & Hwords & _).
  exists found, words. split; [done|]. split; [done|].
  rewrite Hids. unfold matches, accepts. rewrite Hd. split.
  - intros ((w & Hw & Hp) & (dd & [= <-] & Hkey) & Hno). split; [done|].
    assert (w ∈ words) as Hin by (apply Hwords; tauto).
    intros ->. by apply elem_of_nil in Hin.
  - intros [Hkey Hne]. destruct words as [|w ws]; [done|].
    destruct (proj1 (Hwords w)) as (Hw & Hp & Hno); [by left|].
    split; [by eauto|]. split; [by eauto|done].
Qed.

End Results.

(** ** Ingestion and search *)

Lemma ParseQuery_stop_words (s s' : SearchServer) (text : string) :
  stop_words_ s = stop_words_ s' → ParseQuery s text = ParseQuery s' text.
Proof. intros Hstop. by apply ParseQuery_ext. Qed.

Lemma AddDocument_ParseQuery (s s' : SearchServer) (document_id : Z)
    (document : string) (st : DocumentStatus) (ratings : list Z) (text : string) :
  AddDocument s document_id document st ratings = (true, s') →
  ParseQuery s' text = ParseQuery s text.
Proof.
  intros Hadd. apply AddDocument_accepts in Hadd as (_ & _ & _ & Hstop & _).
  by apply ParseQuery_stop_words.
Qed.

Lemma has_posting_ext (s s' : SearchServer) (w : string) (d : Z) :
  lookup_freq (word_to_document_freqs_ s') w d
  = lookup_freq (word_to_document_freqs_ s) w d →
  has_posting s' w d = has_posting s w d.
Proof.
  intros Heq. apply eq_true_iff_eq. rewrite !has_posting_lookup_freq. by rewrite Heq.
Qed.

Lemma AddDocument_other_matches (s s' : SearchServer) (document_id : Z)
    (document : string) (st : DocumentStatus) (ratings : list Z) (q : Query)
    (key_mapper : Z → DocumentStatus → Z → bool) (d : Z) :
  AddDocument s document_id document st ratings = (true, s') →
  d ≠ document_id →
  matches s' q key_mapper d ↔ matches s q key_mapper d.
Proof.
  intros Hadd Hd.
  assert (∀ w, has_posting s' w d = has_posting s w d) as Hp.
  { intros w. apply has_posting_ext. by eapply AddDocument_other_lookup_freq. }
  apply AddDocument_accepts in Hadd as (_ & _ & _ & _ & Hdocs).
  unfold matches, accepts. rewrite Hdocs, lookup_insert_ne by done.
  by setoid_rewrite Hp.
Qed.

Section Composition.

Variable log : float → float.
Variable sort : (Document → Document → bool) → list Document → list Document.
Hypothesis Hsort : sort_contract sort.

(** X22: ingesting a document does not change how a query is parsed, nor
    which of the other documents are found for it. *)
Theorem AddDocument_keeps_other_matches (s s' : SearchServer) (document_id : Z)
    (document : string) (st : DocumentStatus) (ratings : list Z)
    (raw_query : string) (q : Query) (key_mapper : Z → DocumentStatus → Z → bool) :
  consistent s →
  AddDocument s document_id document st ratings = (true, s') →
  ParseQuery s' raw_query = ParseQuery s raw_query
  ∧ ∃ found found',
      FindAllDocuments log s q key_mapper = Ok found
      ∧ FindAllDocuments log s' q key_mapper = Ok found'
      ∧ ∀ d, d ≠ document_id →
             d ∈ doc_id <$> found' ↔ d ∈ doc_id <$> found.
Proof.
  intros Hc Hadd. split; [by eapply AddDocument_ParseQuery|].
  assert (consistent s') as Hc'.
  { pose proof (AddDocument_consistent s document_id document st ratings Hc) as H.
    by rewrite Hadd in H. }
  destruct (FindAllDocuments_items log s q key_mapper Hc)
    as (found & Hfound & _ & Hids & _).
  destruct (FindAllDocuments_items log s' q key_mapper Hc')
    as (found' & Hfound' & _ & Hids' & _).
  exists found, found'. split; [done|]. split; [done|].
  intros d Hd. rewrite Hids, Hids'. by eapply AddDocument_other_matches.
Qed.

(** X23: a document whose text has no word left after the stop words are
    taken out (the empty text is one) is stored, but it gets no posting:
    no query finds it, and [MatchDocument] reports no word for it. *)
Theorem AddDocument_without_words (s s' : SearchServer) (document_id : Z)
    (document : string) (st : DocumentStatus) (ratings : list Z)
    (raw_query : string) (q : Query)
    (document_predicate : Z → DocumentStatus → Z → bool) :
  consistent s →
  AddDocument s document_id document st ratings = (true, s') →
  SplitIntoWordsNoStop s document = [] →
  ParseQuery s raw_query = Some q →
  is_Some (documents_ s' !! document_id)
  ∧ word_to_document_freqs_ s' = word_to_document_freqs_ s
  ∧ (∃ l, FindTopDocuments log sort s' raw_query document_predicate = Ok (Some l)
          ∧ ∀ doc, doc ∈ l → doc_id doc ≠ document_id)
  ∧ MatchDocument s' raw_query document_id = Ok (Some ([], st)).
Proof.
  intros Hc Hadd Hwords Hq.
  assert (consistent s') as Hc'.
  { pose proof (AddDocument_consistent s document_id document st ratings Hc) as H.
    by rewrite Hadd in H. }
  assert (∀ w, has_posting s' w document_id = false) as Hnone.
  { intros w. apply not_true_is_false.
    rewrite (AddDocument_has_posting _ _ _ _ _ _ w Hc Hadd).
    rewrite <- elem_of_SplitIntoWordsNoStop, Hwords. apply not_elem_of_nil. }
  assert (ParseQuery s' raw_query = Some q) as Hq'
    by by rewrite (AddDocument_ParseQuery _ _ _ _ _ _ _ Hadd).
  pose proof (AddDocument_index _ _ _ _ _ _ Hadd) as Hindex.
  rewrite Hwords in Hindex. simpl in Hindex.
  pose proof (AddDocument_accepts _ _ _ _ _ _ Hadd) as (_ & _ & _ & _ & Hdocs).
  assert (documents_ s' !! document_id
          = Some (mkDocumentData (ComputeAverageRating ratings) st)) as Hd
    by by rewrite Hdocs, lookup_insert_eq.
  split_and!; [by rewrite Hd|done| |].
  - destruct (FindTopDocuments_items log sort Hsort s' raw_query q
                document_predicate Hc' Hq')
      as (found & l & _ & Htop & _ & _ & Hitems).
    exists l. split; [done|]. intros doc Hdoc Hid.
    destruct (Hitems doc Hdoc) as [((w & _ & Hp) & _) _].
    rewrite Hid, Hnone in Hp. done.
  - destruct (MatchDocument_words s' raw_query q document_id _ Hq' Hd)
      as (words & Hmatch & Hin & _).
    rewrite Hmatch. destruct words as [|w ws]; [done|].
    destruct (proj1 (Hin w)) as (_ & Hp & _); [by left|].
    by rewrite Hnone in Hp.
Qed.

End Composition.

(** X24: for a document that was just ingested, [MatchDocument] reports the
    plus words of the query that are tokens of the document text, and no
    word at all if a minus word of the query is a token of the text. *)
Theorem MatchDocument_new_document (s s' : SearchServer) (document_id : Z)
    (document : string) (st : DocumentStatus) (ratings : list Z)
    (raw_query : string) (q : Query) :
  consistent s →
  AddDocument s document_id document st ratings = (true, s') →
  ParseQuery s raw_query = Some q →
  ∃ words,
    MatchDocument s' raw_query document_id = Ok (Some (words, st))
    ∧ ∀ w, w ∈ words ↔
           w ∈ plus_words q ∧ w ∈ SplitIntoWords document
           ∧ ∀ m, m ∈ minus_words q → m ∉ SplitIntoWords document.
Proof.
  intros Hc Hadd Hq.
  assert (ParseQuery s' raw_query = Some q) as Hq'
    by by rewrite (AddDocument_ParseQuery _ _ _ _ _ _ _ Hadd).
  pose proof (AddDocument_accepts _ _ _ _ _ _ Hadd) as (_ & _ & _ & _ & Hdocs).
  assert (documents_ s' !! document_id
          = Some (mkDocumentData (ComputeAverageRating ratings) st)) as Hd
    by by rewrite Hdocs, lookup_insert_eq.
  destruct (MatchDocument_words s' raw_query q document_id _ Hq' Hd)
    as (words & Hmatch & Hin & _).
  exists words. split; [done|]. intros w. rewrite Hin.
  assert (∀ x, x ∈ plus_words q ∨ x ∈ minus_words q →
               (has_posting s' x document_id = true ↔ x ∈ SplitIntoWords document))
    as Hp.
  { intros x Hx. rewrite (AddDocument_has_posting _ _ _ _ _ _ x Hc Hadd).
    destruct (ParseQuery_word_shape s raw_query q x Hq Hx) as (_ & _ & _ & _ & Hstop).
    tauto. }
  split.
  - intros (Hw & Hpw & Hno). split; [done|]. split; [by apply Hp; auto|].
    intros m Hm Htok. apply Hp in Htok; [|by auto]. by rewrite (Hno m Hm) in Htok.
  - intros (Hw & Htok & Hno). split; [done|]. split; [by apply Hp; auto|].
    intros m Hm. apply not_true_is_false. rewrite Hp by auto. by apply Hno.
Qed.

(** ** Invariants of the states of the interface *)

Lemma reachable_ids (s : SearchServer) (d : Z) :
  reachable s → is_Some (documents_ s !! d) → 0 ≤ d.
Proof.
  induction 1 as [| | |s text _ IH|s document_id document st ratings _ IH];
    try (simpl; rewrite lookup_empty; by intros []); [done|].
  destruct (AddDocument s document_id document st ratings) as [[] s'] eqn:Hadd.
  - apply AddDocument_accepts in Hadd as (Hid & _ & _ & _ & Hdocs). simpl.
    rewrite Hdocs, lookup_insert_is_Some. intros [<-|[_ ?]]; [done|by apply IH].
  - unfold AddDocument in Hadd. destruct (_ || _ || _).
    + by injection Hadd as <-.
    + by destruct (SplitIntoWordsNoStop s document).
Qed.

(** X25: in the states that the interface builds no stored id is negative, so
    [GetDocumentId] returns a stored id for an index in range, and the
    sentinel [INVALID_DOCUMENT_ID] only for an index out of range. *)
Theorem GetDocumentId_sentinel (s : SearchServer) (index : Z) :
  reachable s →
  (0 ≤ index < Z.of_nat (size (documents_ s)) →
   is_Some (documents_ s !! GetDocumentId s index) ∧ 0 ≤ GetDocumentId s index)
  ∧ (GetDocumentId s index = INVALID_DOCUMENT_ID ↔
     index < 0 ∨ Z.of_nat (size (documents_ s)) ≤ index).
Proof.
  intros Hs.
  assert (0 ≤ index < Z.of_nat (size (documents_ s)) →
          is_Some (documents_ s !! GetDocumentId s index)
          ∧ 0 ≤ GetDocumentId s index) as Hin.
  { intros [H0 Hlt]. unfold GetDocumentId.
    assert ((index <? 0) = false) as -> by (apply Z.ltb_ge; lia).
    assert ((Z.of_nat (size (documents_ s)) <=? index) = false) as ->
      by (apply Z.leb_gt; lia).
    cbn [orb]. rewrite GetDocumentId_loop_lookup by lia. rewrite Z.sub_0_r.
    destruct (lookup_lt_is_Some_2 (map_items (documents_ s)).*1 (Z.to_nat index))
      as [d Hd].
    { rewrite length_fmap, length_map_items. lia. }
    rewrite Hd. simpl.
    assert (is_Some (documents_ s !! d)) as Hstored.
    { apply elem_of_map_items_keys. by eapply list_elem_of_lookup_2. }
    split; [done|]. by eapply reachable_ids. }
  split; [done|]. split.
  - intros Hinvalid.
    destruct (decide (0 ≤ index < Z.of_nat (size (documents_ s)))) as [Hr|Hr]; [|lia].
    destruct (Hin Hr) as [_ Hpos]. rewrite Hinvalid in Hpos.
    unfold INVALID_DOCUMENT_ID in Hpos. lia.
  - unfold GetDocumentId. intros [Hneg|Hge].
    + apply Z.ltb_lt in Hneg. by rewrite Hneg.
    + apply Z.leb_le in Hge. rewrite Hge. by rewrite orb_true_r.
Qed.

Lemma map_items_insert_last {V} (m : gmap Z V) (k : Z) (v : V) :
  (∀ d, is_Some (m !! d) → d < k) →
  (map_items (<[k := v]> m)).*1 = (map_items m).*1 ++ [k].
Proof.
  intros Hmax.
  apply (StronglySorted_unique_strong Z.lt).
  - intros; lia.
  - apply map_items_ascending.
  - apply StronglySorted_app_2; [|apply map_items_ascending|repeat constructor].
    intros d1 d2 Hd1 Hd2. apply list_elem_of_singleton in Hd2 as ->.
    apply Hmax. by apply elem_of_map_items_keys.
  - apply NoDup_Permutation.
    + apply NoDup_map_items.
    + apply NoDup_app. split; [apply NoDup_map_items|].
      split; [|apply NoDup_singleton].
      intros d Hd Hk. apply list_elem_of_singleton in Hk as ->.
      apply elem_of_map_items_keys, Hmax in Hd. lia.
    + intros d. rewrite elem_of_app, list_elem_of_singleton, !elem_of_map_items_keys.
      rewrite lookup_insert_is_Some. destruct (decide (k = d)); naive_solver.
Qed.

(** X26: when the id of an accepted document is greater than the ids in the
    store, [GetDocumentId] gives the same answers as before at the
    indices that were in range, and the new id at the next index. *)
Theorem GetDocumentId_after_AddDocument (s s' : SearchServer) (document_id : Z)
    (document : string) (st : DocumentStatus) (ratings : list Z) :
  AddDocument s document_id document st ratings = (true, s') →
  (∀ d, is_Some (documents_ s !! d) → d < document_id) →
  (∀ index, 0 ≤ index < Z.of_nat (size (documents_ s)) →
            GetDocumentId s' index = GetDocumentId s index)
  ∧ GetDocumentId s' (Z.of_nat (size (documents_ s))) = document_id.
Proof.
  intros Hadd Hmax.
  apply AddDocument_accepts in Hadd as (_ & Hnew & _ & _ & Hdocs).
  assert (∀ index, 0 ≤ index ≤ Z.of_nat (size (documents_ s)) →
            GetDocumentId s' index
            = default INVALID_DOCUMENT_ID
                (((map_items (documents_ s)).*1 ++ [document_id])
                   !! Z.to_nat index)) as Hget.
  { intros index Hi. unfold GetDocumentId.
    rewrite Hdocs, map_size_insert_None by done.
    assert ((index <? 0) = false) as -> by (apply Z.ltb_ge; lia).
    assert ((Z.of_nat (S (size (documents_ s))) <=? index) = false) as ->
      by (apply Z.leb_gt; lia).
    cbn [orb]. rewrite GetDocumentId_loop_lookup by lia. rewrite Z.sub_0_r.
    by rewrite map_items_insert_last. }
  split.
  - intros index Hi. rewrite Hget by lia.
    rewrite lookup_app_l by (rewrite length_fmap, length_map_items; lia).
    unfold GetDocumentId.
    assert ((index <? 0) = false) as -> by (apply Z.ltb_ge; lia).
    assert ((Z.of_nat (size (documents_ s)) <=? index) = false) as ->
      by (apply Z.leb_gt; lia).
    cbn [orb]. rewrite GetDocumentId_loop_lookup by lia. by rewrite Z.sub_0_r.
  - rewrite Hget by lia. rewrite Nat2Z.id.
    rewrite <- (length_map_items (documents_ s)), <- (length_fmap fst).
    by rewrite (list_lookup_middle _ []).
Qed.

(** The words of the index, and their postings. *)
Lemma add_freq_index_words (P : string → Prop) (index : gmap string (gmap Z float))
    (word : string) (document_id : Z) (inv_word_count : float) :
  P word →
  (∀ w p, index !! w = Some p → P w ∧ p ≠ ∅) →
  ∀ w p, add_freq index word document_id inv_word_count !! w = Some p →
         P w ∧ p ≠ ∅.
Proof.
  intros Hword Hindex w p. unfold add_freq.
  destruct (decide (w = word)) as [->|Hne].
  - rewrite lookup_insert_eq. intros [= <-]. split; [done|].
    apply insert_non_empty.
  - rewrite lookup_insert_ne by done. apply Hindex.
Qed.

Lemma IsValidWord_no_control (text : string) :
  IsValidWord text = true → any_of is_control text = false.
Proof. unfold IsValidWord. case_decide; [done|]. by rewrite negb_true_iff. Qed.

Lemma reachable_index_words (s : SearchServer) (w : string) (p : gmap Z float) :
  reachable s →
  word_to_document_freqs_ s !! w = Some p →
  (w ≠ EmptyString ∧ any_of is_space w = false ∧ any_of is_control w = false)
  ∧ p ≠ ∅.
Proof.
  intros Hs. revert w p.
  induction Hs as [| | |s text _ IH|s document_id document st ratings _ IH];
    try (intros w p; simpl; by rewrite lookup_empty); [done|].
  destruct (AddDocument s document_id document st ratings) as [[] s'] eqn:Hadd.
  2:{ unfold AddDocument in Hadd. destruct (_ || _ || _).
      - by injection Hadd as <-.
      - by destruct (SplitIntoWordsNoStop s document). }
  simpl. rewrite (AddDocument_index _ _ _ _ _ _ Hadd).
  apply AddDocument_accepts in Hadd as (_ & _ & Hvalid & _).
  apply (foldl_invariant (λ _ index, ∀ w p, index !! w = Some p →
    (w ≠ EmptyString ∧ any_of is_space w = false ∧ any_of is_control w = false)
    ∧ p ≠ ∅)); [done|].
  intros _ word index Hword Hindex.
  apply (add_freq_index_words
    (λ w, w ≠ EmptyString ∧ any_of is_space w = false
          ∧ any_of is_control w = false)); [|done].
  apply elem_of_SplitIntoWordsNoStop in Hword as [Htok _].
  destruct (SplitIntoWords_nonempty _ _ Htok) as [Hne Hsp].
  split_and!; [done..|].
  destruct (any_of is_control word) eqn:Hctl; [|done].
  assert (any_of is_control document = true); [|by rewrite IsValidWord_no_control in *].
  apply (any_of_tokens is_control); [done|]. eauto.
Qed.

Lemma postings_size (s : SearchServer) (w : string) (p : gmap Z float) :
  consistent s → word_to_document_freqs_ s !! w = Some p →
  (size p ≤ size (documents_ s))%nat.
Proof.
  intros Hc Hw. rewrite <- (size_dom p), <- (size_dom (documents_ s)).
  apply subseteq_size. intros d. rewrite !elem_of_dom. intros Hd. by eapply Hc.
Qed.

(** X27: [ComputeWordInverseDocumentFreq] throws exactly for a word that is
    not in the index.  In the states that the interface builds, a word of
    the index has at least one posting and no more postings than there
    are documents: the divisor is never zero, and the quotient handed to
    [log] is taken from a count of documents and a count, not greater, of
    the documents with the word. *)
Theorem ComputeWordInverseDocumentFreq_divisor (log : float → float)
    (s : SearchServer) (word : string) :
  reachable s →
  (ComputeWordInverseDocumentFreq log s word = OutOfRange ↔
   word_to_document_freqs_ s !! word = None)
  ∧ ∀ postings, word_to_document_freqs_ s !! word = Some postings →
      ComputeWordInverseDocumentFreq log s word
      = Ok (log (double_of_int (GetDocumentCount s) * 1
                 / double_of_size (size postings))%float)
      ∧ (1 ≤ size postings ≤ size (documents_ s))%nat.
Proof.
  intros Hs. unfold ComputeWordInverseDocumentFreq, map_at. split.
  - by destruct (word_to_document_freqs_ s !! word).
  - intros p Hw. rewrite Hw. split; [done|]. split.
    + destruct (reachable_index_words s word p Hs Hw) as [_ Hne].
      apply map_size_non_empty_iff in Hne. lia.
    + apply (postings_size s word); [by apply reachable_consistent|done].
Qed.

(** ** The relevance score *)

Lemma for_each_invariant_prefix {A S} (I : list A → S → Prop)
    (body : S → A → result S) (l : list A) (s : S) :
  I [] s →
  (∀ pre x post s, l = pre ++ x :: post → I pre s →
                   ∃ s', body s x = Ok s' ∧ I (pre ++ [x]) s') →
  ∃ s', for_each body l s = Ok s' ∧ I l s'.
Proof.
  intros Hinit Hstep.
  cut (∀ todo visited s, l = visited ++ todo → I visited s →
         ∃ s', for_each body todo s = Ok s' ∧ I (visited ++ todo) s').
  { intros Hcut. apply (Hcut l [] s); auto. }
  clear s Hinit. induction todo as [|x todo IH]; intros visited s Hl HI.
  - exists s. by rewrite app_nil_r.
  - destruct (Hstep visited x todo s Hl HI) as (s1 & Hbody & HI1).
    destruct (IH (visited ++ [x]) s1) as (s' & Hrest & HI'); [|done|].
    { by rewrite <- app_assoc. }
    exists s'. simpl. rewrite Hbody. simpl. by rewrite <- app_assoc in HI'.
Qed.

Section Relevance.

Variable log : float → float.
Variable s : SearchServer.
Variable key_mapper : Z → DocumentStatus → Z → bool.
Hypothesis Hconsistent : consistent s.

(** The inner loop adds one term to the score of every accepted document
    of the postings. *)
Lemma accumulate_terms (idf : float) (postings : gmap Z float) (m : gmap Z float) :
  (∀ d, is_Some (postings !! d) → is_Some (documents_ s !! d)) →
  ∃ m', for_each (accumulate s key_mapper idf) (map_items postings) m = Ok m'
        ∧ ∀ d, accepts s key_mapper d →
               default 0%float (m' !! d)
               = match postings !! d with
                 | Some tf => (default 0 (m !! d) + tf * idf)%float
                 | None => default 0%float (m !! d)
                 end.
Proof.
  intros Hstored.
  destruct (for_each_invariant_prefix
    (λ visited m', ∀ d, accepts s key_mapper d →
       default 0%float (m' !! d)
       = match postings !! d with
         | Some tf => if bool_decide (d ∈ visited.*1)
                      then (default 0 (m !! d) + tf * idf)%float
                      else default 0%float (m !! d)
         | None => default 0%float (m !! d)
         end)
    (accumulate s key_mapper idf) (map_items postings) m) as (m' & Hrun & Hinv).
  - intros d _. destruct (postings !! d); [|done].
    rewrite bool_decide_eq_false_2; [done|]. apply not_elem_of_nil.
  - intros visited [k tf] post m1 Hl Hinv.
    assert ((k, tf) ∈ map_items postings) as Hin.
    { rewrite Hl. apply elem_of_app. right. by left. }
    apply elem_of_map_items in Hin.
    assert (k ∉ visited.*1) as Hfresh.
    { pose proof (NoDup_map_items postings) as Hnd.
      rewrite Hl, fmap_app, fmap_cons in Hnd.
      apply NoDup_app in Hnd as (_ & Hnd & _). intros Hk.
      apply (Hnd k Hk). by left. }
    destruct (Hstored k) as [dd Hdd]; [by eauto|].
    unfold accumulate, map_at. rewrite Hdd. simpl.
    destruct (key_mapper k (status dd) (rating dd)) eqn:Hkey.
    + eexists. split; [done|]. intros d Hd.
      rewrite fmap_app. simpl.
      destruct (decide (d = k)) as [->|Hne].
      * rewrite lookup_insert_eq, Hin. simpl.
        rewrite bool_decide_eq_true_2 by (apply elem_of_app; right; by left).
        specialize (Hinv k Hd). rewrite Hin in Hinv.
        rewrite bool_decide_eq_false_2 in Hinv by done. by rewrite Hinv.
      * rewrite lookup_insert_ne by done. rewrite (Hinv d Hd).
        destruct (postings !! d); [|done].
        apply (f_equal (λ b : bool, if b then _ else _)).
        apply bool_decide_ext. rewrite elem_of_app, list_elem_of_singleton.
        naive_solver.
    + eexists. split; [done|]. intros d Hd.
      rewrite fmap_app. simpl. rewrite (Hinv d Hd).
      destruct (postings !! d); [|done].
      apply (f_equal (λ b : bool, if b then _ else _)).
      apply bool_decide_ext. rewrite elem_of_app, list_elem_of_singleton.
      split; [by left|]. intros [?| ->]; [done|].
      destruct Hd as (dd' & Hdd' & Hk). congruence.
  - exists m'. split; [done|]. intros d Hd. rewrite (Hinv d Hd).
    destruct (postings !! d) as [tf|] eqn:Hp; [|done].
    rewrite bool_decide_eq_true_2; [done|].
    apply elem_of_map_items_keys. by rewrite Hp.
Qed.

Lemma add_plus_word_term (m : gmap Z float) (word : string) :
  ∃ m', add_plus_word log s key_mapper m word = Ok m'
        ∧ ∀ d, accepts s key_mapper d →
               default 0%float (m' !! d)
               = add_term log s d (default 0%float (m !! d)) word.
Proof.
  unfold add_plus_word, ComputeWordInverseDocumentFreq, map_at, add_term,
    inverse_document_freq, lookup_freq.
  destruct (word_to_document_freqs_ s !! word) as [postings|] eqn:Hw; simpl.
  - apply accumulate_terms. intros d Hd. by eapply Hconsistent.
  - by exists m.
Qed.

Lemma plus_words_terms (words : gset string) :
  ∃ m, for_each (add_plus_word log s key_mapper) (set_items words) ∅ = Ok m
       ∧ ∀ d, accepts s key_mapper d →
              default 0%float (m !! d)
              = foldl (add_term log s d) 0%float (set_items words).
Proof.
  apply (for_each_invariant (λ visited m, ∀ d, accepts s key_mapper d →
    default 0%float (m !! d) = foldl (add_term log s d) 0%float visited)).
  - intros d _. by rewrite lookup_empty.
  - intros visited w m _ Hinv.
    destruct (add_plus_word_term m w) as (m' & Hrun & Hterm).
    exists m'. split; [done|]. intros d Hd.
    by rewrite foldl_app, (Hterm d Hd), (Hinv d Hd).
Qed.

Lemma FindAllDocuments_tf_idf (q : Query) :
  ∃ found,
    FindAllDocuments log s q key_mapper = Ok found
    ∧ ∀ doc, doc ∈ found → doc_relevance doc = tf_idf log s q (doc_id doc).
Proof.
  destruct (FindAllDocuments_matches log s key_mapper Hconsistent q)
    as (m1 & found & Hrun1 & Hfound & Hitems & Hids & Hsame).
  destruct (plus_words_terms (plus_words q)) as (m1' & Hrun1' & Hterms).
  rewrite Hrun1 in Hrun1'. injection Hrun1' as <-.
  exists found. split; [done|]. intros doc Hdoc.
  assert (matches s q key_mapper (doc_id doc)) as Hmatch.
  { apply Hids. apply list_elem_of_fmap. eauto. }
  apply list_elem_of_lookup in Hdoc as [i Hi].
  destruct (Forall2_lookup_r _ _ _ _ _ Hitems Hi) as (entry & Hentry & Hitem).
  apply list_elem_of_lookup_2, elem_of_map_items_1 in Hentry.
  destruct Hitem as (Hid & Hrel & _).
  rewrite <- Hid, (Hsame _ Hmatch) in Hentry.
  destruct Hmatch as (_ & Hacc & _).
  unfold tf_idf. rewrite <- (Hterms _ Hacc), Hentry. done.
Qed.

End Relevance.

Lemma set_items_singleton (w : string) : set_items {[w]} = [w].
Proof.
  apply Permutation_singleton_r. unfold set_items.
  by rewrite merge_sort_Permutation, elements_singleton.
Qed.

Section Scores.

Variable log : float → float.
Variable sort : (Document → Document → bool) → list Document → list Document.
Hypothesis Hsort : sort_contract sort.

(** X28: the relevance of an item that [FindTopDocuments] lists is the TF-IDF
    score of its document as the code computes it in binary64: starting
    from [0.0], for each plus word of the query in ascending order under
    which the document has a posting, the term frequency times
    [log(N * 1.0 / n)] is added, [N] being the number of documents and
    [n] the number of documents with the word.  For a query of one plus
    word it is [0.0 + tf * log(N * 1.0 / n)]. *)
Theorem relevance_is_tf_idf (s : SearchServer) (raw_query : string) (q : Query)
    (document_predicate : Z → DocumentStatus → Z → bool) :
  consistent s →
  ParseQuery s raw_query = Some q →
  ∃ l,
    FindTopDocuments log sort s raw_query document_predicate = Ok (Some l)
    ∧ (∀ doc, doc ∈ l → doc_relevance doc = tf_idf log s q (doc_id doc))
    ∧ (∀ w doc, plus_words q = {[w]} → doc ∈ l →
         ∃ postings tf,
           word_to_document_freqs_ s !! w = Some postings
           ∧ postings !! doc_id doc = Some tf
           ∧ doc_relevance doc
             = (0 + tf * log (double_of_int (GetDocumentCount s) * 1
                              / double_of_size (size postings)))%float).
Proof.
  intros Hc Hq.
  destruct (FindTopDocuments_items log sort Hsort s raw_query q
              document_predicate Hc Hq)
    as (found & l & Hfound & Htop & Hl & _ & Hitems).
  destruct (FindAllDocuments_tf_idf log s document_predicate Hc q)
    as (found' & Hfound' & Hrel).
  assert (found' = found) as -> by congruence.
  assert (∀ doc, doc ∈ l → doc_relevance doc = tf_idf log s q (doc_id doc)) as Hscore.
  { intros doc Hdoc. apply Hrel.
    rewrite <- (sort_permutation _ Hsort by_relevance found).
    rewrite Hl in Hdoc. apply elem_of_take in Hdoc as (i & Hi & _).
    by eapply list_elem_of_lookup_2. }
  exists l. split; [done|]. split; [done|].
  intros w doc Hplus Hdoc. rewrite (Hscore doc Hdoc).
  destruct (Hitems doc Hdoc) as [((w' & Hw' & Hp) & _) _].
  rewrite Hplus in Hw'. apply elem_of_singleton in Hw' as ->.
  apply has_posting_true in Hp as (postings & Hw & [tf Htf]).
  exists postings, tf. split; [done|]. split; [done|].
  unfold tf_idf. rewrite Hplus, set_items_singleton. simpl.
  unfold add_term, lookup_freq, inverse_document_freq. rewrite Hw. simpl.
  by rewrite Htf.
Qed.

End Scores.

(** ** The comparator of the ranking *)

Lemma SFabs_binary_normalize (m e : Z) :
  SFabs (binary_normalize prec emax (- m) e false)
  = SFabs (binary_normalize prec emax m e false).
Proof.
  destruct m as [|m|m]; [done| |]; simpl; unfold binary_round;
    destruct (shl_align _ _ _) as [mz ez]; apply SFabs_binary_round_aux.
Qed.

(** [|x - y|] and [|y - x|] are the same double. *)
Lemma SFabs_sub_comm (x y : spec_float) :
  SFabs (SF64sub x y) = SFabs (SF64sub y x).
Proof.
  unfold SF64sub.
  destruct x as [sx|sx| |sx mx ex], y as [sy|sy| |sy my ey]; simpl;
    try done; try (by destruct sx, sy).
  rewrite (Z.min_comm ey ex), <- SFabs_binary_normalize. f_equal. f_equal. lia.
Qed.

Lemma SFltb_asymmetric (x y : spec_float) :
  SFltb x y = true → SFltb y x = false.
Proof.
  unfold SFltb.
  destruct x as [sx|sx| |sx mx ex], y as [sy|sy| |sy my ey]; simpl;
    try done; try (by destruct sx); try (by destruct sy);
    try (by destruct sx, sy).
  destruct sx, sy; try done.
  - rewrite (Z.compare_antisym ex ey). destruct (ex ?= ey); simpl; try done.
    assert (PosDef.Pos.compare_cont Eq my mx
            = CompOpp (PosDef.Pos.compare_cont Eq mx my)) as -> by apply ZC4.
    by destruct (PosDef.Pos.compare_cont Eq mx my).
  - rewrite (Z.compare_antisym ex ey). destruct (ex ?= ey); simpl; try done.
    assert (PosDef.Pos.compare_cont Eq my mx
            = CompOpp (PosDef.Pos.compare_cont Eq mx my)) as -> by apply ZC4.
    by destruct (PosDef.Pos.compare_cont Eq mx my).
Qed.

Lemma by_relevance_asymmetric (lhs rhs : Document) :
  by_relevance lhs rhs = true → by_relevance rhs lhs = false.
Proof.
  unfold by_relevance. rewrite !FloatAxioms.ltb_spec, !abs_spec, !FloatAxioms.sub_spec.
  rewrite (SFabs_sub_comm (Prim2SF (doc_relevance rhs))).
  destruct (SFltb (SFabs _) _).
  - intros H. apply Z.ltb_lt in H. apply Z.ltb_ge. lia.
  - apply SFltb_asymmetric.
Qed.

(** X29: the comparator of the ranking never puts a document before itself,
    nor each of two documents before the other, whatever their scores,
    infinities and NaN included. *)
Theorem by_relevance_irreflexive_asymmetric (lhs rhs : Document) :
  by_relevance lhs lhs = false
  ∧ (by_relevance lhs rhs = true → by_relevance rhs lhs = false).
Proof.
  split; [|apply by_relevance_asymmetric].
  destruct (by_relevance lhs lhs) eqn:H; [|done].
  pose proof (by_relevance_asymmetric lhs lhs H). congruence.
Qed.

(** ** Stop words in queries and documents *)

Lemma ParseQuery_loop_app (s : SearchServer) (l1 l2 : list string) (q : Query) :
  ParseQuery_loop s (l1 ++ l2) q
  = match ParseQuery_loop s l1 q with
    | Some q1 => ParseQuery_loop s l2 q1
    | None => None
    end.
Proof.
  revert q. induction l1 as [|w l1 IH]; intros q; [done|]. simpl.
  destruct (ParseQueryWord s w) as [qw|]; [|done].
  destruct (is_stop qw); [apply IH|]. destruct (is_minus qw); apply IH.
Qed.

Lemma ParseQuery_loop_stop_word (s : SearchServer) (w : string) (q : Query) :
  w ∈ stop_words_ s → w ≠ EmptyString → any_of is_control w = false →
  (∀ r, w ≠ String "-" r) →
  ParseQuery_loop s [w] q = Some q ∧ ParseQuery_loop s [String "-" w] q = Some q.
Proof.
  intros Hstop Hne Hctl Hplus.
  assert (IsStopWord s w = true) as Hw by by apply bool_decide_eq_true.
  split; simpl.
  - destruct (ParseQueryWord s w) as [qw|] eqn:Hqw.
    + apply ParseQueryWord_Some in Hqw as [Hs [[_ Hshape]|(_ & Heq & _)]].
      * by destruct (Hplus (data qw)).
      * by rewrite Hs, <- Heq, Hw.
    + apply ParseQueryWord_None in Hqw as [->|[[x ->]|Hc]].
      * by destruct (Hplus EmptyString).
      * by destruct (Hplus (String "-" x)).
      * congruence.
  - destruct (ParseQueryWord s (String "-" w)) as [qw|] eqn:Hqw.
    + apply ParseQueryWord_Some in Hqw as [Hs [[_ [= Heq]]|(_ & _ & Hshape)]].
      * by rewrite Hs, <- Heq, Hw.
      * by destruct (Hshape w).
    + apply ParseQueryWord_None in Hqw as [[= ->]|[[x [= ->]]|Hc]].
      * done.
      * by destruct (Hplus x).
      * simpl in Hc. congruence.
Qed.

Lemma IsValidWord_append (a w : string) :
  IsValidWord a = true → any_of is_control w = false →
  IsValidWord (a +:+ String " " w) = true.
Proof.
  intros Ha Hw. unfold IsValidWord. case_decide as Heq.
  - destruct a as [|c [|c' a]]; done.
  - rewrite any_of_append. simpl. by rewrite IsValidWord_no_control, Hw.
Qed.

(** X30: a stop word is ignored where it stands as a word of its own: added to
    a query, as a plus word or with a leading ["-"], it leaves the parsed
    query as it was, and added to the text of a document it leaves the
    outcome of [AddDocument] as it was. *)
Theorem stop_word_ignored (s : SearchServer) (a w : string) (document_id : Z)
    (st : DocumentStatus) (ratings : list Z) :
  w ∈ stop_words_ s →
  w ≠ EmptyString →
  any_of is_space w = false →
  any_of is_control w = false →
  (∀ r, w ≠ String "-" r) →
  ParseQuery s (a +:+ String " " w) = ParseQuery s a
  ∧ ParseQuery s (a +:+ String " " (String "-" w)) = ParseQuery s a
  ∧ (IsValidWord a = true →
     AddDocument s document_id (a +:+ String " " w) st ratings
     = AddDocument s document_id a st ratings).
Proof.
  intros Hstop Hne Hsp Hctl Hplus.
  assert (SplitIntoWords (a +:+ String " " w) = SplitIntoWords a ++ [w]) as Hsplit.
  { by rewrite SplitIntoWords_space, (SplitIntoWords_word w). }
  assert (SplitIntoWords (a +:+ String " " (String "-" w))
          = SplitIntoWords a ++ [String "-" w]) as Hsplit'.
  { by rewrite SplitIntoWords_space, (SplitIntoWords_word (String "-" w)). }
  split_and!.
  - unfold ParseQuery. rewrite Hsplit, ParseQuery_loop_app.
    destruct (ParseQuery_loop s (SplitIntoWords a) _) as [q|]; [|done].
    by apply ParseQuery_loop_stop_word.
  - unfold ParseQuery. rewrite Hsplit', ParseQuery_loop_app.
    destruct (ParseQuery_loop s (SplitIntoWords a) _) as [q|]; [|done].
    by apply ParseQuery_loop_stop_word.
  - intros Hvalid. unfold AddDocument.
    rewrite (IsValidWord_append a w Hvalid Hctl), Hvalid.
    assert (SplitIntoWordsNoStop s (a +:+ String " " w) = SplitIntoWordsNoStop s a)
      as ->; [|done].
    rewrite !SplitIntoWordsNoStop_filter, Hsplit, filter_app, filter_cons.
    rewrite decide_False by tauto. by rewrite filter_nil, app_nil_r.
Qed.

(** ** The theorems at the states of [main] *)

Lemma AddDocument_failure_leaves_state_witness :
  AddDocument main_server_1 (-1) "пушистый пёс и модный ошейник" ACTUAL [1; 2]
  = (false, main_server_1)
  ∧ AddDocument main_server_1 1 "пушистый пёс и модный ошейник" ACTUAL [1; 2]
    = (false, main_server_1).
Proof.
  split.
  - apply (AddDocument_failure_leaves_state main_server_1 (-1)). left. lia.
  - apply (AddDocument_failure_leaves_state main_server_1 1). right. left.
    eexists. vm_compute. reflexivity.
Defined.

Lemma ParseQuery_sets_overlap_witness :
  plus_words (mkQuery {["cat"%string]} {["dog"%string]})
  ## minus_words (mkQuery {["cat"%string]} {["dog"%string]}).
Proof.
  apply (ParseQuery_sets_overlap SearchServer_default "cat -dog"
           (mkQuery {["cat"%string]} {["dog"%string]})).
  - by vm_compute.
  - replace (SplitIntoWords "cat -dog") with ["cat"; "-dog"]%string
      by (by vm_compute).
    intros t Ht Hm. set_unfold. naive_solver.
Defined.

Lemma AddDocument_stores_average_witness :
  ∃ d, documents_ main_server_1 !! 1 = Some d ∧ status d = ACTUAL
       ∧ rating d = (7 + 2 + 7) ÷ 3.
Proof.
  apply (AddDocument_stores_average main_server_0 main_server_1 1
           "пушистый кот пушистый хвост" ACTUAL [7; 2; 7]).
  - by vm_compute.
  - by apply no_overflow_check_sound.
  - by vm_compute.
Defined.

Lemma minus_word_excludes_document_witness :
  (∃ l, FindTopDocuments log_table insertion_sort main_server_2 "пушистый -пёс"
          (status_is ACTUAL) = Ok (Some l)
        ∧ ∀ doc, doc ∈ l → doc_id doc ≠ 3)
  ∧ (∃ d, documents_ main_server_2 !! 3 = Some d
          ∧ MatchDocument main_server_2 "пушистый -пёс" 3 = Ok (Some ([], status d))).
Proof.
  apply (minus_word_excludes_document log_table insertion_sort insertion_sort_contract
           main_server_2 "пушистый -пёс"
           (mkQuery {["пушистый"%string]} {["пёс"%string]}) (status_is ACTUAL)
           "пёс" 3).
  - apply reachable_consistent, main_server_2_reachable.
  - by vm_compute.
  - by vm_compute.
  - simpl; by apply elem_of_singleton.
  - by vm_compute.
Defined.

Lemma invalid_query_is_absent_witness :
  (FindTopDocuments log_table insertion_sort main_server_2 "--пушистый"
     (status_is ACTUAL) = Ok None
   ∧ MatchDocument main_server_2 "--пушистый" 1 = Ok None)
  ∧ FindTopDocuments log_table insertion_sort main_server_2 "попугай"
      (status_is ACTUAL) = Ok (Some []).
Proof.
  split.
  - apply (invalid_query_is_absent log_table insertion_sort insertion_sort_contract
             main_server_2 "--пушистый" (status_is ACTUAL) 1).
    left. eexists. split; [by left|]. right. by eexists.
  - refine (proj1 (proj2 (invalid_query_is_absent log_table insertion_sort
                            insertion_sort_contract main_server_2 "попугай"
                            (status_is ACTUAL) 1)
                     (mkQuery {["попугай"%string]} ∅) _ _ _ _)).
    + apply reachable_consistent, main_server_2_reachable.
    + by vm_compute.
    + by vm_compute.
    + intros d [(w & Hw & Hposting) _].
      simpl in Hw; apply elem_of_singleton in Hw as ->.
      unfold has_posting in Hposting.
      by replace (word_to_document_freqs_ main_server_2 !! "попугай"%string)
        with (@None (gmap Z float)) in Hposting by (by vm_compute).
Defined.

Lemma FindTopDocuments_ordered_witness :
  (length [mkDocument 3 0x1.62e42fefa39efp-1 2;
           mkDocument 2 0x1.62e42fefa39efp-2 5;
           mkDocument 1 0x1.62e42fefa39efp-2 1] ≤ 5)%nat
  ∧ StronglySorted descending
      [mkDocument 3 0x1.62e42fefa39efp-1 2;
       mkDocument 2 0x1.62e42fefa39efp-2 5;
       mkDocument 1 0x1.62e42fefa39efp-2 1]
  ∧ tied (mkDocument 2 0x1.62e42fefa39efp-2 5)
         (mkDocument 1 0x1.62e42fefa39efp-2 1) = true
  ∧ tied (mkDocument 3 0x1.62e42fefa39efp-1 2)
         (mkDocument 2 0x1.62e42fefa39efp-2 5) = false.
Proof.
  destruct (FindTopDocuments_ordered log_table insertion_sort
              insertion_sort_contract tied_cats "cat" (status_is ACTUAL)
              [mkDocument 3 0x1.62e42fefa39efp-1 2;
               mkDocument 2 0x1.62e42fefa39efp-2 5;
               mkDocument 1 0x1.62e42fefa39efp-2 1])
    as (Hlen & q & found & Hq & Hfound & _ & Hties); [by vm_compute|].
  vm_compute in Hq. injection Hq as <-.
  vm_compute in Hfound. injection Hfound as <-.
  split; [done|]. split; [|by vm_compute].
  apply Hties.
  - apply finite_scores_check_sound. by vm_compute.
  - apply ties_transitive_check_sound. by vm_compute.
Defined.

Lemma zero_idf_document_found_witness :
  ∃ found dd,
    FindAllDocuments log_table main_server_2 (mkQuery {["пушистый"%string]} ∅)
      (status_is ACTUAL) = Ok found
    ∧ documents_ main_server_2 !! 1 = Some dd
    ∧ mkDocument 1 0%float (rating dd) ∈ found
    ∧ ((length found ≤ 5)%nat →
       ∃ l, FindTopDocuments log_table insertion_sort main_server_2 "пушистый"
              (status_is ACTUAL) = Ok (Some l)
            ∧ mkDocument 1 0%float (rating dd) ∈ l).
Proof.
  apply (zero_idf_document_found log_table insertion_sort insertion_sort_contract
           main_server_2 "пушистый" (mkQuery {["пушистый"%string]} ∅)
           (status_is ACTUAL) 1).
  - reflexivity.
  - apply reachable_consistent, main_server_2_reachable.
  - by vm_compute.
  - by vm_compute.
  - by vm_compute.
  - exists "пушистый"%string. split; [simpl; by apply elem_of_singleton|by vm_compute].
  - intros w Hw _. simpl in Hw; apply elem_of_singleton in Hw as ->.
    by apply in_every_document_check_sound.
  - intros w postings tf Hw. simpl in Hw; apply elem_of_singleton in Hw as ->.
    intros Hp. vm_compute in Hp. injection Hp as <-.
    intros Htf. vm_compute in Htf. injection Htf as <-. reflexivity.
  - intros w Hw. simpl in Hw. by apply elem_of_empty in Hw.
  - eexists. split; by vm_compute.
Defined.

Lemma main_server_2_bounded : reachable_bounded main_server_2.
Proof.
  unfold main_server_2, main_server_1, main_server_0.
  apply bounded_AddDocument; [|by vm_compute].
  apply bounded_AddDocument; [|by vm_compute].
  constructor.
Qed.

Lemma term_frequencies_sum_to_one_witness :
  (Rabs (term_freq_sum main_server_2 3 - 1) <= 1 / 1000000)%R
  ∧ ∀ w tf, lookup_freq (word_to_document_freqs_ main_server_2) w 3 = Some tf →
            positive_finite tf.
Proof.
  apply (term_frequencies_sum_to_one main_server_2 3).
  - apply main_server_2_bounded.
  - exists "пёс"%string. by vm_compute.
Defined.

Lemma SplitIntoWords_round_trip_witness :
  SplitIntoWords (join_words ["and"; "in"; "on"]%string) = ["and"; "in"; "on"]%string.
Proof.
  apply SplitIntoWords_round_trip. repeat constructor; done.
Defined.

Lemma ComputeAverageRating_between_witness :
  ComputeAverageRating [7; 2; 7] = rating_total [7; 2; 7] ÷ 3
  ∧ 2 ≤ ComputeAverageRating [7; 2; 7] ≤ 7.
Proof.
  apply (ComputeAverageRating_between [7; 2; 7] 2 7); [done| |done..].
  intros r Hr. repeat (apply elem_of_cons in Hr as [->|Hr]; [lia|]).
  by apply elem_of_nil in Hr.
Defined.

Lemma ParseQuery_words_witness :
  ("cat"%string ≠ EmptyString ∧ (∀ r, "cat"%string ≠ String "-" r)
  ∧ any_of is_space "cat" = false ∧ any_of is_control "cat" = false
  ∧ "cat"%string ∉ stop_words_ main_server_1).
Proof.
  eapply (ParseQuery_words main_server_1 "dog -cat"); [by vm_compute|].
  right. by vm_compute.
Defined.

Lemma query_tokens_as_set_witness :
  ParseQuery main_server_1 "cat dog" = ParseQuery main_server_1 "dog cat dog"
  ∧ FindTopDocuments log_table insertion_sort main_server_1 "cat dog" (status_is ACTUAL)
    = FindTopDocuments log_table insertion_sort main_server_1 "dog cat dog" (status_is ACTUAL)
  ∧ MatchDocument main_server_1 "cat dog" 1 = MatchDocument main_server_1 "dog cat dog" 1.
Proof.
  apply query_tokens_as_set. intros w. vm_compute SplitIntoWords.
  rewrite !elem_of_cons. tauto.
Defined.

Lemma stop_word_ignored_witness :
  ParseQuery main_server_1 ("cat" +:+ String " " "в") = ParseQuery main_server_1 "cat"
  ∧ ParseQuery main_server_1 ("cat" +:+ String " " (String "-" "в"))
    = ParseQuery main_server_1 "cat"
  ∧ (IsValidWord "cat" = true →
     AddDocument main_server_1 2 ("cat" +:+ String " " "в") ACTUAL [1]
     = AddDocument main_server_1 2 "cat" ACTUAL [1]).
Proof.
  apply stop_word_ignored; [by vm_compute|done|done|done|done].
Defined.

Lemma main_server_0_consistent : consistent main_server_0.
Proof. apply reachable_consistent. constructor. Qed.

Lemma main_server_1_consistent : consistent main_server_1.
Proof. apply reachable_consistent. repeat constructor. Qed.

Lemma AddDocument_twice_witness :
  AddDocument main_server_1 1 "пушистый пёс и модный ошейник" ACTUAL [1; 2]
  = (false, main_server_1).
Proof.
  apply (AddDocument_twice main_server_0 main_server_1 1
           "пушистый кот пушистый хвост" _ ACTUAL _ [7; 2; 7]).
  by vm_compute.
Defined.

Lemma AddDocument_postings_witness :
  (∀ w, has_posting main_server_1 w 1 = true ↔
        w ∈ SplitIntoWords "пушистый кот пушистый хвост"
        ∧ w ∉ stop_words_ main_server_0)
  ∧ (∀ w d, d ≠ 1 →
            lookup_freq (word_to_document_freqs_ main_server_1) w d
            = lookup_freq (word_to_document_freqs_ main_server_0) w d).
Proof.
  apply (AddDocument_postings main_server_0 main_server_1 1
           "пушистый кот пушистый хвост" ACTUAL [7; 2; 7]).
  - apply main_server_0_consistent.
  - by vm_compute.
Defined.

Lemma AddDocument_term_frequency_witness :
  lookup_freq (word_to_document_freqs_ main_server_1) "пушистый" 1
  = match occurrences "пушистый"
            (SplitIntoWordsNoStop main_server_0 "пушистый кот пушистый хвост") with
    | O => None
    | n => Some (counted
                   (1 / double_of_size
                          (length (SplitIntoWordsNoStop main_server_0
                                     "пушистый кот пушистый хвост")))
                   n)
    end.
Proof.
  apply (AddDocument_term_frequency main_server_0 main_server_1 1
           "пушистый кот пушистый хвост" ACTUAL [7; 2; 7]).
  - apply main_server_0_consistent.
  - by vm_compute.
Defined.

Lemma MatchDocument_returns_plus_words_witness :
  ∃ words,
    MatchDocument main_server_2 "пушистый пёс -кот" 3
    = Ok (Some (words, status (mkDocumentData 1 ACTUAL)))
    ∧ (∀ w, w ∈ words ↔
            w ∈ plus_words (mkQuery {["пушистый"; "пёс"]} {["кот"]})%string
            ∧ has_posting main_server_2 w 3 = true
            ∧ ∀ m, m ∈ minus_words (mkQuery {["пушистый"; "пёс"]} {["кот"]})%string →
                   has_posting main_server_2 m 3 = false)
    ∧ StronglySorted string_le words ∧ NoDup words.
Proof.
  apply (MatchDocument_returns_plus_words main_server_2 "пушистый пёс -кот"
           (mkQuery {["пушистый"; "пёс"]} {["кот"]})%string 3
           (mkDocumentData 1 ACTUAL)); by vm_compute.
Defined.

Lemma FindAllDocuments_finds_matches_witness :
  ∃ found,
    FindAllDocuments log_table main_server_2 (mkQuery {["пёс"%string]} ∅)
      (status_is ACTUAL) = Ok found
    ∧ StronglySorted Z.lt (doc_id <$> found)
    ∧ (∀ d, d ∈ doc_id <$> found ↔
            matches main_server_2 (mkQuery {["пёс"%string]} ∅) (status_is ACTUAL) d)
    ∧ (∀ doc, doc ∈ found →
              rating <$> documents_ main_server_2 !! doc_id doc
              = Some (doc_rating doc)).
Proof.
  apply (FindAllDocuments_finds_matches log_table main_server_2).
  apply reachable_consistent, main_server_2_reachable.
Defined.

Lemma FindTopDocuments_lists_matches_witness :
  ∃ found l,
    FindAllDocuments log_table main_server_2 (mkQuery {["пёс"%string]} ∅)
      (status_is ACTUAL) = Ok found
    ∧ FindTopDocuments log_table insertion_sort main_server_2 "пёс"
        (status_is ACTUAL) = Ok (Some l)
    ∧ NoDup (doc_id <$> l)
    ∧ (∀ doc, doc ∈ l →
              matches main_server_2 (mkQuery {["пёс"%string]} ∅) (status_is ACTUAL)
                (doc_id doc)
              ∧ rating <$> documents_ main_server_2 !! doc_id doc
                = Some (doc_rating doc))
    ∧ length l = Nat.min 5 (length found)
    ∧ ((length found ≤ 5)%nat →
       ∀ d, matches main_server_2 (mkQuery {["пёс"%string]} ∅) (status_is ACTUAL) d
            ↔ d ∈ doc_id <$> l).
Proof.
  apply (FindTopDocuments_lists_matches log_table insertion_sort
           insertion_sort_contract main_server_2 "пёс").
  - apply reachable_consistent, main_server_2_reachable.
  - by vm_compute.
Defined.

Lemma FindTopDocuments_by_status_witness :
  FindTopDocuments_actual log_table insertion_sort main_server_2 "пёс"
  = FindTopDocuments_status log_table insertion_sort main_server_2 "пёс" ACTUAL
  ∧ ∃ r, FindTopDocuments_status log_table insertion_sort main_server_2 "пёс" BANNED
         = Ok r
         ∧ ∀ l doc, r = Some l → doc ∈ l →
                    status <$> documents_ main_server_2 !! doc_id doc = Some BANNED.
Proof.
  apply (FindTopDocuments_by_status log_table insertion_sort
           insertion_sort_contract main_server_2 "пёс" BANNED).
  apply reachable_consistent, main_server_2_reachable.
Defined.

Lemma FindTopDocuments_no_plus_words_witness :
  FindTopDocuments log_table insertion_sort main_server_2 "-кот и" (status_is ACTUAL)
  = Ok (Some [])
  ∧ FindTopDocuments log_table insertion_sort main_server_2 EmptyString
      (status_is ACTUAL) = Ok (Some []).
Proof.
  apply (FindTopDocuments_no_plus_words log_table insertion_sort
           insertion_sort_contract main_server_2 "-кот и"
           (mkQuery ∅ {["кот"%string]})); by vm_compute.
Defined.

Lemma found_iff_matched_words_witness :
  ∃ found words,
    FindAllDocuments log_table main_server_2 (mkQuery {["пёс"%string]} ∅)
      (status_is ACTUAL) = Ok found
    ∧ MatchDocument main_server_2 "пёс" 3
      = Ok (Some (words, status (mkDocumentData 1 ACTUAL)))
    ∧ (3 ∈ doc_id <$> found ↔
       status_is ACTUAL 3 (status (mkDocumentData 1 ACTUAL))
         (rating (mkDocumentData 1 ACTUAL)) = true
       ∧ words ≠ []).
Proof.
  apply (found_iff_matched_words log_table main_server_2 "пёс"
           (mkQuery {["пёс"%string]} ∅) (status_is ACTUAL) 3
           (mkDocumentData 1 ACTUAL)).
  - apply reachable_consistent, main_server_2_reachable.
  - by vm_compute.
  - by vm_compute.
Defined.

Lemma AddDocument_keeps_other_matches_witness :
  ParseQuery main_server_2 "пушистый" = ParseQuery main_server_1 "пушистый"
  ∧ ∃ found found',
      FindAllDocuments log_table main_server_1 (mkQuery {["пушистый"%string]} ∅)
        (status_is ACTUAL) = Ok found
      ∧ FindAllDocuments log_table main_server_2 (mkQuery {["пушистый"%string]} ∅)
          (status_is ACTUAL) = Ok found'
      ∧ ∀ d, d ≠ 3 → d ∈ doc_id <$> found' ↔ d ∈ doc_id <$> found.
Proof.
  apply (AddDocument_keeps_other_matches log_table main_server_1 main_server_2 3
           "пушистый пёс и модный ошейник" ACTUAL [1; 2]).
  - apply main_server_1_consistent.
  - by vm_compute.
Defined.

Lemma AddDocument_without_words_witness :
  is_Some (documents_ (AddDocument main_server_1 2 "и в на" BANNED []).2 !! 2)
  ∧ word_to_document_freqs_ (AddDocument main_server_1 2 "и в на" BANNED []).2
    = word_to_document_freqs_ main_server_1
  ∧ (∃ l, FindTopDocuments log_table insertion_sort
            (AddDocument main_server_1 2 "и в на" BANNED []).2 "кот"
            (status_is BANNED) = Ok (Some l)
          ∧ ∀ doc, doc ∈ l → doc_id doc ≠ 2)
  ∧ MatchDocument (AddDocument main_server_1 2 "и в на" BANNED []).2 "кот" 2
    = Ok (Some ([], BANNED)).
Proof.
  apply (AddDocument_without_words log_table insertion_sort insertion_sort_contract
           main_server_1 _ 2 "и в на" BANNED [] "кот" (mkQuery {["кот"%string]} ∅)).
  - apply main_server_1_consistent.
  - by vm_compute.
  - by vm_compute.
  - by vm_compute.
Defined.

Lemma MatchDocument_new_document_witness :
  ∃ words,
    MatchDocument main_server_2 "пёс -кот" 3 = Ok (Some (words, ACTUAL))
    ∧ ∀ w, w ∈ words ↔
           w ∈ plus_words (mkQuery {["пёс"]} {["кот"]})%string
           ∧ w ∈ SplitIntoWords "пушистый пёс и модный ошейник"
           ∧ ∀ m, m ∈ minus_words (mkQuery {["пёс"]} {["кот"]})%string →
                  m ∉ SplitIntoWords "пушистый пёс и модный ошейник".
Proof.
  apply (MatchDocument_new_document main_server_1 main_server_2 3
           "пушистый пёс и модный ошейник" ACTUAL [1; 2] "пёс -кот"
           (mkQuery {["пёс"]} {["кот"]})%string).
  - apply main_server_1_consistent.
  - by vm_compute.
  - by vm_compute.
Defined.

Lemma GetDocumentId_sentinel_witness :
  (0 ≤ 1 < Z.of_nat (size (documents_ main_server_2)) →
   is_Some (documents_ main_server_2 !! GetDocumentId main_server_2 1)
   ∧ 0 ≤ GetDocumentId main_server_2 1)
  ∧ (GetDocumentId main_server_2 1 = INVALID_DOCUMENT_ID ↔
     1 < 0 ∨ Z.of_nat (size (documents_ main_server_2)) ≤ 1).
Proof.
  apply (GetDocumentId_sentinel main_server_2 1), main_server_2_reachable.
Defined.

Lemma GetDocumentId_after_AddDocument_witness :
  (∀ index, 0 ≤ index < Z.of_nat (size (documents_ main_server_1)) →
            GetDocumentId main_server_2 index = GetDocumentId main_server_1 index)
  ∧ GetDocumentId main_server_2 (Z.of_nat (size (documents_ main_server_1))) = 3.
Proof.
  apply (GetDocumentId_after_AddDocument main_server_1 main_server_2 3
           "пушистый пёс и модный ошейник" ACTUAL [1; 2]).
  - by vm_compute.
  - intros d Hd.
    destruct (AddDocument_accepts main_server_0 1 "пушистый кот пушистый хвост"
                ACTUAL [7; 2; 7] main_server_1) as (_ & _ & _ & _ & Hdocs);
      [by vm_compute|].
    rewrite Hdocs in Hd. apply lookup_insert_is_Some in Hd as [<-|[_ Hd]]; [lia|].
    simpl in Hd. rewrite lookup_empty in Hd. by destruct Hd.
Defined.

Lemma ComputeWordInverseDocumentFreq_divisor_witness :
  (ComputeWordInverseDocumentFreq log_table main_server_2 "пёс" = OutOfRange ↔
   word_to_document_freqs_ main_server_2 !! "пёс"%string = None)
  ∧ ∀ postings, word_to_document_freqs_ main_server_2 !! "пёс"%string = Some postings →
      ComputeWordInverseDocumentFreq log_table main_server_2 "пёс"
      = Ok (log_table (double_of_int (GetDocumentCount main_server_2) * 1
                       / double_of_size (size postings))%float)
      ∧ (1 ≤ size postings ≤ size (documents_ main_server_2))%nat.
Proof.
  apply (ComputeWordInverseDocumentFreq_divisor log_table main_server_2 "пёс"),
    main_server_2_reachable.
Defined.

Lemma relevance_is_tf_idf_witness :
  ∃ l,
    FindTopDocuments log_table insertion_sort main_server_2 "пёс" (status_is ACTUAL)
    = Ok (Some l)
    ∧ (∀ doc, doc ∈ l →
              doc_relevance doc
              = tf_idf log_table main_server_2 (mkQuery {["пёс"%string]} ∅)
                  (doc_id doc))
    ∧ (∀ w doc, plus_words (mkQuery {["пёс"%string]} ∅) = {[w]} → doc ∈ l →
         ∃ postings tf,
           word_to_document_freqs_ main_server_2 !! w = Some postings
           ∧ postings !! doc_id doc = Some tf
           ∧ doc_relevance doc
             = (0 + tf * log_table (double_of_int (GetDocumentCount main_server_2) * 1
                                    / double_of_size (size postings)))%float).
Proof.
  apply (relevance_is_tf_idf log_table insertion_sort insertion_sort_contract
           main_server_2 "пёс" (mkQuery {["пёс"%string]} ∅) (status_is ACTUAL)).
  - apply reachable_consistent, main_server_2_reachable.
  - by vm_compute.
Defined.

Lemma AddDocument_order_witness :
  ∃ s2, AddDocument main_server_0 3 "пушистый пёс и модный ошейник" ACTUAL [1; 2]
        = (true, s2)
        ∧ AddDocument s2 1 "пушистый кот пушистый хвост" ACTUAL [7; 2; 7]
          = (true, main_server_2).
Proof.
  apply (AddDocument_order main_server_0 main_server_1 main_server_2 1 3);
    by vm_compute.
Defined.
